(** * Ancestor and descendant mappings for tissues and cell types

    A shallow embedding of
    [scripts/compute_mappings/compute_tissue_and_cell_type_mappings.py]:
    the term identifier codec, the subgraph builder, the two closure
    traversals and the tier filter, followed by the properties that the
    specification states about them.

    Conventions of the embedding:
    - a Python [str] is a [string]; [str.count], [str.replace] and the
      substring test [in] are written out in [PyStr];
    - a Python [set] of names is a [gset string], a [dict] keyed by names
      is a [gmap string _]; the iteration order of a set is the order of
      [elements], so statements about emitted lists are about membership;
    - an exception is a value of [exn] carried by [result];
    - recursion that Python leaves unbounded takes a [fuel] argument, the
      depth of recursion allowed; [None] means that the call has not
      returned within that depth (the interpreter's own recursion limit is
      not modelled);
    - [print] and the queries sent to the graph or to the ontology are
      events: every function returns, next to its result, the list of the
      events of the call, oldest first;
    - the graph library is taken at its contract: [pgv.AGraph()] is a
      strict, undirected graph of named nodes, numbered as they are
      created; an edge keeps the tail and the head it was added with;
      the neighbours of a node are listed in the order of their creation,
      and asking for the neighbours of a name that is not a node raises
      [KeyError];
    - [write_descendants_by_entity] returns the dictionary that the script
      dumps to its file. *)

From Stdlib Require Import Ascii String.
From stdpp Require Import gmap strings list fin_maps pretty.

Open Scope string_scope.
Open Scope list_scope.

Set Warnings "-clear-no-such-hyp".

(** ** Python string primitives *)

Module PyStr.

(** [sub in s] *)
Fixpoint contains (sub s : string) : bool :=
  if String.prefix sub s then true
  else match s with
       | EmptyString => false
       | String _ rest => contains sub rest
       end.

(** [s.count(sub)] for a non-empty [sub]: occurrences are counted left to
    right without overlap; [skip] is the number of characters still
    covered by the occurrence found last. *)
Fixpoint count_from (skip : nat) (sub s : string) : nat :=
  match s with
  | EmptyString => 0
  | String _ rest =>
      match skip with
      | S k => count_from k sub rest
      | O =>
          if String.prefix sub s
          then S (count_from (String.length sub - 1) sub rest)
          else count_from 0 sub rest
      end
  end.

Definition count (sub s : string) : nat := count_from 0 sub s.

(** [s.replace(old, new)] for a non-empty [old]. *)
Fixpoint replace_from (skip : nat) (old new s : string) : string :=
  match s with
  | EmptyString => EmptyString
  | String c rest =>
      match skip with
      | S k => replace_from k old new rest
      | O =>
          if String.prefix old s
          then new +:+ replace_from (String.length old - 1) old new rest
          else String c (replace_from 0 old new rest)
      end
  end.

Definition replace (old new s : string) : string := replace_from 0 old new s.

End PyStr.

(** ** Exceptions *)

Inductive exn : Type :=
| ValueError (msg : string).

Inductive result (A : Type) : Type :=
| Ok (a : A)
| Raise (e : exn).

Arguments Ok {A} a.
Arguments Raise {A} e.

Definition raises {A : Type} (r : result A) : Prop := ∃ e, r = Raise e.

Definition result_bind {A B : Type} (r : result A) (k : A → result B) : result B :=
  match r with
  | Ok a => k a
  | Raise e => Raise e
  end.

(** [[f(x) for x in xs]] with a fallible [f]: the first exception wins. *)
Fixpoint result_map {A B : Type} (f : A → result B) (xs : list A) : result (list B) :=
  match xs with
  | [] => Ok []
  | x :: rest =>
      result_bind (f x) (λ y,
      result_bind (result_map f rest) (λ ys, Ok (y :: ys)))
  end.

(** ** Term identifier codec *)

Definition reformat_ontology_term_id (ontology_term_id : string) (to_writable : bool)
  : result string :=
  if to_writable then
    if negb (Nat.eqb (PyStr.count "_" ontology_term_id) 1) then
      Raise (ValueError (ontology_term_id +:+
        " is an invalid ontology term id, it must contain exactly one '_'"))
    else Ok (PyStr.replace "_" ":" ontology_term_id)
  else
    if negb (Nat.eqb (PyStr.count ":" ontology_term_id) 1) then
      Raise (ValueError (ontology_term_id +:+
        " is an invalid ontology term id, it must contain exactly one ':'"))
    else Ok (PyStr.replace ":" "_" ontology_term_id).

Definition to_writable (id : string) : result string :=
  reformat_ontology_term_id id true.

Definition to_internal (id : string) : result string :=
  reformat_ontology_term_id id false.

(** The two forms of an identifier: exactly one separator character, the
    one of its own form. *)
Definition internal_form (x : string) : Prop :=
  PyStr.count "_" x = 1 ∧ PyStr.count ":" x = 0.

Definition writable_form (y : string) : Prop :=
  PyStr.count ":" y = 1 ∧ PyStr.count "_" y = 0.

(** The form that a direction of [reformat_ontology_term_id] expects:
    the internal form when converting to writable, the writable form when
    converting back. *)
Definition form_for (to_writable : bool) (id : string) : Prop :=
  if to_writable then internal_form id else writable_form id.

(** Occurrences of the character [a] in [s]. *)
Fixpoint count_char (a : ascii) (s : string) : nat :=
  match s with
  | EmptyString => 0
  | String c rest => (if ascii_dec a c then 1 else 0) + count_char a rest
  end.

(** Every [a] of [s] turned into [b]. *)
Fixpoint subst_char (a b : ascii) (s : string) : string :=
  match s with
  | EmptyString => EmptyString
  | String c rest => String (if ascii_dec a c then b else c) (subst_char a b rest)
  end.

Definition underscore : ascii := "_"%char.
Definition colon : ascii := ":"%char.

(** ** Events *)

(** What a run lets the outside see besides its result: the queries it
    sends to the ontology and to the graph, and the lines it prints. *)
Inductive event : Type :=
| AskChildren (entity_name : string)
| AskPredecessors (entity_name : string)
| AskSuccessors (entity_name : string)
| Printed (msg : string).

Global Instance event_eq_dec : EqDecision event.
Proof. solve_decision. Defined.

(** ** Loops *)

(** [for x in xs: body], threading the state a Python loop mutates and
    collecting the events of every iteration; [None] as soon as one
    iteration does not return. *)
Fixpoint for_each {A S : Type} (body : A → S → option (S * list event))
    (xs : list A) (st : S) : option (S * list event) :=
  match xs with
  | [] => Some (st, [])
  | x :: rest =>
      match body x st with
      | None => None
      | Some (st1, ev1) =>
          match for_each body rest st1 with
          | None => None
          | Some (st2, ev2) => Some (st2, ev1 ++ ev2)
          end
      end
  end.

(** The same loop around a body that may raise: the first exception leaves
    the loop, with the events emitted so far. *)
Fixpoint for_each_r {A S : Type} (body : A → S → option (result S * list event))
    (xs : list A) (st : S) : option (result S * list event) :=
  match xs with
  | [] => Some (Ok st, [])
  | x :: rest =>
      match body x st with
      | None => None
      | Some (Raise e, ev1) => Some (Raise e, ev1)
      | Some (Ok st1, ev1) =>
          match for_each_r body rest st1 with
          | None => None
          | Some (r, ev2) => Some (r, ev1 ++ ev2)
          end
      end
  end.

(** [enumerate(xs)] *)
Definition enumerate {A : Type} (xs : list A) : list (nat * A) :=
  imap (λ idx x, (idx, x)) xs.

(** ** The graph

    [pgv.AGraph()] as the script uses it: a strict, undirected graph. The
    nodes are kept in the order of their creation. An edge is kept with
    the tail and the head it was added with; the graph being strict and
    undirected, [add_edge] adds nothing between two nodes that an edge
    already joins, in either direction. [predecessors] lists the tails of
    the edges into a node and [successors] the heads of the edges out of
    it, by creation number of the neighbour; both raise [KeyError] (here
    [None]) for a name that is not a node. *)

Record AGraph : Type := mkAGraph {
  nodes : list string;
  edges : list (string * string)
}.

Definition empty_graph : AGraph := mkAGraph [] [].

Definition has_node (graph : AGraph) (n : string) : bool :=
  bool_decide (n ∈ nodes graph).

Definition add_node (n : string) (graph : AGraph) : AGraph :=
  if has_node graph n then graph
  else mkAGraph (nodes graph ++ [n]) (edges graph).

Definition add_edge (u v : string) (graph : AGraph) : AGraph :=
  let graph := add_node v (add_node u graph) in
  if bool_decide ((u, v) ∈ edges graph ∨ (v, u) ∈ edges graph) then graph
  else mkAGraph (nodes graph) (edges graph ++ [(u, v)]).

(** The creation number of a node: its place among the nodes. *)
Fixpoint seq_in (names : list string) (n : string) : nat :=
  match names with
  | [] => 0
  | m :: rest => if decide (m = n) then 0 else S (seq_in rest n)
  end.

Definition node_seq (graph : AGraph) (n : string) : nat :=
  seq_in (nodes graph) n.

(** Neighbours are listed by creation number, those of one number in the
    order of their edges. *)
Fixpoint insert_by_seq (graph : AGraph) (n : string) (sorted : list string)
  : list string :=
  match sorted with
  | [] => [n]
  | m :: rest =>
      if bool_decide (node_seq graph n ≤ node_seq graph m)%nat
      then n :: m :: rest
      else m :: insert_by_seq graph n rest
  end.

Definition by_creation (graph : AGraph) (neighbours : list string) : list string :=
  foldr (insert_by_seq graph) [] neighbours.

Definition predecessors (graph : AGraph) (n : string) : option (list string) :=
  if has_node graph n
  then Some (by_creation graph ((filter (λ e, e.2 = n) (edges graph)).*1))
  else None.

Definition successors (graph : AGraph) (n : string) : option (list string) :=
  if has_node graph n
  then Some (by_creation graph ((filter (λ e, e.1 = n) (edges graph)).*2))
  else None.

(** The graph built from a list of edges, in order. *)
Definition graph_of_edges (es : list (string * string)) : AGraph :=
  foldl (λ graph e, add_edge e.1 e.2 graph) empty_graph es.

(** ** Subgraph builder (cell types) *)

Section Builder.

(** The loaded ontology: for the name of an entity, [None] when
    [search_one] finds nothing, else the names of its [subclasses()]. *)
Variable cl_world : string → option (list string).

Definition list_direct_descendants (entity_name : string)
  : list string * list event :=
  match cl_world entity_name with
  | None =>
      ([], [AskChildren entity_name;
            Printed (entity_name +:+ " not found in the ontology - please investigate.")])
  | Some subclasses => (subclasses, [AskChildren entity_name])
  end.

Fixpoint build_descendants_graph (fuel : nat) (entity_name : string)
    (graph : AGraph) : option (AGraph * list event) :=
  match fuel with
  | O => None
  | S fuel' =>
      let graph := add_node entity_name graph in
      let '(subtypes, asked) := list_direct_descendants entity_name in
      match
        for_each (λ child_name graph,
          let child_visted := has_node graph child_name in
          let graph := add_edge entity_name child_name graph in
          if child_visted then Some (graph, [])
          else build_descendants_graph fuel' child_name graph)
          subtypes graph
      with
      | None => None
      | Some (graph, ev) => Some (graph, asked ++ ev)
      end
  end.

Definition build_graph_for_cell_types (fuel : nat) (entity_names : list string)
  : option (AGraph * list event) :=
  for_each (λ entity_name graph, build_descendants_graph fuel entity_name graph)
    entity_names empty_graph.

End Builder.

(** ** Closure engine *)

Definition is_cell_culture (entity_name : string) : bool :=
  PyStr.contains "(cell culture)" entity_name.

Definition is_organoid (entity_name : string) : bool :=
  PyStr.contains "(organoid)" entity_name.

Definition is_cell_culture_or_organoid (entity_name : string) : bool :=
  is_cell_culture entity_name || is_organoid entity_name.

Fixpoint list_ancestors (fuel : nat) (entity_name : string) (graph : AGraph)
    (ancestor_set : gset string) : option (gset string * list event) :=
  match fuel with
  | O => None
  | S fuel' =>
      let ancestor_set := ancestor_set ∪ {[entity_name]} in
      if is_cell_culture_or_organoid entity_name then Some (ancestor_set, [])
      else
        match predecessors graph entity_name with
        | None =>
            Some (ancestor_set,
                  [AskPredecessors entity_name;
                   Printed (entity_name +:+
                     " not found - either add a parent to this entity or add this entity to the orphans list.")])
        | Some ancestor_entities =>
            match
              for_each (λ ancestor_entity ancestor_set,
                list_ancestors fuel' ancestor_entity graph ancestor_set)
                ancestor_entities ancestor_set
            with
            | None => None
            | Some (ancestor_set, ev) =>
                Some (ancestor_set, AskPredecessors entity_name :: ev)
            end
        end
  end.

Fixpoint list_descendants (fuel : nat) (entity_name : string) (graph : AGraph)
    (all_successors : gset string) : option (gset string * list event) :=
  match fuel with
  | O => None
  | S fuel' =>
      if is_cell_culture entity_name || is_organoid entity_name
      then Some (all_successors, [])
      else
        let '(successors, asked) :=
          match successors graph entity_name with
          | Some successors => (successors, [AskSuccessors entity_name])
          | None =>
              ([], [AskSuccessors entity_name;
                    Printed (entity_name +:+ " not found - please investigate.")])
          end in
        let all_successors :=
          if Nat.eqb (length successors) 0 then all_successors
          else all_successors ∪ list_to_set successors in
        match
          for_each (λ successor all_successors,
            list_descendants fuel' successor graph all_successors)
            successors all_successors
        with
        | None => None
        | Some (all_successors, ev) => Some (all_successors, asked ++ ev)
        end
  end.

(** [ancestors_of] and [descendants_of] of the specification: the
    traversal started on a fresh set, as every caller in the script does. *)
Definition ancestors_of (fuel : nat) (term : string) (graph : AGraph)
  : option (gset string * list event) :=
  list_ancestors fuel term graph ∅.

Definition descendants_of (fuel : nat) (term : string) (graph : AGraph)
  : option (gset string * list event) :=
  list_descendants fuel term graph ∅.

(** ** Ancestor mapping *)

Definition key_ancestors_entry (fuel : nat) (graph : AGraph) (entity_name : string)
    (ancestors_by_entity : gmap string (list string))
  : option (result (gmap string (list string)) * list event) :=
  match list_ancestors fuel entity_name graph ∅ with
  | None => None
  | Some (descendants, ev) =>
      Some (result_bind (reformat_ontology_term_id entity_name true)
              (λ sanitized_entity_name,
            result_bind (result_map (λ descendant,
                           reformat_ontology_term_id descendant true)
                           (elements descendants))
              (λ sanitized_ancestors,
            Ok (<[sanitized_entity_name := sanitized_ancestors]> ancestors_by_entity))),
            ev)
  end.

Definition key_ancestors_by_entity (fuel : nat) (entity_names : list string)
    (graph : AGraph) : option (result (gmap string (list string)) * list event) :=
  for_each_r (key_ancestors_entry fuel graph) entity_names ∅.

(** ** Tier filter *)

Definition key_organoids_by_ontology_term_id (entity_names : list string)
  : gmap string string :=
  foldl (λ organoids_by_ontology_term_id entity_name,
    if is_organoid entity_name then
      let ontology_term_id := PyStr.replace " (organoid)" "" entity_name in
      <[ontology_term_id := entity_name]> organoids_by_ontology_term_id
    else organoids_by_ontology_term_id) ∅ entity_names.

(** Body of the loop over the descendants of one entity: what one
    descendant adds to [descendant_accept_list]. *)
Definition accept_descendant (accept_list : list string)
    (organoids_by_ontology_term_id : gmap string string)
    (descendant_accept_list : list string) (descendant : string) : list string :=
  let descendant_accept_list :=
    if bool_decide (descendant ∈ accept_list)
    then descendant_accept_list ++ [descendant]
    else descendant_accept_list in
  match organoids_by_ontology_term_id !! descendant with
  | Some organoid => descendant_accept_list ++ [organoid]
  | None => descendant_accept_list
  end.

(** The list [descendant_accept_list] that the script builds for one
    entity from the set of its descendants. *)
Definition descendant_accept_list (descendants : list string)
    (accept_list : list string) (organoids_by_ontology_term_id : gmap string string)
    (entity_anme : string) : list string :=
  let kept :=
    foldl (accept_descendant accept_list organoids_by_ontology_term_id)
      [] descendants in
  match organoids_by_ontology_term_id !! entity_anme with
  | Some organoid => kept ++ [organoid]
  | None => kept
  end.

(** Body of the loop over the entities of one tier. *)
Definition write_descendants_entry (fuel : nat) (graph : AGraph)
    (accept_list : list string) (organoids_by_ontology_term_id : gmap string string)
    (entity_anme : string) (all_descendants : gmap string (list string))
  : option (result (gmap string (list string)) * list event) :=
  match list_descendants fuel entity_anme graph ∅ with
  | None => None
  | Some (descendants, ev) =>
      let kept :=
        descendant_accept_list (elements descendants) accept_list
          organoids_by_ontology_term_id entity_anme in
      if bool_decide (kept = []) then Some (Ok all_descendants, ev)
      else
        Some (result_bind (reformat_ontology_term_id entity_anme true)
                (λ sanitized_entity_name,
              result_bind (result_map (λ descendant,
                             reformat_ontology_term_id descendant true) kept)
                (λ sanitized_descendants,
              Ok (<[sanitized_entity_name := sanitized_descendants]> all_descendants))),
              ev)
  end.

(** Body of the loop over the tiers. *)
Definition write_descendants_tier (fuel : nat) (entity_hierarchy : list (list string))
    (graph : AGraph) (tier : nat * list string)
    (all_descendants : gmap string (list string))
  : option (result (gmap string (list string)) * list event) :=
  let '(idx, entity_set) := tier in
  let accept_lists := drop (S idx) entity_hierarchy in
  if bool_decide (accept_lists = []) then Some (Ok all_descendants, [])
  else
    let accept_list := concat accept_lists in
    let organoids_by_ontology_term_id := key_organoids_by_ontology_term_id accept_list in
    for_each_r
      (write_descendants_entry fuel graph accept_list organoids_by_ontology_term_id)
      entity_set all_descendants.

(** [write_descendants_by_entity], returning the dictionary that the
    script dumps to [file_name]. *)
Definition write_descendants_by_entity (fuel : nat)
    (entity_hierarchy : list (list string)) (graph : AGraph)
  : option (result (gmap string (list string)) * list event) :=
  for_each_r (write_descendants_tier fuel entity_hierarchy graph)
    (enumerate entity_hierarchy) ∅.

(** The stem under which [key_organoids_by_ontology_term_id] files an
    organoid variant. *)
Definition organoid_stem (entity_name : string) : string :=
  PyStr.replace " (organoid)" "" entity_name.

(** The kept list of [entity] in the round whose lower tiers are [lower],
    from the set of its descendants. *)
Definition tier_kept (descendants : gset string) (lower : list (list string))
    (entity : string) : list string :=
  descendant_accept_list (elements descendants) (concat lower)
    (key_organoids_by_ontology_term_id (concat lower)) entity.

(** The loop of [write_descendants_by_entity] over the tiers, told as a
    recursion on the tiers that remain: the lower tiers of a round are the
    rest of the list. *)
Fixpoint rounds (fuel : nat) (graph : AGraph) (tiers : list (list string))
    (all_descendants : gmap string (list string))
  : option (result (gmap string (list string)) * list event) :=
  match tiers with
  | [] => Some (Ok all_descendants, [])
  | entity_set :: lower =>
      match
        if bool_decide (lower = []) then Some (Ok all_descendants, [])
        else
          for_each_r
            (write_descendants_entry fuel graph (concat lower)
               (key_organoids_by_ontology_term_id (concat lower)))
            entity_set all_descendants
      with
      | None => None
      | Some (Raise e, ev1) => Some (Raise e, ev1)
      | Some (Ok all_descendants, ev1) =>
          match rounds fuel graph lower all_descendants with
          | None => None
          | Some (r, ev2) => Some (r, ev1 ++ ev2)
          end
      end
  end.

(** [emitted fuel graph tiers k l]: some round over [tiers] assigns the
    list [l] to the key [k], that is, [k] is the writable form of a term of
    a tier that has lower tiers, the kept list of the term in that round is
    not empty, and [l] is its writable form. *)
Definition emitted (fuel : nat) (graph : AGraph) (tiers : list (list string))
    (k : string) (l : list string) : Prop :=
  ∃ upper tier lower t D ev,
    tiers = upper ++ tier :: lower ∧ lower ≠ [] ∧ t ∈ tier
    ∧ list_descendants fuel t graph ∅ = Some (D, ev)
    ∧ tier_kept D lower t ≠ []
    ∧ to_writable t = Ok k
    ∧ result_map to_writable (tier_kept D lower t) = Ok l.

(** ** Vocabulary of the statements *)

(** [edge graph u v]: the graph has an edge from [u] to its descendant [v]. *)
Definition edge (graph : AGraph) (u v : string) : Prop := (u, v) ∈ edges graph.

Global Instance edge_dec (graph : AGraph) (u v : string) :
  Decision (edge graph u v).
Proof. unfold edge. apply _. Defined.

(** [joined graph u v]: an edge joins [u] and [v], in either direction. *)
Definition joined (graph : AGraph) (u v : string) : Prop :=
  edge graph u v ∨ edge graph v u.

Global Instance joined_dec (graph : AGraph) (u v : string) :
  Decision (joined graph u v).
Proof. unfold joined. apply _. Defined.

(** No two nodes are joined in both directions, as a strict graph
    ensures. *)
Definition one_way (graph : AGraph) : Prop :=
  ∀ u v, edge graph u v → edge graph v u → u = v.

Definition acyclic (graph : AGraph) : Prop := ∀ n, ¬ tc (edge graph) n n.

(** Every end of an edge is a node, as [add_edge] ensures. *)
Definition closed_graph (graph : AGraph) : Prop :=
  ∀ u v, edge graph u v → u ∈ nodes graph ∧ v ∈ nodes graph.

(** What [list_ancestors] reaches from [t]: [t] itself, and, unless [t] is
    a cell-culture or organoid variant or is not a node, whatever it
    reaches from a predecessor of [t]. *)
Inductive reaches_up (graph : AGraph) : string → string → Prop :=
| reaches_up_self t : reaches_up graph t t
| reaches_up_step t p n :
    is_cell_culture_or_organoid t = false →
    t ∈ nodes graph →
    edge graph p t →
    reaches_up graph p n →
    reaches_up graph t n.

(** What [list_descendants] adds from [t]: unless [t] is a variant or is
    not a node, every successor of [t] and whatever is added from it. *)
Inductive reaches_down (graph : AGraph) : string → string → Prop :=
| reaches_down_child t c :
    is_cell_culture_or_organoid t = false →
    t ∈ nodes graph →
    edge graph t c →
    reaches_down graph t c
| reaches_down_step t c n :
    is_cell_culture_or_organoid t = false →
    t ∈ nodes graph →
    edge graph t c →
    reaches_down graph c n →
    reaches_down graph t n.

(** A trap for the walk up (down): non-variant nodes, each with a
    predecessor (a successor) in the collection. *)
Definition trapped_up (graph : AGraph) (trap : list string) : Prop :=
  ∀ t, t ∈ trap →
    is_cell_culture_or_organoid t = false ∧ t ∈ nodes graph
    ∧ ∃ p, p ∈ trap ∧ edge graph p t.

Definition trapped_down (graph : AGraph) (trap : list string) : Prop :=
  ∀ t, t ∈ trap →
    is_cell_culture_or_organoid t = false ∧ t ∈ nodes graph
    ∧ ∃ c, c ∈ trap ∧ edge graph t c.

(** The predecessor and successor queries of a trace. *)
Definition asked_predecessors (ev : list event) : list string :=
  omap (λ e, match e with AskPredecessors n => Some n | _ => None end) ev.

Definition asked_successors (ev : list event) : list string :=
  omap (λ e, match e with AskSuccessors n => Some n | _ => None end) ev.

Definition asked_children (ev : list event) : list string :=
  omap (λ e, match e with AskChildren n => Some n | _ => None end) ev.

Definition printed (ev : list event) : list string :=
  omap (λ e, match e with Printed msg => Some msg | _ => None end) ev.

(** ** Graphs of the examples *)

(** A → B, B → C, A → C *)
Definition diamond : AGraph :=
  graph_of_edges [("A", "B"); ("B", "C"); ("A", "C")].

(** The same with well-formed identifiers. *)
Definition tier_diamond : AGraph :=
  graph_of_edges [("T_A", "T_B"); ("T_B", "T_C"); ("T_A", "T_C")].

(** A → B → C → A *)
Definition triangle : AGraph :=
  graph_of_edges [("A", "B"); ("B", "C"); ("C", "A")].

(** The children that the ontology reports for a node. *)
Definition children_of (cl_world : string → option (list string)) (n : string)
  : list string :=
  (list_direct_descendants cl_world n).1.

(** How many times [n] occurs in [l]. *)
Definition times (n : string) (l : list string) : nat :=
  length (filter (λ x, x = n) l).

(** An ontology with the diamond: B and C under A, C under B. *)
Definition diamond_world (n : string) : option (list string) :=
  if String.eqb n "A" then Some ["B"; "C"]
  else if String.eqb n "B" then Some ["C"]
  else if String.eqb n "C" then Some []
  else None.

(** What one call of [build_descendants_graph] on [e] leaves: the nodes
    it has asked about after [e] are new and distinct, the nodes of the
    graph are the old ones and the ones asked about, and the nodes newly
    joined are the nodes asked about and the children reported for
    them. *)
Definition build_post (cl_world : string → option (list string)) (e : string)
    (graph graph' : AGraph) (ev : list event) : Prop :=
  ∃ extra,
    asked_children ev = e :: extra ∧ NoDup extra
    ∧ (∀ n, n ∈ extra → (n ∉ nodes graph) ∧ n ≠ e)
    ∧ (∀ n, n ∈ nodes graph' ↔ n ∈ nodes graph ∨ n = e ∨ n ∈ extra)
    ∧ (∀ p c, joined graph' p c ↔
              joined graph p c
              ∨ ((p = e ∨ p ∈ extra) ∧ c ∈ children_of cl_world p)
              ∨ ((c = e ∨ c ∈ extra) ∧ p ∈ children_of cl_world c)).

(** ** Readings of the specification that the code is tested against *)

(** The diamond sentence of the ancestor closure: [ancestors_of(C)] is
    [{A, B, C}] and no node has its predecessors queried twice. *)
Definition diamond_traversed_once : Prop :=
  ∃ fuel ev,
    ancestors_of fuel "C" diamond = Some ({["A"; "B"; "C"]}, ev)
    ∧ NoDup (asked_predecessors ev).

(** Both traversals return on every graph, cycles included, and never
    query a node twice within a call. *)
Definition closures_guarded : Prop :=
  ∀ graph t,
    (∃ fuel acc ev, ancestors_of fuel t graph = Some (acc, ev)
                    ∧ NoDup (asked_predecessors ev))
    ∧ (∃ fuel acc ev, descendants_of fuel t graph = Some (acc, ev)
                      ∧ NoDup (asked_successors ev)).

(** An identifier that cannot be converted costs the ancestor mapping
    that one term only: the mapping is returned and holds an entry for
    every production term that converts. *)
Definition codec_error_contained : Prop :=
  ∀ fuel entity_names graph r ev,
    key_ancestors_by_entity fuel entity_names graph = Some (r, ev) →
    ∃ m, r = Ok m
         ∧ ∀ n k, n ∈ entity_names → to_writable n = Ok k → is_Some (m !! k).

(** The variant index files every organoid and every cell-culture variant
    of the acceptable set under some stem. *)
Definition variant_index_covers_variants : Prop :=
  ∀ accept_list v,
    v ∈ accept_list → is_cell_culture_or_organoid v = true →
    ∃ stem, key_organoids_by_ontology_term_id accept_list !! stem = Some v.

(** Within one build no node has its children queried twice, anchors
    included. *)
Definition builder_expands_once : Prop :=
  ∀ cl_world fuel entity_names graph ev,
    build_graph_for_cell_types cl_world fuel entity_names = Some (graph, ev) →
    NoDup (asked_children ev).

(** A term that is not in the graph: the singleton with a diagnostic from
    [ancestors_of], nothing from [descendants_of]. *)
Definition missing_term_diagnosed : Prop :=
  ∀ graph t, t ∉ nodes graph →
    (∃ fuel ev, ancestors_of fuel t graph = Some ({[t]}, ev) ∧ printed ev ≠ [])
    ∧ (∃ fuel ev, descendants_of fuel t graph = Some (∅, ev)).

(** The entry of a term of a tier holds exactly the kept list of the
    term in the round of that tier: its descendants in the union of the
    tiers below, plus the registered variants. *)
Definition tier_entry_as_claimed : Prop :=
  ∀ fuel entity_hierarchy graph m ev upper tier lower t D ev' k l,
    write_descendants_by_entity fuel entity_hierarchy graph = Some (Ok m, ev) →
    entity_hierarchy = upper ++ tier :: lower → lower ≠ [] → t ∈ tier →
    descendants_of fuel t graph = Some (D, ev') →
    to_writable t = Ok k →
    m !! k = Some l →
    ∀ w, w ∈ l ↔ ∃ x, x ∈ tier_kept D lower t ∧ to_writable x = Ok w.

(** ** Further vocabulary *)

(** [reports cl_world p c]: the ontology reports [c] as a child of [p]. *)
Definition reports (cl_world : string → option (list string)) (p c : string) : Prop :=
  c ∈ children_of cl_world p.

(** The part of the ontology that the anchors reach. *)
Definition reachable_from (cl_world : string → option (list string))
    (anchors : list string) (n : string) : Prop :=
  ∃ a, a ∈ anchors ∧ rtc (reports cl_world) a n.

(** How many names of [universe] the graph does not have yet. *)
Definition missing_nodes (universe : list string) (graph : AGraph) : nat :=
  length (filter (λ n, n ∉ nodes graph) universe).

(** An ontology with a cycle: B under A, and A under B. *)
Definition cyclic_world (n : string) : option (list string) :=
  if String.eqb n "A" then Some ["B"]
  else if String.eqb n "B" then Some ["A"]
  else None.

(** ** Subgraph builder (tissues) *)

(** What a row of the part-of query holds: a named class, or a logical
    construct, the kind of entity that has a [Classes] attribute, taken
    with its printed form, such as
    [obo.UBERON_0001213 & obo.BFO_0000050.some(obo.NCBITaxon_9606)]. *)
Inductive entity : Type :=
| NamedClass (name : string)
| Construct (repr : string).

Definition is_axiom (entity : entity) : bool :=
  match entity with
  | Construct _ => true
  | NamedClass _ => false
  end.

Section TissueBuilder.

(** The loaded ontology: the rows that the query of
    [list_direct_descendants_and_parts] returns for the name of an entity. *)
Variable uberon_world : string → list (list entity).

(** The line printed for a row that does not hold exactly one entity, from
    its length and the row. *)
Variable invalid_child_line : nat → list entity → string.

Definition list_direct_descendants_and_parts (entity_name : string)
  : list (list entity) * list event :=
  (uberon_world entity_name, [AskChildren entity_name]).

Fixpoint build_descendants_and_parts_graph (fuel : nat) (entity_name : string)
    (graph : AGraph) : option (AGraph * list event) :=
  match fuel with
  | O => None
  | S fuel' =>
      let graph := add_node entity_name graph in
      let '(subtypes_and_parts, asked) :=
        list_direct_descendants_and_parts entity_name in
      match
        for_each (λ subtype_or_part graph,
          let child_len := length subtype_or_part in
          if Nat.eqb child_len 0 || Nat.ltb 1 child_len then
            Some (graph, [Printed (invalid_child_line child_len subtype_or_part)])
          else
            match subtype_or_part with
            | [] => Some (graph, [])
            | child :: _ =>
                if negb (is_axiom child) then
                  match child with
                  | Construct _ => Some (graph, [])
                  | NamedClass child_name =>
                      if String.eqb child_name "Nothing" then Some (graph, [])
                      else
                        let child_visted := has_node graph child_name in
                        let graph := add_edge entity_name child_name graph in
                        if child_visted then Some (graph, [])
                        else build_descendants_and_parts_graph fuel' child_name graph
                  end
                else Some (graph, [])
            end)
          subtypes_and_parts graph
      with
      | None => None
      | Some (graph, ev) => Some (graph, asked ++ ev)
      end
  end.

Definition build_graph_for_tissues (fuel : nat) (entity_names : list string)
  : option (AGraph * list event) :=
  for_each (λ entity_name tissue_graph,
    build_descendants_and_parts_graph fuel entity_name tissue_graph)
    entity_names empty_graph.

End TissueBuilder.

(** The children that the tissue builder takes from the rows of a query:
    the names of the rows that hold exactly one entity, a named class other
    than [Nothing]. *)
Definition named_children (rows : list (list entity)) : list string :=
  omap (λ row,
    match row with
    | [NamedClass c] => if String.eqb c "Nothing" then None else Some c
    | _ => None
    end) rows.

(** The is-a ontology that reports for every entity its named children of
    the part-of query. *)
Definition named_world (uberon_world : string → list (list entity))
    (n : string) : option (list string) :=
  Some (named_children (uberon_world n)).

(** What is compared of two builds: the graph and the nodes asked about. *)
Definition built (r : option (AGraph * list event)) : option (AGraph * list string) :=
  match r with
  | None => None
  | Some (graph, ev) => Some (graph, asked_children ev)
  end.

(** A tissue ontology: under the eye a lens, the bottom class, a logical
    construct and an empty row. *)
Definition eye_world (n : string) : list (list entity) :=
  if String.eqb n "UBERON_0000970"
  then [[NamedClass "UBERON_0000965"]; [NamedClass "Nothing"];
        [Construct "obo.UBERON_0000970 & obo.BFO_0000050.some(obo.NCBITaxon_9606)"];
        []]
  else [].

(** The printed form of an entity of the ontology: a named class by its
    name space and name, a logical construct as it is. *)
Definition entity_repr (entity : entity) : string :=
  match entity with
  | NamedClass name =>
      if String.eqb name "Nothing" then "owl.Nothing" else "obo." +:+ name
  | Construct repr => repr
  end.

(** The line that [print] writes for an invalid row: the message, the
    length and the row, a list, with a space between them. *)
Definition invalid_length_line (child_len : nat) (row : list entity) : string :=
  "Invalid child length - please investigate: " +:+ " " +:+ pretty child_len
  +:+ " " +:+ "[" +:+ String.concat ", " (map entity_repr row) +:+ "]".


(** A graph with a malformed name above a term: bad → T_C *)
Definition malformed_graph : AGraph := graph_of_edges [("bad", "T_C")].

(** ** Production terms

    The cell that loads the terms in production from the datasets of the
    index: [datasets] is the decoded response, each dataset holding under
    [tissue] and [cell_type] a list of terms with an [ontology_term_id]. *)

Record term : Type := mkTerm { ontology_term_id : string }.

Record dataset : Type := mkDataset {
  tissue : list term;
  cell_type : list term
}.

(** A loop around a body that may raise and emits nothing. *)
Fixpoint for_each_e {A S : Type} (body : A → S → result S) (xs : list A) (st : S)
  : result S :=
  match xs with
  | [] => Ok st
  | x :: rest =>
      match body x st with
      | Raise e => Raise e
      | Ok st1 => for_each_e body rest st1
      end
  end.

(** One of the two inner loops: the terms of a dataset added, converted,
    to a set. *)
Definition add_prod_terms (terms : list term) (prodSet : gset string)
  : result (gset string) :=
  for_each_e (λ term prodSet,
    result_bind (reformat_ontology_term_id (ontology_term_id term) false)
      (λ id, Ok (prodSet ∪ {[id]})))
    terms prodSet.

(** Body of the loop over the datasets. *)
Definition add_dataset (dataset : dataset) (sets : gset string * gset string)
  : result (gset string * gset string) :=
  let '(prodTissueSet, prodCellTypeSet) := sets in
  result_bind (add_prod_terms (tissue dataset) prodTissueSet)
    (λ prodTissueSet,
  result_bind (add_prod_terms (cell_type dataset) prodCellTypeSet)
    (λ prodCellTypeSet,
  Ok (prodTissueSet, prodCellTypeSet))).

(** The cell: the two sets filled dataset by dataset, turned into lists,
    and the two lines printed. *)
Definition load_prod_terms (datasets : list dataset)
  : result (list string * list string * list event) :=
  result_bind (for_each_e add_dataset datasets (∅, ∅))
    (λ sets,
       let '(prodTissueSet, prodCellTypeSet) := sets in
       let prod_tissues := elements prodTissueSet in
       let prod_cell_types := elements prodCellTypeSet in
       Ok (prod_tissues, prod_cell_types,
           [Printed (pretty (length prod_tissues) +:+ " " +:+ " prod tissues found");
            Printed (pretty (length prod_cell_types) +:+ " " +:+ " prod cell types found")])).

(** The tissue and cell type identifiers that the datasets hold. *)
Definition tissue_ids (datasets : list dataset) : list string :=
  concat (map (λ dataset, map ontology_term_id (tissue dataset)) datasets).

Definition cell_type_ids (datasets : list dataset) : list string :=
  concat (map (λ dataset, map ontology_term_id (cell_type dataset)) datasets).

(** Two datasets of the index. *)
Definition lung_datasets : list dataset :=
  [mkDataset [mkTerm "T:C"] [mkTerm "CL:0000066"];
   mkDataset [mkTerm "T:C"; mkTerm "T:B"] []].

Example count_no_overlap : PyStr.count "aa" "aaaaa" = 2.
Proof. reflexivity. Qed.

Example replace_no_overlap : PyStr.replace "aa" "b" "aaaaa" = "bba".
Proof. reflexivity. Qed.

Example replace_organoid :
  PyStr.replace " (organoid)" "" "UBERON_0000955 (organoid)" = "UBERON_0000955".
Proof. reflexivity. Qed.

Example contains_organoid :
  PyStr.contains "(organoid)" "UBERON_0000955 (organoid)" = true
  ∧ PyStr.contains "(organoid)" "UBERON_0000955" = false.
Proof. split; reflexivity. Qed.

Example to_writable_lung : to_writable "UBERON_0002048" = Ok "UBERON:0002048".
Proof. reflexivity. Qed.

Example to_internal_lung : to_internal "UBERON:0002048" = Ok "UBERON_0002048".
Proof. reflexivity. Qed.

(** ** Facts about one-character patterns *)

Section OneChar.

Lemma prefix_one (a c : ascii) (rest : string) :
  String.prefix (String a EmptyString) (String c rest)
  = if ascii_dec a c then true else false.
Proof. simpl. destruct (ascii_dec a c); [by destruct rest | done]. Qed.

Lemma count_one (a : ascii) (s : string) :
  PyStr.count (String a EmptyString) s = count_char a s.
Proof.
  unfold PyStr.count. induction s as [|c rest IH]; [done|].
  cbn [PyStr.count_from count_char]. rewrite prefix_one.
  destruct (ascii_dec a c); simpl; by rewrite IH.
Qed.

Lemma replace_one (a b : ascii) (s : string) :
  PyStr.replace (String a EmptyString) (String b EmptyString) s = subst_char a b s.
Proof.
  unfold PyStr.replace. induction s as [|c rest IH]; [done|].
  cbn [PyStr.replace_from subst_char]. rewrite prefix_one.
  destruct (ascii_dec a c); simpl; by rewrite IH.
Qed.

Lemma count_char_app (a : ascii) (p q : string) :
  count_char a (p +:+ q) = count_char a p + count_char a q.
Proof. induction p as [|c p IH]; simpl; [done|]. rewrite IH. lia. Qed.

Lemma subst_char_app (a b : ascii) (p q : string) :
  subst_char a b (p +:+ q) = subst_char a b p +:+ subst_char a b q.
Proof. induction p as [|c p IH]; simpl; [done|]. by rewrite IH. Qed.

Lemma subst_char_absent (a b : ascii) (s : string) :
  count_char a s = 0 → subst_char a b s = s.
Proof.
  induction s as [|c s IH]; simpl; [done|].
  destruct (ascii_dec a c); [lia|]. intros H. by rewrite IH.
Qed.

(** A string holds exactly one [a] iff it splits around it. *)
Lemma count_char_one_split (a : ascii) (s : string) :
  count_char a s = 1 ↔
  ∃ p q, s = p +:+ String a q ∧ count_char a p = 0 ∧ count_char a q = 0.
Proof.
  split.
  - induction s as [|c s IH]; simpl; [done|].
    destruct (ascii_dec a c) as [->|Hne]; intros H.
    + exists EmptyString, s. simpl. split_and!; [done|done|lia].
    + destruct IH as (p & q & -> & Hp & Hq); [lia|].
      exists (String c p), q. simpl. destruct (ascii_dec a c); [done|].
      by split_and!.
  - intros (p & q & -> & Hp & Hq). rewrite count_char_app. simpl.
    destruct (ascii_dec a a); [lia|done].
Qed.

Lemma subst_char_split (a b : ascii) (p q : string) :
  count_char a p = 0 → count_char a q = 0 →
  subst_char a b (p +:+ String a q) = p +:+ String b q.
Proof.
  intros Hp Hq. rewrite subst_char_app. simpl.
  destruct (ascii_dec a a); [|done].
  by rewrite !subst_char_absent.
Qed.

Lemma count_char_subst_same (a b : ascii) (s : string) :
  a ≠ b → count_char a (subst_char a b s) = 0.
Proof.
  intros Hab. induction s as [|c s IH]; simpl; [done|].
  destruct (ascii_dec a c) as [->|Hc]; simpl.
  - destruct (ascii_dec c b); [done|]. by rewrite IH.
  - destruct (ascii_dec a c); [done|]. by rewrite IH.
Qed.

Lemma count_char_subst_other (a b : ascii) (s : string) :
  a ≠ b → count_char b (subst_char a b s) = count_char a s + count_char b s.
Proof.
  intros Hab. induction s as [|c s IH]; simpl; [done|].
  destruct (ascii_dec a c) as [->|Hc]; simpl.
  - destruct (ascii_dec b b); [|done]. destruct (ascii_dec b c); [congruence|].
    rewrite IH. lia.
  - destruct (ascii_dec b c); rewrite IH; lia.
Qed.

Lemma subst_char_back (a b : ascii) (s : string) :
  count_char b s = 0 → subst_char b a (subst_char a b s) = s.
Proof.
  induction s as [|c s IH]; simpl; [done|].
  destruct (ascii_dec b c) as [->|Hc]; [lia|]. intros H.
  destruct (ascii_dec a c) as [->|Hac]; simpl.
  - destruct (ascii_dec b b); [|done]. by rewrite IH.
  - destruct (ascii_dec b c); [done|]. by rewrite IH.
Qed.

End OneChar.

(** ** The codec in terms of one-character facts *)

Lemma underscore_colon : underscore ≠ colon.
Proof. done. Qed.

Lemma to_writable_eq (id : string) :
  to_writable id =
  if decide (count_char underscore id = 1)
  then Ok (subst_char underscore colon id)
  else Raise (ValueError (id +:+
         " is an invalid ontology term id, it must contain exactly one '_'")).
Proof.
  unfold to_writable, reformat_ontology_term_id.
  change "_" with (String underscore EmptyString).
  change ":" with (String colon EmptyString).
  rewrite count_one, replace_one.
  case_decide as H.
  - by rewrite H.
  - apply Nat.eqb_neq in H. by rewrite H.
Qed.

Lemma to_internal_eq (id : string) :
  to_internal id =
  if decide (count_char colon id = 1)
  then Ok (subst_char colon underscore id)
  else Raise (ValueError (id +:+
         " is an invalid ontology term id, it must contain exactly one ':'")).
Proof.
  unfold to_internal, reformat_ontology_term_id.
  change "_" with (String underscore EmptyString).
  change ":" with (String colon EmptyString).
  rewrite count_one, replace_one.
  case_decide as H.
  - by rewrite H.
  - apply Nat.eqb_neq in H. by rewrite H.
Qed.

Lemma internal_form_eq (x : string) :
  internal_form x ↔ count_char underscore x = 1 ∧ count_char colon x = 0.
Proof.
  unfold internal_form.
  change "_" with (String underscore EmptyString).
  change ":" with (String colon EmptyString).
  by rewrite !count_one.
Qed.

Lemma writable_form_eq (y : string) :
  writable_form y ↔ count_char colon y = 1 ∧ count_char underscore y = 0.
Proof.
  unfold writable_form.
  change "_" with (String underscore EmptyString).
  change ":" with (String colon EmptyString).
  by rewrite !count_one.
Qed.

(** ** Properties of the codec *)

Section Codec.

Lemma to_writable_Ok (id y : string) :
  to_writable id = Ok y ↔
  count_char underscore id = 1 ∧ y = subst_char underscore colon id.
Proof. rewrite to_writable_eq. destruct (decide _) as [H|H]; split.
  - by intros [= <-].
  - by intros [_ ->].
  - done.
  - by intros [? _].
Qed.

Lemma to_internal_Ok (id x : string) :
  to_internal id = Ok x ↔
  count_char colon id = 1 ∧ x = subst_char colon underscore id.
Proof. rewrite to_internal_eq. destruct (decide _) as [H|H]; split.
  - by intros [= <-].
  - by intros [_ ->].
  - done.
  - by intros [? _].
Qed.

Lemma to_writable_raises (id : string) :
  raises (to_writable id) ↔ count_char underscore id ≠ 1.
Proof.
  rewrite to_writable_eq. unfold raises. destruct (decide _) as [H|H]; split.
  - by intros [e ?].
  - done.
  - done.
  - intros _. by eexists.
Qed.

Lemma to_internal_raises (id : string) :
  raises (to_internal id) ↔ count_char colon id ≠ 1.
Proof.
  rewrite to_internal_eq. unfold raises. destruct (decide _) as [H|H]; split.
  - by intros [e ?].
  - done.
  - done.
  - intros _. by eexists.
Qed.

(** Replacing the one separator of a well-formed identifier and replacing
    it back. *)
Lemma to_writable_to_internal (x : string) :
  internal_form x →
  ∃ y, to_writable x = Ok y ∧ writable_form y ∧ to_internal y = Ok x.
Proof.
  rewrite internal_form_eq. intros [Hu Hc].
  exists (subst_char underscore colon x).
  assert (count_char colon (subst_char underscore colon x) = 1) as Hc'.
  { rewrite count_char_subst_other by apply underscore_colon. lia. }
  split_and!.
  - by apply to_writable_Ok.
  - apply writable_form_eq. split; [done|].
    apply count_char_subst_same, underscore_colon.
  - apply to_internal_Ok. split; [done|]. by rewrite subst_char_back.
Qed.

Lemma to_internal_to_writable (y : string) :
  writable_form y →
  ∃ x, to_internal y = Ok x ∧ internal_form x ∧ to_writable x = Ok y.
Proof.
  rewrite writable_form_eq. intros [Hc Hu].
  assert (colon ≠ underscore) as Hne by done.
  exists (subst_char colon underscore y).
  assert (count_char underscore (subst_char colon underscore y) = 1) as Hu'.
  { rewrite count_char_subst_other by done. lia. }
  split_and!.
  - by apply to_internal_Ok.
  - apply internal_form_eq. split; [done|].
    by apply count_char_subst_same.
  - apply to_writable_Ok. split; [done|]. by rewrite subst_char_back.
Qed.

(** The one underscore of an accepted identifier becomes a colon, the
    rest is unchanged. *)
Lemma to_writable_split (id y : string) :
  to_writable id = Ok y ↔
  ∃ p q, id = p +:+ "_" +:+ q ∧ PyStr.count "_" p = 0 ∧ PyStr.count "_" q = 0
         ∧ y = p +:+ ":" +:+ q.
Proof.
  rewrite to_writable_Ok, count_char_one_split.
  change "_" with (String underscore EmptyString).
  split.
  - intros [(p & q & -> & Hp & Hq) ->]. exists p, q.
    rewrite !count_one. split_and!; try done.
    by rewrite subst_char_split.
  - intros (p & q & -> & Hp & Hq & ->). rewrite count_one in Hp, Hq.
    split; [by exists p, q|]. symmetry. by apply subst_char_split.
Qed.

Lemma to_internal_split (id x : string) :
  to_internal id = Ok x ↔
  ∃ p q, id = p +:+ ":" +:+ q ∧ PyStr.count ":" p = 0 ∧ PyStr.count ":" q = 0
         ∧ x = p +:+ "_" +:+ q.
Proof.
  rewrite to_internal_Ok, count_char_one_split.
  change ":" with (String colon EmptyString).
  split.
  - intros [(p & q & -> & Hp & Hq) ->]. exists p, q.
    rewrite !count_one. split_and!; try done.
    by rewrite subst_char_split.
  - intros (p & q & -> & Hp & Hq & ->). rewrite count_one in Hp, Hq.
    split; [by exists p, q|]. symmetry. by apply subst_char_split.
Qed.

End Codec.

(** C7. Codec round trip: an identifier in the form its direction expects
    (exactly one separator character, the one of that form) is converted
    without error into the other form, and converting the result back gives
    the identifier again; in both directions, so the two conversions are
    mutually inverse bijections between the underscore and the colon
    forms. *)
Theorem codec_round_trip (to_writable : bool) (id : string) :
  form_for to_writable id →
  ∃ id', reformat_ontology_term_id id to_writable = Ok id'
         ∧ form_for (negb to_writable) id'
         ∧ reformat_ontology_term_id id' (negb to_writable) = Ok id.
Proof.
  destruct to_writable; simpl; intros H.
  - by apply to_writable_to_internal.
  - by apply to_internal_to_writable.
Qed.

Lemma codec_round_trip_witness :
  form_for true "UBERON_0002048"
  ∧ ∃ id', reformat_ontology_term_id "UBERON_0002048" true = Ok id'
           ∧ form_for false id'
           ∧ reformat_ontology_term_id id' false = Ok "UBERON_0002048".
Proof.
  assert (form_for true "UBERON_0002048") as H by (split; reflexivity).
  split; [exact H|]. exact (codec_round_trip true "UBERON_0002048" H).
Defined.

(** C8. [to_writable] returns exactly when the identifier holds exactly one
    underscore, the result being the identifier with that underscore turned
    into a colon, and raises [ValueError] exactly when the count differs
    from one; no separator and two separators are both rejected.
    [to_internal] does the same with the colon. *)
Theorem codec_raises_iff (id : string) :
  (∀ y, to_writable id = Ok y ↔
        ∃ p q, id = p +:+ "_" +:+ q ∧ PyStr.count "_" p = 0
               ∧ PyStr.count "_" q = 0 ∧ y = p +:+ ":" +:+ q)
  ∧ ((∃ y, to_writable id = Ok y) ↔ PyStr.count "_" id = 1)
  ∧ (raises (to_writable id) ↔ PyStr.count "_" id ≠ 1)
  ∧ (∀ x, to_internal id = Ok x ↔
        ∃ p q, id = p +:+ ":" +:+ q ∧ PyStr.count ":" p = 0
               ∧ PyStr.count ":" q = 0 ∧ x = p +:+ "_" +:+ q)
  ∧ ((∃ x, to_internal id = Ok x) ↔ PyStr.count ":" id = 1)
  ∧ (raises (to_internal id) ↔ PyStr.count ":" id ≠ 1)
  ∧ raises (to_writable "UBERON0002048")
  ∧ raises (to_writable "A_B_C").
Proof.
  change "_" with (String underscore EmptyString).
  change ":" with (String colon EmptyString).
  rewrite !count_one.
  split_and!.
  - apply to_writable_split.
  - split; [intros [y Hy]; by apply to_writable_Ok in Hy as [? _]|].
    intros H. eexists. by apply to_writable_Ok.
  - apply to_writable_raises.
  - apply to_internal_split.
  - split; [intros [y Hy]; by apply to_internal_Ok in Hy as [? _]|].
    intros H. eexists. by apply to_internal_Ok.
  - apply to_internal_raises.
  - by eexists.
  - by eexists.
Qed.

(** Without the second half of well-formedness the way back fails: an
    identifier with one underscore that also holds a colon is accepted by
    [to_writable], and its image is rejected by [to_internal]. *)
Example round_trip_needs_no_colon :
  to_writable "A_B:C" = Ok "A:B:C" ∧ raises (to_internal "A:B:C").
Proof. split; [reflexivity|by eexists]. Qed.

(** ** Loops and graph queries *)

Section Loops.

Context {A S : Type}.
Implicit Types (body : A → S → option (S * list event)) (xs : list A) (st : S).

Lemma for_each_cons body x xs st :
  for_each body (x :: xs) st =
  match body x st with
  | None => None
  | Some (st1, ev1) =>
      match for_each body xs st1 with
      | None => None
      | Some (st2, ev2) => Some (st2, ev1 ++ ev2)
      end
  end.
Proof. done. Qed.

(** A loop returns what it returned under any body that agrees with the
    first wherever the first returns. *)
Lemma for_each_mono body body' xs st r :
  (∀ x st r, x ∈ xs → body x st = Some r → body' x st = Some r) →
  for_each body xs st = Some r → for_each body' xs st = Some r.
Proof.
  revert st r. induction xs as [|x xs IH]; intros st r Hbody; [done|].
  rewrite !for_each_cons.
  destruct (body x st) as [[st1 ev1]|] eqn:Hx; [|done].
  rewrite (Hbody x st (st1, ev1)); [|set_solver|done].
  destruct (for_each body xs st1) as [[st2 ev2]|] eqn:Hxs; [|done].
  intros [= <-]. rewrite (IH st1 (st2, ev2)); [done| |done].
  intros ????. apply Hbody. set_solver.
Qed.

(** One iteration that never returns stops the whole loop. *)
Lemma for_each_stuck body xs st x :
  x ∈ xs → (∀ st, body x st = None) → for_each body xs st = None.
Proof.
  intros Hx Hnone. revert st.
  induction xs as [|y xs IH]; intros st; [by apply elem_of_nil in Hx|].
  rewrite for_each_cons. apply elem_of_cons in Hx as [->|Hx].
  - by rewrite Hnone.
  - destruct (body y st) as [[st1 ev1]|]; [|done]. by rewrite IH.
Qed.

End Loops.

Section GraphQueries.

Implicit Types (graph : AGraph) (n p t : string).

Lemma has_node_true graph n : has_node graph n = true ↔ n ∈ nodes graph.
Proof. unfold has_node. by rewrite bool_decide_eq_true. Qed.

Lemma has_node_false graph n : has_node graph n = false ↔ n ∉ nodes graph.
Proof. unfold has_node. by rewrite bool_decide_eq_false. Qed.

Lemma predecessors_None graph t :
  predecessors graph t = None ↔ t ∉ nodes graph.
Proof.
  unfold predecessors. rewrite <- has_node_false.
  by destruct (has_node graph t).
Qed.

Lemma successors_None graph t :
  successors graph t = None ↔ t ∉ nodes graph.
Proof.
  unfold successors. rewrite <- has_node_false.
  by destruct (has_node graph t).
Qed.

Lemma elem_of_insert_by_seq graph n (sorted : list string) x :
  x ∈ insert_by_seq graph n sorted ↔ x = n ∨ x ∈ sorted.
Proof.
  induction sorted as [|m rest IH]; simpl.
  - rewrite list_elem_of_singleton, elem_of_nil. tauto.
  - case_bool_decide; rewrite !elem_of_cons; [done|]. rewrite IH. tauto.
Qed.

Lemma elem_of_by_creation graph (neighbours : list string) x :
  x ∈ by_creation graph neighbours ↔ x ∈ neighbours.
Proof.
  unfold by_creation. induction neighbours as [|n rest IH]; simpl; [done|].
  by rewrite elem_of_insert_by_seq, IH, elem_of_cons.
Qed.

Lemma predecessors_Some graph t ps :
  predecessors graph t = Some ps →
  t ∈ nodes graph ∧ ∀ p, p ∈ ps ↔ edge graph p t.
Proof.
  unfold predecessors. destruct (has_node graph t) eqn:Hn; [|done].
  intros [= <-]. split; [by apply has_node_true|].
  intros p. unfold edge. rewrite elem_of_by_creation, list_elem_of_fmap. split.
  - intros ([u v] & -> & [Hv ?]%list_elem_of_filter). simpl in *. by subst.
  - intros He. exists (p, t). split; [done|]. by apply list_elem_of_filter.
Qed.

Lemma successors_Some graph t cs :
  successors graph t = Some cs →
  t ∈ nodes graph ∧ ∀ c, c ∈ cs ↔ edge graph t c.
Proof.
  unfold successors. destruct (has_node graph t) eqn:Hn; [|done].
  intros [= <-]. split; [by apply has_node_true|].
  intros c. unfold edge. rewrite elem_of_by_creation, list_elem_of_fmap. split.
  - intros ([u v] & -> & [Hu ?]%list_elem_of_filter). simpl in *. by subst.
  - intros He. exists (t, c). split; [done|]. by apply list_elem_of_filter.
Qed.

End GraphQueries.

(** ** The closure traversals *)

Section Closure.

Variable graph : AGraph.

Implicit Types (t n p c : string) (acc : gset string).

Lemma list_ancestors_S fuel t acc :
  list_ancestors (S fuel) t graph acc =
  if is_cell_culture_or_organoid t then Some (acc ∪ {[t]}, [])
  else
    match predecessors graph t with
    | None =>
        Some (acc ∪ {[t]},
              [AskPredecessors t;
               Printed (t +:+
                 " not found - either add a parent to this entity or add this entity to the orphans list.")])
    | Some ps =>
        match for_each (λ p acc, list_ancestors fuel p graph acc) ps (acc ∪ {[t]}) with
        | None => None
        | Some (acc', ev) => Some (acc', AskPredecessors t :: ev)
        end
    end.
Proof. done. Qed.

Lemma list_descendants_S fuel t acc :
  list_descendants (S fuel) t graph acc =
  if is_cell_culture_or_organoid t then Some (acc, [])
  else
    let '(cs, asked) :=
      match successors graph t with
      | Some cs => (cs, [AskSuccessors t])
      | None =>
          ([], [AskSuccessors t;
                Printed (t +:+ " not found - please investigate.")])
      end in
    match
      for_each (λ c acc, list_descendants fuel c graph acc) cs
        (if Nat.eqb (length cs) 0 then acc else acc ∪ list_to_set cs)
    with
    | None => None
    | Some (acc', ev) => Some (acc', asked ++ ev)
    end.
Proof. done. Qed.

(** *** More fuel changes nothing *)

Lemma list_ancestors_mono (fuel fuel' : nat) t acc r :
  (fuel ≤ fuel')%nat →
  list_ancestors fuel t graph acc = Some r →
  list_ancestors fuel' t graph acc = Some r.
Proof.
  revert fuel' t acc r.
  induction fuel as [|fuel IH]; intros fuel' t acc r Hle; [done|].
  destruct fuel' as [|fuel']; [lia|]. rewrite !list_ancestors_S.
  destruct (is_cell_culture_or_organoid t); [done|].
  destruct (predecessors graph t) as [ps|]; [|done].
  destruct (for_each _ ps _) as [[acc' ev]|] eqn:Hloop; [|done].
  intros [= <-].
  rewrite (for_each_mono (λ p acc, list_ancestors fuel p graph acc)
             (λ p acc, list_ancestors fuel' p graph acc) _ _ (acc', ev)); [done| |exact Hloop].
  intros p acc1 r1 _. apply IH. lia.
Qed.

Lemma list_descendants_mono (fuel fuel' : nat) t acc r :
  (fuel ≤ fuel')%nat →
  list_descendants fuel t graph acc = Some r →
  list_descendants fuel' t graph acc = Some r.
Proof.
  revert fuel' t acc r.
  induction fuel as [|fuel IH]; intros fuel' t acc r Hle; [done|].
  destruct fuel' as [|fuel']; [lia|]. rewrite !list_descendants_S.
  destruct (is_cell_culture_or_organoid t); [done|].
  destruct (match successors graph t with Some _ => _ | None => _ end)
    as [cs asked].
  destruct (for_each _ cs _) as [[acc' ev]|] eqn:Hloop; [|done].
  intros [= <-].
  rewrite (for_each_mono (λ c acc, list_descendants fuel c graph acc)
             (λ c acc, list_descendants fuel' c graph acc) _ _ (acc', ev)); [done| |exact Hloop].
  intros c acc1 r1 _. apply IH. lia.
Qed.

(** *** What a returning call has accumulated *)

Lemma for_each_union {A : Type}
    (body : A → gset string → option (gset string * list event))
    (reach : A → string → Prop) (xs : list A) :
  (∀ x acc acc' ev, x ∈ xs → body x acc = Some (acc', ev) →
     ∀ n, n ∈ acc' ↔ n ∈ acc ∨ reach x n) →
  ∀ acc acc' ev, for_each body xs acc = Some (acc', ev) →
    ∀ n, n ∈ acc' ↔ n ∈ acc ∨ ∃ x, x ∈ xs ∧ reach x n.
Proof.
  induction xs as [|x xs IH]; intros Hbody acc acc' ev.
  - intros [= <- <-] n. split; [by left|]. intros [?|(x & Hx & _)]; [done|].
    by apply elem_of_nil in Hx.
  - rewrite for_each_cons.
    destruct (body x acc) as [[acc1 ev1]|] eqn:Hx; [|done].
    destruct (for_each body xs acc1) as [[acc2 ev2]|] eqn:Hxs; [|done].
    intros [= <- <-] n.
    rewrite (IH (λ y a a' e Hy, Hbody y a a' e (list_elem_of_further _ _ _ Hy))
               _ _ _ Hxs n).
    rewrite (Hbody x _ _ _ (list_elem_of_here _ _) Hx n).
    split.
    + intros [[?|?]|(y & Hy & ?)]; [by left|right..].
      * exists x. split; [left|done].
      * exists y. split; [by right|done].
    + intros [?|(y & [->|Hy]%elem_of_cons & ?)].
      * by left; left.
      * by left; right.
      * right. by exists y.
Qed.

Lemma reaches_up_inv t n :
  reaches_up graph t n ↔
  n = t ∨ (is_cell_culture_or_organoid t = false ∧ t ∈ nodes graph
           ∧ ∃ p, edge graph p t ∧ reaches_up graph p n).
Proof.
  split.
  - intros H. destruct H as [t|t p n ? ? ? ?]; [by left|right]. eauto.
  - intros [->|(? & ? & p & ? & ?)]; [constructor|].
    by eapply reaches_up_step.
Qed.

Lemma reaches_down_inv t n :
  reaches_down graph t n ↔
  is_cell_culture_or_organoid t = false ∧ t ∈ nodes graph
  ∧ ∃ c, edge graph t c ∧ (n = c ∨ reaches_down graph c n).
Proof.
  split.
  - intros H. destruct H as [t c ? ? ?|t c n ? ? ? ?]; eauto 10.
  - intros (? & ? & c & ? & [->|?]).
    + by apply reaches_down_child.
    + by eapply reaches_down_step.
Qed.

Lemma list_ancestors_reaches fuel t acc acc' ev :
  list_ancestors fuel t graph acc = Some (acc', ev) →
  ∀ n, n ∈ acc' ↔ n ∈ acc ∨ reaches_up graph t n.
Proof.
  revert t acc acc' ev.
  induction fuel as [|fuel IH]; intros t acc acc' ev; [done|].
  rewrite list_ancestors_S.
  destruct (is_cell_culture_or_organoid t) eqn:Hvar.
  { intros [= <- <-] n. rewrite reaches_up_inv, Hvar. set_solver. }
  destruct (predecessors graph t) as [ps|] eqn:Hps.
  - apply predecessors_Some in Hps as [Hnode Hps].
    destruct (for_each _ ps _) as [[acc1 ev1]|] eqn:Hloop; [|done].
    intros [= <- <-] n.
    rewrite (for_each_union _ (reaches_up graph) ps
               (λ p a a' e _, IH p a a' e) _ _ _ Hloop n).
    rewrite (reaches_up_inv t n), Hvar.
    split.
    + intros [[?|Hn%elem_of_singleton]%elem_of_union|(p & Hp & ?)];
        [by left|right; by left|].
      right; right. split_and!; [done..|]. exists p. by rewrite <- Hps.
    + intros [?|[->|(_ & _ & p & Hp & ?)]]; [set_solver..|].
      right. exists p. by rewrite Hps.
  - apply predecessors_None in Hps.
    intros [= <- <-] n. rewrite reaches_up_inv. set_solver.
Qed.

Lemma list_descendants_reaches fuel t acc acc' ev :
  list_descendants fuel t graph acc = Some (acc', ev) →
  ∀ n, n ∈ acc' ↔ n ∈ acc ∨ reaches_down graph t n.
Proof.
  revert t acc acc' ev.
  induction fuel as [|fuel IH]; intros t acc acc' ev; [done|].
  rewrite list_descendants_S.
  destruct (is_cell_culture_or_organoid t) eqn:Hvar.
  { intros [= <- <-] n. rewrite reaches_down_inv, Hvar. naive_solver. }
  destruct (successors graph t) as [cs|] eqn:Hcs.
  - apply successors_Some in Hcs as [Hnode Hcs].
    destruct (for_each _ cs _) as [[acc1 ev1]|] eqn:Hloop; [|done].
    intros [= <- <-] n.
    rewrite (for_each_union _ (reaches_down graph) cs
               (λ c a a' e _, IH c a a' e) _ _ _ Hloop n).
    rewrite (reaches_down_inv t n), Hvar.
    assert (n ∈ (if Nat.eqb (length cs) 0 then acc else acc ∪ list_to_set cs)
            ↔ n ∈ acc ∨ n ∈ cs) as ->.
    { destruct cs as [|c cs]; simpl; [set_solver|].
      rewrite elem_of_union, elem_of_union, elem_of_singleton,
        elem_of_list_to_set, elem_of_cons. tauto. }
    split.
    + intros [[?|Hn]|(c & Hc & ?)]; [by left|right..].
      * split_and!; [done..|]. exists n. rewrite <- Hcs. eauto.
      * split_and!; [done..|]. exists c. rewrite <- Hcs. eauto.
    + intros [?|(_ & _ & c & Hc & [->|?])].
      * by left; left.
      * left; right. by rewrite Hcs.
      * right. exists c. by rewrite Hcs.
  - apply successors_None in Hcs. simpl.
    intros [= <- <-] n. rewrite reaches_down_inv. naive_solver.
Qed.

End Closure.

(** ** Termination of the closure traversals *)

Section Termination.

Variable graph : AGraph.

Implicit Types (t n p c : string) (acc : gset string).

(** One amount of fuel serves a whole loop when every iteration returns
    for some amount and more fuel changes nothing. *)
Lemma for_each_fuel {A S : Type} (F : nat → A → S → option (S * list event))
    (xs : list A) :
  (∀ (f f' : nat) x st r, (f ≤ f')%nat → F f x st = Some r → F f' x st = Some r) →
  (∀ x, x ∈ xs → ∀ st, ∃ f r, F f x st = Some r) →
  ∀ st, ∃ f r, for_each (F f) xs st = Some r.
Proof.
  intros Hmono. induction xs as [|x xs IH]; intros Hall st.
  - exists 0. by eexists.
  - destruct (Hall x (list_elem_of_here _ _) st) as (f1 & [st1 ev1] & H1).
    destruct (IH (λ y Hy, Hall y (list_elem_of_further _ _ _ Hy)) st1)
      as (f2 & [st2 ev2] & H2).
    exists (f1 `max` f2), (st2, ev1 ++ ev2). rewrite for_each_cons.
    rewrite (Hmono f1 (f1 `max` f2) _ _ _ (Nat.le_max_l _ _) H1).
    rewrite (for_each_mono (F f2) (F (f1 `max` f2)) xs st1 (st2, ev2)); [done| |done].
    intros y st' r' _. apply Hmono, Nat.le_max_r.
Qed.

Lemma list_ancestors_Acc t :
  Acc (edge graph) t → ∀ acc, ∃ fuel r, list_ancestors fuel t graph acc = Some r.
Proof.
  induction 1 as [t _ IH]. intros acc.
  destruct (is_cell_culture_or_organoid t) eqn:Hvar.
  { exists 1. rewrite list_ancestors_S, Hvar. by eexists. }
  destruct (predecessors graph t) as [ps|] eqn:Hps.
  - pose proof Hps as [_ Hin]%predecessors_Some.
    destruct (for_each_fuel (λ f p a, list_ancestors f p graph a) ps)
      with (st := acc ∪ {[t]}) as (f & [acc' ev] & Hloop).
    + intros f f' p a r. apply list_ancestors_mono.
    + intros p Hp. apply IH. by apply Hin.
    + exists (S f). rewrite list_ancestors_S, Hvar, Hps, Hloop. by eexists.
  - exists 1. rewrite list_ancestors_S, Hvar, Hps. by eexists.
Qed.

Lemma list_descendants_Acc t :
  Acc (flip (edge graph)) t →
  ∀ acc, ∃ fuel r, list_descendants fuel t graph acc = Some r.
Proof.
  induction 1 as [t _ IH]. intros acc.
  destruct (is_cell_culture_or_organoid t) eqn:Hvar.
  { exists 1. rewrite list_descendants_S, Hvar. by eexists. }
  destruct (successors graph t) as [cs|] eqn:Hcs.
  - pose proof Hcs as [_ Hin]%successors_Some.
    destruct (for_each_fuel (λ f c a, list_descendants f c graph a) cs)
      with (st := if Nat.eqb (length cs) 0 then acc else acc ∪ list_to_set cs)
      as (f & [acc' ev] & Hloop).
    + intros f f' c a r. apply list_descendants_mono.
    + intros c Hc. apply IH. by apply Hin.
    + exists (S f). rewrite list_descendants_S, Hvar, Hcs, Hloop. by eexists.
  - exists 1. rewrite list_descendants_S, Hvar, Hcs. by eexists.
Qed.

Lemma tc_flip {A : Type} (R : relation A) x y : tc (flip R) x y → tc R y x.
Proof.
  induction 1 as [x y H|x y z H _ IH]; [by apply tc_once|].
  eapply tc_r; [exact IH|exact H].
Qed.

Lemma tc_edge_source t n : tc (edge graph) n t → n ∈ (edges graph).*1.
Proof.
  intros H. apply list_elem_of_fmap.
  destruct H as [n t H|n m t H _]; [by exists (n, t)|by exists (n, m)].
Qed.

Lemma tc_edge_target t n : tc (edge graph) t n → n ∈ (edges graph).*2.
Proof.
  intros H. apply list_elem_of_fmap.
  induction H as [t n H|t m n _ _ IH]; [by exists (t, n)|done].
Qed.

Lemma acyclic_Acc_up t : acyclic graph → Acc (edge graph) t.
Proof.
  intros Hacyc.
  apply (tc_finite_sn (R := flip (edge graph)) t).
  - intros n Hn. by apply tc_flip, Hacyc in Hn.
  - exists ((edges graph).*1). intros n Hn. by apply tc_flip, tc_edge_source in Hn.
Qed.

Lemma acyclic_Acc_down t : acyclic graph → Acc (flip (edge graph)) t.
Proof.
  intros Hacyc.
  apply (tc_finite_sn (R := edge graph) t).
  - exact Hacyc.
  - exists ((edges graph).*2). intros n. apply tc_edge_target.
Qed.

(** A rank that grows along every edge rules cycles out. *)
Lemma acyclic_rank (rank : string → nat) :
  (∀ u v, edge graph u v → (rank u < rank v)%nat) → acyclic graph.
Proof.
  intros Hrank n Hn.
  assert (∀ u v, tc (edge graph) u v → (rank u < rank v)%nat) as Hlt.
  { induction 1 as [u v H|u v w H _ IH]; [by apply Hrank|].
    apply Hrank in H. lia. }
  apply Hlt in Hn. lia.
Qed.

(** *** Cycles

    A trap is a collection of non-variant nodes, each with a predecessor
    (a successor) in the collection: a traversal that enters it has no
    way to return. *)

Lemma list_ancestors_trapped (trap : list string) :
  trapped_up graph trap →
  ∀ fuel t acc, t ∈ trap → list_ancestors fuel t graph acc = None.
Proof.
  intros Htrap. induction fuel as [|fuel IH]; intros t acc Ht; [done|].
  destruct (Htrap t Ht) as (Hvar & Hnode & p & Hp & He).
  rewrite list_ancestors_S, Hvar.
  destruct (predecessors graph t) as [ps|] eqn:Hps.
  - apply predecessors_Some in Hps as [_ Hin].
    rewrite (for_each_stuck _ ps _ p); [done|by apply Hin|].
    intros acc'. by apply IH.
  - by apply predecessors_None in Hps.
Qed.

Lemma list_descendants_trapped (trap : list string) :
  trapped_down graph trap →
  ∀ fuel t acc, t ∈ trap → list_descendants fuel t graph acc = None.
Proof.
  intros Htrap. induction fuel as [|fuel IH]; intros t acc Ht; [done|].
  destruct (Htrap t Ht) as (Hvar & Hnode & c & Hc & He).
  rewrite list_descendants_S, Hvar.
  destruct (successors graph t) as [cs|] eqn:Hcs.
  - apply successors_Some in Hcs as [_ Hin].
    rewrite (for_each_stuck _ cs _ c); [done|by apply Hin|].
    intros acc'. by apply IH.
  - by apply successors_None in Hcs.
Qed.

End Termination.

(** ** The example graphs *)

(** Decidable facts about concrete graphs are settled by evaluation. *)
Ltac by_evaluation := apply (bool_decide_unpack _); vm_compute; exact I.

Lemma diamond_acyclic : acyclic diamond.
Proof.
  apply (acyclic_rank diamond
           (λ n, if String.eqb n "A" then 0 else if String.eqb n "B" then 1 else 2)).
  intros u v. unfold edge. change (edges diamond) with [("A", "B"); ("B", "C"); ("A", "C")].
  rewrite !elem_of_cons, elem_of_nil.
  intros [[= -> ->]|[[= -> ->]|[[= -> ->]|[]]]]; simpl; lia.
Qed.

Lemma triangle_trapped_up : trapped_up triangle ["A"; "B"; "C"].
Proof.
  intros t. rewrite !elem_of_cons, elem_of_nil.
  intros [->|[->|[->|[]]]]; (split_and!; [reflexivity|by_evaluation|]).
  - exists "C". split; by_evaluation.
  - exists "A". split; by_evaluation.
  - exists "B". split; by_evaluation.
Qed.

Lemma triangle_trapped_down : trapped_down triangle ["A"; "B"; "C"].
Proof.
  intros t. rewrite !elem_of_cons, elem_of_nil.
  intros [->|[->|[->|[]]]]; (split_and!; [reflexivity|by_evaluation|]).
  - exists "B". split; by_evaluation.
  - exists "C". split; by_evaluation.
  - exists "A". split; by_evaluation.
Qed.

Lemma ancestors_of_C_diamond (fuel : nat) :
  (3 ≤ fuel)%nat →
  ancestors_of fuel "C" diamond
  = Some ({["A"; "B"; "C"]},
          [AskPredecessors "C"; AskPredecessors "A";
           AskPredecessors "B"; AskPredecessors "A"]).
Proof. intros H. by apply (list_ancestors_mono diamond 3 fuel). Qed.

Lemma descendants_of_A_diamond (fuel : nat) :
  (3 ≤ fuel)%nat →
  descendants_of fuel "A" diamond
  = Some ({["B"; "C"]},
          [AskSuccessors "A"; AskSuccessors "B";
           AskSuccessors "C"; AskSuccessors "C"]).
Proof. intros H. by apply (list_descendants_mono diamond 3 fuel). Qed.

(** No variant among the nodes and every edge between nodes: what is
    reached walking up is what has a path of edges to the start. *)
Lemma reaches_up_rtc (graph : AGraph) (t n : string) :
  closed_graph graph →
  (∀ m, m ∈ nodes graph → is_cell_culture_or_organoid m = false) →
  reaches_up graph t n ↔ rtc (edge graph) n t.
Proof.
  intros Hclosed Hplain. split.
  - induction 1 as [t|t p n _ _ He _ IH]; [done|].
    eapply rtc_r; [exact IH|exact He].
  - revert t. apply rtc_ind_r; [constructor|].
    intros m t _ He IH. destruct (Hclosed m t He) as [_ Ht].
    eapply reaches_up_step; [by apply Hplain|done|exact He|exact IH].
Qed.

(** C2, in the form that holds of the code.
    Whenever [ancestors_of] returns, its result is exactly
    the set of terms reached from the start by following incoming edges,
    the start included, where the walk does not continue past a
    cell-culture or organoid variant nor past a term that is not a node;
    on a graph whose edges join nodes and that has no variant among its
    nodes this is every term with a path of edges to the start. On the
    diamond A → B, B → C, A → C the call returns exactly [{A, B, C}] with
    any recursion depth of three or more, and it queries the predecessors
    of A twice, once on each way to A: the traversal keeps no visited
    set. *)
Theorem ancestors_closure (fuel : nat) (t : string) (graph : AGraph)
    (acc : gset string) (ev : list event) :
  ancestors_of fuel t graph = Some (acc, ev) →
  (∀ n, n ∈ acc ↔ reaches_up graph t n)
  ∧ (closed_graph graph →
     (∀ m, m ∈ nodes graph → is_cell_culture_or_organoid m = false) →
     ∀ n, n ∈ acc ↔ rtc (edge graph) n t)
  ∧ (∀ fuel', (3 ≤ fuel')%nat →
       ∃ ev', ancestors_of fuel' "C" diamond = Some ({["A"; "B"; "C"]}, ev')
              ∧ times "A" (asked_predecessors ev') = 2
              ∧ times "B" (asked_predecessors ev') = 1
              ∧ times "C" (asked_predecessors ev') = 1).
Proof.
  intros Hrun.
  assert (∀ n, n ∈ acc ↔ reaches_up graph t n) as Hreach.
  { intros n. rewrite (list_ancestors_reaches graph fuel t ∅ acc ev Hrun n).
    set_solver. }
  split_and!.
  - exact Hreach.
  - intros Hclosed Hplain n. rewrite Hreach. by apply reaches_up_rtc.
  - intros fuel' Hfuel. eexists. split; [by apply ancestors_of_C_diamond|done].
Qed.

Lemma ancestors_closure_witness :
  ∃ acc ev,
    ancestors_of 3 "C" diamond = Some (acc, ev)
    ∧ (∀ n, n ∈ acc ↔ reaches_up diamond "C" n).
Proof.
  eexists _, _. split; [reflexivity|].
  exact (proj1 (ancestors_closure 3 "C" diamond _ _ eq_refl)).
Defined.

(** The diamond is not traversed once: whatever the depth allowed, a
    returning [ancestors_of(C)] has asked for the predecessors of A
    twice. *)
Lemma diamond_traversed_twice : ¬ diamond_traversed_once.
Proof.
  intros (fuel & ev & Hrun & Hnodup).
  destruct (decide (3 ≤ fuel)%nat) as [Hfuel|Hfuel].
  - rewrite (ancestors_of_C_diamond fuel Hfuel) in Hrun.
    injection Hrun as <-. simpl in Hnodup.
    apply NoDup_cons in Hnodup as [_ Hnodup].
    apply NoDup_cons in Hnodup as [Hnotin _].
    apply Hnotin. right. left.
  - destruct fuel as [|[|[|fuel]]]; [done..|lia].
Qed.

(** C3, in the form that holds of the code.
    Neither traversal keeps a visited set. On every acyclic
    graph, diamonds included, each call returns, with the same result for
    any larger recursion depth, and what it accumulates is a set, so that
    a term reached along several paths is in the result once although it
    is traversed once per path (on the diamond, [descendants_of(A)] is
    [{B, C}] and asks for the successors of C twice). A call started inside
    a cycle of non-variant nodes does not return, whatever the depth. *)
Theorem closures_unguarded (graph : AGraph) (t : string) :
  (acyclic graph →
     (∃ fuel acc ev, ∀ fuel', (fuel ≤ fuel')%nat →
        ancestors_of fuel' t graph = Some (acc, ev))
     ∧ (∃ fuel acc ev, ∀ fuel', (fuel ≤ fuel')%nat →
        descendants_of fuel' t graph = Some (acc, ev)))
  ∧ (∀ trap, trapped_up graph trap → t ∈ trap →
       ∀ fuel, ancestors_of fuel t graph = None)
  ∧ (∀ trap, trapped_down graph trap → t ∈ trap →
       ∀ fuel, descendants_of fuel t graph = None)
  ∧ (∃ ev, descendants_of 3 "A" diamond = Some ({["B"; "C"]}, ev)
           ∧ asked_successors ev = ["A"; "B"; "C"; "C"]).
Proof.
  split_and!.
  - intros Hacyc. split.
    + destruct (list_ancestors_Acc graph t (acyclic_Acc_up graph t Hacyc) ∅)
        as (fuel & [acc ev] & Hrun).
      exists fuel, acc, ev. intros fuel' Hle.
      by apply (list_ancestors_mono graph fuel fuel').
    + destruct (list_descendants_Acc graph t (acyclic_Acc_down graph t Hacyc) ∅)
        as (fuel & [acc ev] & Hrun).
      exists fuel, acc, ev. intros fuel' Hle.
      by apply (list_descendants_mono graph fuel fuel').
  - intros trap Htrap Ht fuel. by apply (list_ancestors_trapped graph trap).
  - intros trap Htrap Ht fuel. by apply (list_descendants_trapped graph trap).
  - eexists. split; [by apply descendants_of_A_diamond|done].
Qed.

Lemma closures_unguarded_witness :
  acyclic diamond
  ∧ (∃ fuel acc ev, ∀ fuel', (fuel ≤ fuel')%nat →
       ancestors_of fuel' "C" diamond = Some (acc, ev))
  ∧ trapped_up triangle ["A"; "B"; "C"]
  ∧ (∀ fuel, ancestors_of fuel "A" triangle = None)
  ∧ trapped_down triangle ["A"; "B"; "C"]
  ∧ (∀ fuel, descendants_of fuel "A" triangle = None).
Proof.
  split_and!.
  - exact diamond_acyclic.
  - exact (proj1 (proj1 (closures_unguarded diamond "C") diamond_acyclic)).
  - exact triangle_trapped_up.
  - refine (proj1 (proj2 (closures_unguarded triangle "A")) _ triangle_trapped_up _).
    by_evaluation.
  - exact triangle_trapped_down.
  - refine (proj1 (proj2 (proj2 (closures_unguarded triangle "A")))
              _ triangle_trapped_down _).
    by_evaluation.
Defined.

(** On the triangle A → B → C → A no call started at A returns. *)
Lemma closures_not_guarded : ¬ closures_guarded.
Proof.
  intros Hguard.
  destruct (Hguard triangle "A") as [(fuel & acc & ev & Hrun & _) _].
  unfold ancestors_of in Hrun.
  rewrite (list_ancestors_trapped triangle _ triangle_trapped_up) in Hrun;
    [done|by_evaluation].
Qed.

(** C9, in the form that holds of the code.
    On a graph that does not hold the queried term neither
    traversal raises: [ancestors_of] returns the singleton of the term and
    [descendants_of] returns no descendant. Each prints its diagnostic
    after the failed lookup, except for a cell-culture or organoid
    variant, which returns before any lookup and prints nothing. *)
Theorem missing_term_degrades (graph : AGraph) (t : string) (fuel : nat) :
  t ∉ nodes graph →
  ancestors_of (S fuel) t graph
  = Some ({[t]},
          if is_cell_culture_or_organoid t then []
          else [AskPredecessors t;
                Printed (t +:+
                  " not found - either add a parent to this entity or add this entity to the orphans list.")])
  ∧ descendants_of (S fuel) t graph
    = Some (∅,
            if is_cell_culture_or_organoid t then []
            else [AskSuccessors t;
                  Printed (t +:+ " not found - please investigate.")]).
Proof.
  intros Hnode. unfold ancestors_of, descendants_of.
  rewrite list_ancestors_S, list_descendants_S.
  rewrite (proj2 (predecessors_None graph t) Hnode).
  rewrite (proj2 (successors_None graph t) Hnode).
  rewrite !union_empty_l_L.
  by destruct (is_cell_culture_or_organoid t).
Qed.

Lemma missing_term_degrades_witness :
  ("UNKNOWN_0000001" ∉ nodes diamond)
  ∧ ancestors_of 1 "UNKNOWN_0000001" diamond
    = Some ({["UNKNOWN_0000001"]},
            [AskPredecessors "UNKNOWN_0000001";
             Printed "UNKNOWN_0000001 not found - either add a parent to this entity or add this entity to the orphans list."]).
Proof.
  assert ("UNKNOWN_0000001" ∉ nodes diamond) as H by by_evaluation.
  split; [exact H|].
  exact (proj1 (missing_term_degrades diamond "UNKNOWN_0000001" 0 H)).
Defined.

(** An organoid variant that is not in the graph is returned without any
    diagnostic. *)
Lemma missing_variant_not_diagnosed : ¬ missing_term_diagnosed.
Proof.
  intros Hdiag.
  destruct (Hdiag empty_graph "X_1 (organoid)") as [(fuel & ev & Hrun & Hprinted) _].
  { by_evaluation. }
  destruct fuel as [|fuel]; [done|].
  unfold ancestors_of in Hrun. rewrite list_ancestors_S in Hrun.
  change (is_cell_culture_or_organoid "X_1 (organoid)") with true in Hrun.
  injection Hrun as <-. by apply Hprinted.
Qed.

(** ** Loops that may raise *)

Section LoopsR.

Context {A S : Type}.
Implicit Types (body : A → S → option (result S * list event)) (xs : list A) (st : S).

Lemma for_each_r_cons body x xs st :
  for_each_r body (x :: xs) st =
  match body x st with
  | None => None
  | Some (Raise e, ev1) => Some (Raise e, ev1)
  | Some (Ok st1, ev1) =>
      match for_each_r body xs st1 with
      | None => None
      | Some (r, ev2) => Some (r, ev1 ++ ev2)
      end
  end.
Proof. done. Qed.

(** A loop that ends normally has run every iteration normally. *)
Lemma for_each_r_Ok_cons body x xs st st2 ev :
  for_each_r body (x :: xs) st = Some (Ok st2, ev) ↔
  ∃ st1 ev1 ev2,
    body x st = Some (Ok st1, ev1)
    ∧ for_each_r body xs st1 = Some (Ok st2, ev2)
    ∧ ev = ev1 ++ ev2.
Proof.
  rewrite for_each_r_cons. split.
  - destruct (body x st) as [[[st1|e] ev1]|]; [|done..].
    destruct (for_each_r body xs st1) as [[r ev2]|] eqn:Hxs; [|done].
    intros [= -> <-]. by exists st1, ev1, ev2.
  - intros (st1 & ev1 & ev2 & -> & -> & ->). done.
Qed.

(** An invariant of the state that every normal iteration keeps holds
    when the loop ends normally. *)
Lemma for_each_r_invariant body (I : S → Prop) xs st st' ev :
  (∀ x st st1 ev1, x ∈ xs → I st → body x st = Some (Ok st1, ev1) → I st1) →
  I st → for_each_r body xs st = Some (Ok st', ev) → I st'.
Proof.
  revert st ev. induction xs as [|x xs IH]; intros st ev Hstep Hst.
  - by intros [= <- _].
  - intros (st1 & ev1 & ev2 & Hx & Hxs & _)%for_each_r_Ok_cons.
    eapply (IH st1 ev2); [|by eapply Hstep; [left|..]|done].
    intros y ?????. eapply Hstep; [by right|done..].
Qed.

End LoopsR.

Section ResultMap.

Context {A B : Type}.
Implicit Types (f : A → result B) (xs : list A).

Lemma result_map_Ok f xs ys :
  result_map f xs = Ok ys ↔ Forall2 (λ x y, f x = Ok y) xs ys.
Proof.
  revert ys. induction xs as [|x xs IH]; intros ys; simpl.
  - split; [intros [= <-]; constructor|by intros ->%Forall2_nil_inv_l].
  - destruct (f x) as [y|e] eqn:Hx; simpl.
    + destruct (result_map f xs) as [ys'|e] eqn:Hxs; simpl.
      * split.
        -- intros [= <-]. constructor; [done|]. by apply IH.
        -- intros (y' & ys'' & Hy & Hys & ->)%Forall2_cons_inv_l.
           apply IH in Hys. congruence.
      * split; [done|].
        intros (y' & ys'' & Hy & Hys & ->)%Forall2_cons_inv_l.
        by apply IH in Hys.
    + split; [done|].
      intros (y' & ys'' & Hy & Hys & ->)%Forall2_cons_inv_l. congruence.
Qed.

Lemma result_map_raises f xs :
  raises (result_map f xs) ↔ ∃ x, x ∈ xs ∧ raises (f x).
Proof.
  unfold raises. induction xs as [|x xs IH]; simpl.
  - split; [by intros [e ?]|]. intros (x & Hx & _). by apply elem_of_nil in Hx.
  - destruct (f x) as [y|e] eqn:Hx; simpl.
    + destruct (result_map f xs) as [ys'|e] eqn:Hxs; simpl.
      * split; [by intros [e ?]|].
        intros (x' & [->|Hx']%elem_of_cons & [e He]); [congruence|].
        destruct (proj2 IH) as [e' ?]; [|done]. exists x'. split; [done|by exists e].
      * split; [|by exists e]. intros _.
        destruct (proj1 IH) as (x' & Hx' & He); [by exists e|].
        exists x'. split; [by right|done].
    + split; [|by exists e]. intros _. exists x. split; [left|].
      rewrite Hx. by exists e.
Qed.

End ResultMap.

(** ** The ancestor mapping *)

Section AncestorMapping.

Variables (fuel : nat) (graph : AGraph).

Implicit Types (m : gmap string (list string)) (n k a : string).

Lemma key_ancestors_entry_inv n m r ev :
  key_ancestors_entry fuel graph n m = Some (r, ev) →
  ∃ acc,
    list_ancestors fuel n graph ∅ = Some (acc, ev)
    ∧ r = result_bind (to_writable n) (λ k,
          result_bind (result_map to_writable (elements acc)) (λ v,
          Ok (<[k := v]> m))).
Proof.
  unfold key_ancestors_entry.
  destruct (list_ancestors fuel n graph ∅) as [[acc ev']|]; [|done].
  intros [= <- <-]. by exists acc.
Qed.

Lemma list_ancestors_self n acc ev :
  list_ancestors fuel n graph ∅ = Some (acc, ev) → n ∈ acc.
Proof.
  intros H. apply (list_ancestors_reaches graph fuel n ∅ acc ev H).
  right. constructor.
Qed.

(** A normal end: every name and every ancestor was converted, and the
    keys are those of the dictionary at the start and of the names. *)
Lemma key_ancestors_loop_Ok names m0 m ev :
  for_each_r (key_ancestors_entry fuel graph) names m0 = Some (Ok m, ev) →
  (∀ n, n ∈ names →
     ∃ acc ev' k v,
       list_ancestors fuel n graph ∅ = Some (acc, ev')
       ∧ to_writable n = Ok k
       ∧ result_map to_writable (elements acc) = Ok v)
  ∧ (∀ k, is_Some (m !! k) ↔
          is_Some (m0 !! k) ∨ ∃ n, n ∈ names ∧ to_writable n = Ok k).
Proof.
  revert m0 ev. induction names as [|x names IH]; intros m0 ev.
  - intros [= <- _]. split; [by intros n ?%elem_of_nil|].
    intros k. split; [by left|]. intros [?|(n & ?%elem_of_nil & _)]; done.
  - intros (m1 & ev1 & ev2 & Hx & Hrest & _)%for_each_r_Ok_cons.
    apply key_ancestors_entry_inv in Hx as (acc & Hacc & Hr).
    destruct (to_writable x) as [kx|] eqn:Hkx; [|done]. simpl in Hr.
    destruct (result_map to_writable (elements acc)) as [vx|] eqn:Hvx; [|done].
    injection Hr as ->.
    destruct (IH _ _ Hrest) as [IHall IHdom]. split.
    + intros n [->|Hn]%elem_of_cons; [|by apply IHall].
      by exists acc, ev1, kx, vx.
    + intros k. rewrite IHdom, lookup_insert_is_Some. split.
      * intros [[<-|[_ ?]]|(n & Hn & ?)].
        -- right. exists x. split; [left|done].
        -- by left.
        -- right. exists n. split; [by right|done].
      * intros [?|(n & [->|Hn]%elem_of_cons & Hk)].
        -- left. destruct (decide (kx = k)); [by left|by right].
        -- left; left. congruence.
        -- right. by exists n.
Qed.

(** An exception comes from the conversion of a name or of one of its
    ancestors. *)
Lemma key_ancestors_loop_Raise names m0 e ev :
  for_each_r (key_ancestors_entry fuel graph) names m0 = Some (Raise e, ev) →
  ∃ n acc ev' a,
    n ∈ names ∧ list_ancestors fuel n graph ∅ = Some (acc, ev')
    ∧ a ∈ acc ∧ raises (to_writable a).
Proof.
  revert m0 ev. induction names as [|x names IH]; intros m0 ev; [done|].
  rewrite for_each_r_cons.
  destruct (key_ancestors_entry fuel graph x m0) as [[[m1|e1] ev1]|] eqn:Hx;
    [| |done].
  - destruct (for_each_r _ names m1) as [[r ev2]|] eqn:Hrest; [|done].
    intros [= -> _]. destruct (IH _ _ Hrest) as (n & acc & ev' & a & Hn & ?).
    exists n, acc, ev', a. split; [by right|done].
  - intros _. apply key_ancestors_entry_inv in Hx as (acc & Hacc & Hr).
    exists x, acc, ev1. destruct (to_writable x) as [kx|ex] eqn:Hkx.
    + simpl in Hr.
      destruct (result_map to_writable (elements acc)) as [vx|ev'] eqn:Hvx; [done|].
      destruct (proj1 (result_map_raises to_writable (elements acc)))
        as (a & Ha & Hbad); [rewrite Hvx; by eexists|].
      exists a. split_and!; [left|done|by apply elem_of_elements|done].
    + exists x. split_and!; [left|done|by eapply list_ancestors_self|].
      rewrite Hkx. by eexists.
Qed.

End AncestorMapping.

(** C6, in the form that holds of the code.
    A [ValueError] raised while converting an identifier is
    not caught inside [key_ancestors_by_entity]: it ends the whole
    computation, which then returns no mapping at all. The call raises
    exactly when some production term reached by the loop, or one of its
    ancestors, cannot be converted, so one malformed production term is
    enough; when the call returns a mapping, every production term was
    converted and the keys of the mapping are exactly their writable
    forms. *)
Theorem ancestor_mapping_aborts (fuel : nat) (entity_names : list string)
    (graph : AGraph) (r : result (gmap string (list string))) (ev : list event) :
  key_ancestors_by_entity fuel entity_names graph = Some (r, ev) →
  (raises r ↔
     ∃ n acc ev' a,
       n ∈ entity_names ∧ ancestors_of fuel n graph = Some (acc, ev')
       ∧ a ∈ acc ∧ raises (to_writable a))
  ∧ (∀ bad, bad ∈ entity_names → raises (to_writable bad) → raises r)
  ∧ (∀ m, r = Ok m →
       ∀ k, is_Some (m !! k) ↔ ∃ n, n ∈ entity_names ∧ to_writable n = Ok k).
Proof.
  unfold key_ancestors_by_entity, ancestors_of. intros Hrun.
  destruct r as [m|e].
  - destruct (key_ancestors_loop_Ok fuel graph _ _ _ _ Hrun) as [Hall Hdom].
    split_and!.
    + split; [by intros [e ?]|].
      intros (n & acc & ev' & a & Hn & Hacc & Ha & [e Hbad]).
      destruct (Hall n Hn) as (acc' & ev'' & k & v & Hacc' & _ & Hv).
      assert (acc' = acc) as -> by congruence.
      assert (raises (result_map to_writable (elements acc))) as [e' He'].
      { apply result_map_raises. exists a.
        split; [by apply elem_of_elements|by exists e]. }
      congruence.
    + intros bad Hbad [e He].
      destruct (Hall bad Hbad) as (_ & _ & k & _ & _ & Hk & _). congruence.
    + intros m' [= <-] k. rewrite Hdom, lookup_empty.
      split; [intros [[? [=]]|?]; done|by right].
  - split_and!.
    + split; [intros _|by exists e].
      by apply (key_ancestors_loop_Raise fuel graph _ _ _ _ Hrun).
    + intros _ _ _. by exists e.
    + done.
Qed.

Lemma ancestor_mapping_aborts_witness :
  ∃ r ev,
    key_ancestors_by_entity 3 ["T_C"; "bad"; "T_B"] tier_diamond = Some (r, ev)
    ∧ raises r.
Proof.
  eexists _, _. split; [reflexivity|].
  refine (proj1 (proj2 (ancestor_mapping_aborts 3 ["T_C"; "bad"; "T_B"] tier_diamond
                          _ _ eq_refl)) "bad" _ _).
  - by_evaluation.
  - eexists. reflexivity.
Defined.

(** One malformed production term and the other terms get no entry
    either: the call raises. *)
Lemma codec_error_not_contained : ¬ codec_error_contained.
Proof.
  intros Hcontained.
  destruct (Hcontained 3 ["T_C"; "bad"] tier_diamond
              (Raise (ValueError
                 "bad is an invalid ontology term id, it must contain exactly one '_'"))
              [AskPredecessors "T_C"; AskPredecessors "T_A";
               AskPredecessors "T_B"; AskPredecessors "T_A";
               AskPredecessors "bad";
               Printed "bad not found - either add a parent to this entity or add this entity to the orphans list."])
    as (m & Hm & _); [reflexivity|done].
Qed.

(** ** The organoid index and the kept list *)

Section OrganoidIndex.

Implicit Types (accept : list string) (v s d x t : string).

Lemma key_organoids_snoc accept v :
  key_organoids_by_ontology_term_id (accept ++ [v]) =
  if is_organoid v
  then <[organoid_stem v := v]> (key_organoids_by_ontology_term_id accept)
  else key_organoids_by_ontology_term_id accept.
Proof. unfold key_organoids_by_ontology_term_id. by rewrite foldl_app. Qed.

(** Every entry of the index is an organoid variant of the list, filed
    under its stem. *)
Lemma key_organoids_sound accept s v :
  key_organoids_by_ontology_term_id accept !! s = Some v →
  v ∈ accept ∧ is_organoid v = true ∧ organoid_stem v = s.
Proof.
  induction accept as [|w accept IH] using rev_ind; [done|].
  rewrite key_organoids_snoc, elem_of_app, list_elem_of_singleton.
  destruct (is_organoid w) eqn:Hw; [|naive_solver].
  destruct (decide (organoid_stem w = s)) as [<-|Hne].
  - rewrite lookup_insert_eq. intros [= <-]. eauto.
  - rewrite lookup_insert_ne by done. naive_solver.
Qed.

(** The stem of every organoid variant of the list is a key. *)
Lemma key_organoids_complete accept v :
  v ∈ accept → is_organoid v = true →
  is_Some (key_organoids_by_ontology_term_id accept !! organoid_stem v).
Proof.
  induction accept as [|w accept IH] using rev_ind; [by intros ?%elem_of_nil|].
  rewrite key_organoids_snoc, elem_of_app, list_elem_of_singleton.
  intros [Hv| ->] Horg.
  - destruct (is_organoid w); [|by apply IH].
    apply lookup_insert_is_Some.
    destruct (decide (organoid_stem w = organoid_stem v)); [by left|right].
    split; [done|by apply IH].
  - rewrite Horg, lookup_insert_eq. by eexists.
Qed.

(** The only variant of its stem is the one the index gives. *)
Lemma key_organoids_unique accept v :
  v ∈ accept → is_organoid v = true →
  (∀ v', v' ∈ accept → is_organoid v' = true →
         organoid_stem v' = organoid_stem v → v' = v) →
  key_organoids_by_ontology_term_id accept !! organoid_stem v = Some v.
Proof.
  intros Hv Horg Huniq.
  destruct (key_organoids_complete accept v Hv Horg) as [v' Hv'].
  destruct (key_organoids_sound accept _ _ Hv') as (? & ? & ?).
  rewrite Hv'. f_equal. by apply Huniq.
Qed.

(** Nothing that is not an organoid variant is in the index: cell-culture
    variants are left out. *)
Lemma key_organoids_no_cell_culture accept s v :
  is_organoid v = false →
  key_organoids_by_ontology_term_id accept !! s ≠ Some v.
Proof.
  intros Hv Hs. apply key_organoids_sound in Hs as (_ & ? & _). congruence.
Qed.

Lemma accept_descendant_elem accept (index : gmap string string)
    (kept : list string) d x :
  x ∈ accept_descendant accept index kept d ↔
  x ∈ kept ∨ (x = d ∧ d ∈ accept) ∨ index !! d = Some x.
Proof.
  unfold accept_descendant.
  destruct (index !! d) as [o|]; case_bool_decide as Hacc;
    rewrite ?elem_of_app, ?list_elem_of_singleton; split.
  all: try (intros [[?| ->]| ->]); try (intros [?| ->]);
    try (intros [?|[[-> ?]|[= ->]]]); try (intros [?|[[-> ?]|[=]]]); eauto.
  all: tauto.
Qed.

Lemma descendant_accept_list_elem (ds : list string) accept
    (index : gmap string string) t x :
  x ∈ descendant_accept_list ds accept index t ↔
  (x ∈ ds ∧ x ∈ accept) ∨ ∃ d, (d ∈ ds ∨ d = t) ∧ index !! d = Some x.
Proof.
  unfold descendant_accept_list.
  assert (∀ kept0, x ∈ foldl (accept_descendant accept index) kept0 ds ↔
            x ∈ kept0 ∨ (x ∈ ds ∧ x ∈ accept) ∨ ∃ d, d ∈ ds ∧ index !! d = Some x)
    as Hloop.
  { induction ds as [|d ds IH]; intros kept0; simpl.
    - split; [by left|]. intros [?|[[?%elem_of_nil _]|(d & ?%elem_of_nil & _)]]; done.
    - rewrite IH, accept_descendant_elem. split.
      + intros [[?|[[-> ?]|?]]|[[? ?]|(d' & ? & ?)]].
        * by left.
        * right; left. split; [left|done].
        * right; right. exists d. split; [left|done].
        * right; left. split; [by right|done].
        * right; right. exists d'. split; [by right|done].
      + intros [?|[[[->|?]%elem_of_cons ?]|(d' & [->|?]%elem_of_cons & ?)]].
        * by left; left.
        * left; right; left. done.
        * right; left. done.
        * left; right; right. done.
        * right; right. by exists d'. }
  assert (x ∈ foldl (accept_descendant accept index) [] ds ↔
            (x ∈ ds ∧ x ∈ accept) ∨ ∃ d, d ∈ ds ∧ index !! d = Some x) as Hkept.
  { rewrite Hloop. split; [intros [?%elem_of_nil|?]; done|by right]. }
  destruct (index !! t) as [o|] eqn:Ht.
  - rewrite elem_of_app, list_elem_of_singleton, Hkept. split.
    + intros [[?|(d & ? & ?)]| ->]; [by left|right..].
      * exists d. eauto.
      * exists t. eauto.
    + intros [?|(d & [?| ->] & ?)]; [by left; left|left; right; by exists d|].
      right. congruence.
  - rewrite Hkept. split.
    + intros [?|(d & ? & ?)]; [by left|right]. exists d. eauto.
    + intros [?|(d & [?| ->] & ?)]; [by left|right; by exists d|congruence].
Qed.

End OrganoidIndex.

(** ** The tier filter *)

Section TierFilter.

Variables (fuel : nat) (graph : AGraph).

Implicit Types (m : gmap string (list string)) (t k : string)
  (tier accept : list string) (index : gmap string string).

Lemma write_descendants_entry_inv accept index t m r ev :
  write_descendants_entry fuel graph accept index t m = Some (r, ev) →
  ∃ D,
    list_descendants fuel t graph ∅ = Some (D, ev)
    ∧ r = if bool_decide (descendant_accept_list (elements D) accept index t = [])
          then Ok m
          else result_bind (to_writable t) (λ k,
               result_bind
                 (result_map to_writable
                    (descendant_accept_list (elements D) accept index t)) (λ v,
               Ok (<[k := v]> m))).
Proof.
  unfold write_descendants_entry.
  destruct (list_descendants fuel t graph ∅) as [[D ev']|]; [|done].
  intros Hr. exists D. by case_bool_decide; injection Hr as <- <-.
Qed.

(** One normal iteration: the dictionary is left as it is when the kept
    list is empty, and gets the entry of the term otherwise. *)
Lemma write_descendants_entry_Ok accept index t m m' ev :
  write_descendants_entry fuel graph accept index t m = Some (Ok m', ev) →
  ∃ D,
    list_descendants fuel t graph ∅ = Some (D, ev)
    ∧ ((descendant_accept_list (elements D) accept index t = [] ∧ m' = m)
       ∨ (descendant_accept_list (elements D) accept index t ≠ []
          ∧ ∃ k v, to_writable t = Ok k
                   ∧ result_map to_writable
                       (descendant_accept_list (elements D) accept index t) = Ok v
                   ∧ m' = <[k := v]> m)).
Proof.
  intros (D & HD & Hr)%write_descendants_entry_inv. exists D. split; [done|].
  case_bool_decide as Hkept.
  - left. by injection Hr as ->.
  - right. split; [done|].
    destruct (to_writable t) as [k|]; [|done]. simpl in Hr.
    destruct (result_map to_writable _) as [v|]; [|done].
    injection Hr as ->. by exists k, v.
Qed.

(** *** One tier *)

Section OneTier.

Variables (accept : list string) (index : gmap string string).

Lemma tier_loop_sound tier m0 m ev :
  for_each_r (write_descendants_entry fuel graph accept index) tier m0 = Some (Ok m, ev) →
  ∀ k l, m !! k = Some l →
    m0 !! k = Some l
    ∨ ∃ t D ev',
        t ∈ tier ∧ list_descendants fuel t graph ∅ = Some (D, ev')
        ∧ descendant_accept_list (elements D) accept index t ≠ [] ∧ to_writable t = Ok k
        ∧ result_map to_writable (descendant_accept_list (elements D) accept index t) = Ok l.
Proof.
  revert m0 ev. induction tier as [|x tier IH]; intros m0 ev.
  - intros [= <- _] k l ?. by left.
  - intros (m1 & ev1 & ev2 & Hx & Hrest & _)%for_each_r_Ok_cons k l Hk.
    destruct (IH _ _ Hrest k l Hk) as [Hm1|(t & D & ev' & Ht & ?)].
    + apply write_descendants_entry_Ok in Hx
        as (D & HD & [[_ ->]|(Hne & kx & vx & Hkx & Hvx & ->)]); [by left|].
      destruct (decide (kx = k)) as [->|Hkne].
      * rewrite lookup_insert_eq in Hm1. injection Hm1 as ->.
        right. exists x, D, ev1. split; [left|done].
      * rewrite lookup_insert_ne in Hm1 by done. by left.
    + right. exists t, D, ev'. split; [by right|done].
Qed.

Lemma tier_loop_grows tier m0 m ev k :
  for_each_r (write_descendants_entry fuel graph accept index) tier m0 = Some (Ok m, ev) →
  is_Some (m0 !! k) → is_Some (m !! k).
Proof.
  intros Hrun Hm0.
  apply (for_each_r_invariant (write_descendants_entry fuel graph accept index) (λ m, is_Some (m !! k)) tier m0 m ev);
    [|done..].
  intros x m1 m2 ev1 _ Hm1
    (D & _ & [[_ ->]|(_ & kx & vx & _ & _ & ->)])%write_descendants_entry_Ok;
    [done|].
  apply lookup_insert_is_Some. destruct (decide (kx = k)); [by left|by right].
Qed.

Lemma tier_loop_complete tier m0 m ev t D ev' :
  for_each_r (write_descendants_entry fuel graph accept index) tier m0 = Some (Ok m, ev) →
  t ∈ tier → list_descendants fuel t graph ∅ = Some (D, ev') → descendant_accept_list (elements D) accept index t ≠ [] →
  ∃ k, to_writable t = Ok k ∧ is_Some (m !! k).
Proof.
  revert m0 ev. induction tier as [|x tier IH]; intros m0 ev Hrun Ht HD Hkept.
  { by apply elem_of_nil in Ht. }
  apply for_each_r_Ok_cons in Hrun as (m1 & ev1 & ev2 & Hx & Hrest & _).
  apply elem_of_cons in Ht as [->|Ht]; [|by eapply IH].
  apply write_descendants_entry_Ok in Hx
    as (D' & HD' & [[Hnil _]|(_ & kx & vx & Hkx & _ & ->)]).
  - assert (D' = D) as -> by congruence. done.
  - exists kx. split; [done|].
    apply (tier_loop_grows tier _ m ev2 kx Hrest). rewrite lookup_insert_eq. by eexists.
Qed.

(** A key that no term of the tier converts to keeps its entry. *)
Lemma tier_loop_untouched tier m0 m ev k :
  for_each_r (write_descendants_entry fuel graph accept index) tier m0 = Some (Ok m, ev) →
  (∀ t, t ∈ tier → to_writable t ≠ Ok k) →
  m !! k = m0 !! k.
Proof.
  intros Hrun Hother.
  apply (for_each_r_invariant (write_descendants_entry fuel graph accept index) (λ m, m !! k = m0 !! k) tier m0 m ev);
    [|done..].
  intros x m1 m2 ev1 Hx Hm1
    (D & _ & [[_ ->]|(_ & kx & vx & Hkx & _ & ->)])%write_descendants_entry_Ok;
    [done|].
  rewrite lookup_insert_ne; [done|]. intros ->. by apply (Hother x).
Qed.

(** The entry of a term that alone in its tier converts to its key is the
    one that the tier leaves under that key. *)
Lemma tier_loop_last tier m0 m ev t D ev' k l :
  for_each_r (write_descendants_entry fuel graph accept index) tier m0 = Some (Ok m, ev) →
  list_descendants fuel t graph ∅ = Some (D, ev') → descendant_accept_list (elements D) accept index t ≠ [] →
  to_writable t = Ok k → result_map to_writable (descendant_accept_list (elements D) accept index t) = Ok l →
  (∀ t', t' ∈ tier → to_writable t' = Ok k → t' = t) →
  t ∈ tier ∨ m0 !! k = Some l →
  m !! k = Some l.
Proof.
  intros Hrun HD Hkept Hk Hl. revert m0 ev Hrun.
  induction tier as [|x tier IH]; intros m0 ev Hrun Halone Hstart.
  { injection Hrun as <- _. by destruct Hstart as [?%elem_of_nil|?]. }
  apply for_each_r_Ok_cons in Hrun as (m1 & ev1 & ev2 & Hx & Hrest & _).
  apply (IH m1 ev2 Hrest); [intros t' Ht'; apply Halone; by right|].
  apply write_descendants_entry_Ok in Hx
    as (D' & HD' & [[Hnil ->]|(_ & kx & vx & Hkx & Hvx & ->)]).
  - destruct Hstart as [[->|Ht]%elem_of_cons|Hm0]; [|by left|by right].
    assert (D' = D) as -> by congruence. done.
  - destruct (decide (x = t)) as [->|Hxt].
    + right. assert (D' = D) as -> by congruence.
      assert (kx = k) as -> by congruence.
      assert (vx = l) as -> by congruence.
      apply lookup_insert_eq.
    + destruct Hstart as [[->|Ht]%elem_of_cons|Hm0]; [done|by left|right].
      rewrite lookup_insert_ne; [done|]. intros ->.
      apply Hxt, Halone; [left|done].
Qed.

(** In a tier whose round ends normally every term with a kept list that
    is not empty was converted, and so was its kept list. *)
Lemma tier_loop_converted tier m0 m ev t D ev' :
  for_each_r (write_descendants_entry fuel graph accept index) tier m0 = Some (Ok m, ev) →
  t ∈ tier → list_descendants fuel t graph ∅ = Some (D, ev') → descendant_accept_list (elements D) accept index t ≠ [] →
  ∃ k l, to_writable t = Ok k ∧ result_map to_writable (descendant_accept_list (elements D) accept index t) = Ok l.
Proof.
  revert m0 ev. induction tier as [|x tier IH]; intros m0 ev Hrun Ht HD Hkept.
  { by apply elem_of_nil in Ht. }
  apply for_each_r_Ok_cons in Hrun as (m1 & ev1 & ev2 & Hx & Hrest & _).
  apply elem_of_cons in Ht as [->|Ht]; [|by eapply IH].
  apply write_descendants_entry_Ok in Hx
    as (D' & HD' & [[Hnil _]|(_ & kx & vx & Hkx & Hvx & _)]).
  - assert (D' = D) as -> by congruence. done.
  - assert (D' = D) as -> by congruence. by exists kx, vx.
Qed.

End OneTier.

(** *** All tiers *)

Lemma rounds_cons tier lower m0 :
  rounds fuel graph (tier :: lower) m0 =
  match
    if bool_decide (lower = []) then Some (Ok m0, [])
    else
      for_each_r
        (write_descendants_entry fuel graph (concat lower)
           (key_organoids_by_ontology_term_id (concat lower)))
        tier m0
  with
  | None => None
  | Some (Raise e, ev1) => Some (Raise e, ev1)
  | Some (Ok m1, ev1) =>
      match rounds fuel graph lower m1 with
      | None => None
      | Some (r, ev2) => Some (r, ev1 ++ ev2)
      end
  end.
Proof. done. Qed.

(** A normal end of the rounds: the round of the first tier ended
    normally, leaving the dictionary as it was if there is no lower tier,
    and so did the rounds of the lower tiers. *)
Lemma rounds_Ok_cons tier lower m0 m ev :
  rounds fuel graph (tier :: lower) m0 = Some (Ok m, ev) →
  ∃ m1 ev1 ev2,
    rounds fuel graph lower m1 = Some (Ok m, ev2)
    ∧ ((lower = [] ∧ m1 = m0)
       ∨ (lower ≠ []
          ∧ for_each_r
              (write_descendants_entry fuel graph (concat lower)
                 (key_organoids_by_ontology_term_id (concat lower)))
              tier m0 = Some (Ok m1, ev1))).
Proof.
  rewrite rounds_cons. case_bool_decide as Hlower.
  - destruct (rounds fuel graph lower m0) as [[r ev2]|] eqn:Hrest; [|done].
    intros [= -> _]. exists m0, [], ev2. split; [done|by left].
  - destruct (for_each_r _ tier m0) as [[[m1|e] ev1]|] eqn:Htier; [|done..].
    destruct (rounds fuel graph lower m1) as [[r ev2]|] eqn:Hrest; [|done].
    intros [= -> _]. exists m1, ev1, ev2. split; [done|by right].
Qed.

Lemma write_descendants_rounds_from (upper suffix : list (list string)) m0 :
  for_each_r (write_descendants_tier fuel (upper ++ suffix) graph)
    (imap (λ idx x, (length upper + idx, x)) suffix) m0
  = rounds fuel graph suffix m0.
Proof.
  revert upper m0. induction suffix as [|tier lower IH]; intros upper m0; [done|].
  rewrite imap_cons, for_each_r_cons, rounds_cons.
  unfold write_descendants_tier at 1.
  replace (drop (S (length upper + 0)) (upper ++ tier :: lower)) with lower.
  2:{ rewrite Nat.add_0_r, (cons_middle tier), (assoc (++)).
      rewrite drop_app_length'; [done|]. rewrite length_app. simpl. lia. }
  assert (∀ m1,
    for_each_r (write_descendants_tier fuel (upper ++ tier :: lower) graph)
      (imap ((λ idx x, (length upper + idx, x)) ∘ S) lower) m1
    = rounds fuel graph lower m1) as Hrest.
  { intros m1. rewrite <- (IH (upper ++ [tier]) m1).
    rewrite <- (assoc (++)). simpl. f_equal.
    apply imap_ext. intros i x _. simpl. rewrite length_app. simpl.
    f_equal. lia. }
  case_bool_decide; [by rewrite Hrest|].
  destruct (for_each_r _ tier m0) as [[[m1|e] ev1]|]; [|done..].
  by rewrite Hrest.
Qed.

(** The script's loop over [enumerate(entity_hierarchy)] is the recursion
    on the remaining tiers. *)
Lemma write_descendants_rounds (entity_hierarchy : list (list string)) :
  write_descendants_by_entity fuel entity_hierarchy graph
  = rounds fuel graph entity_hierarchy ∅.
Proof. apply (write_descendants_rounds_from [] entity_hierarchy ∅). Qed.

Lemma emitted_below tier tiers k l :
  emitted fuel graph tiers k l → emitted fuel graph (tier :: tiers) k l.
Proof.
  intros (upper & tier' & lower & t & D & ev & -> & ?).
  by exists (tier :: upper), tier', lower, t, D, ev.
Qed.

Lemma rounds_sound tiers m0 m ev k l :
  rounds fuel graph tiers m0 = Some (Ok m, ev) →
  m !! k = Some l → m0 !! k = Some l ∨ emitted fuel graph tiers k l.
Proof.
  revert m0 ev. induction tiers as [|tier lower IH]; intros m0 ev.
  - intros [= <- _] ?. by left.
  - intros (m1 & ev1 & ev2 & Hrest & Htier)%rounds_Ok_cons Hk.
    destruct (IH _ _ Hrest Hk) as [Hm1|?]; [|right; by apply emitted_below].
    destruct Htier as [[_ ->]|[Hlower Htier]]; [by left|].
    destruct (tier_loop_sound _ _ _ _ _ _ Htier k l Hm1)
      as [?|(t & D & ev' & ? & ? & ? & ? & ?)]; [by left|right].
    by exists [], tier, lower, t, D, ev'.
Qed.

Lemma rounds_grows tiers m0 m ev k :
  rounds fuel graph tiers m0 = Some (Ok m, ev) →
  is_Some (m0 !! k) → is_Some (m !! k).
Proof.
  revert m0 ev. induction tiers as [|tier lower IH]; intros m0 ev.
  - by intros [= <- _].
  - intros (m1 & ev1 & ev2 & Hrest & Htier)%rounds_Ok_cons Hk.
    apply (IH _ _ Hrest).
    destruct Htier as [[_ ->]|[_ Htier]]; [done|].
    by eapply tier_loop_grows.
Qed.

Lemma rounds_complete tiers m0 m ev upper tier lower t D ev' :
  rounds fuel graph tiers m0 = Some (Ok m, ev) →
  tiers = upper ++ tier :: lower → lower ≠ [] → t ∈ tier →
  list_descendants fuel t graph ∅ = Some (D, ev') →
  tier_kept D lower t ≠ [] →
  ∃ k, to_writable t = Ok k ∧ is_Some (m !! k).
Proof.
  intros Hrun -> Hlower Ht HD Hkept. revert m0 ev Hrun.
  induction upper as [|u upper IH]; intros m0 ev; simpl.
  - intros (m1 & ev1 & ev2 & Hrest & [[? _]|[_ Htier]])%rounds_Ok_cons; [done|].
    destruct (tier_loop_complete _ _ _ _ _ _ _ _ _ Htier Ht HD Hkept)
      as (k & Hk & Hm1).
    exists k. split; [done|]. by eapply rounds_grows.
  - intros (m1 & ev1 & ev2 & Hrest & _)%rounds_Ok_cons. by eapply IH.
Qed.

(** The rounds of the tiers above leave a dictionary from which the
    rounds of the tiers below end as the whole did. *)
Lemma rounds_upper upper tiers m0 m ev :
  rounds fuel graph (upper ++ tiers) m0 = Some (Ok m, ev) →
  ∃ m1 ev1, rounds fuel graph tiers m1 = Some (Ok m, ev1).
Proof.
  revert m0 ev. induction upper as [|u upper IH]; intros m0 ev; simpl.
  - intros ?. by exists m0, ev.
  - intros (m1 & ev1 & ev2 & Hrest & _)%rounds_Ok_cons. by eapply IH.
Qed.

(** Rounds in which no term converts to a key leave its entry alone; the
    last tier has no round. *)
Lemma rounds_untouched mid last m0 m ev k :
  rounds fuel graph (mid ++ [last]) m0 = Some (Ok m, ev) →
  (∀ t, t ∈ concat mid → to_writable t ≠ Ok k) →
  m !! k = m0 !! k.
Proof.
  revert m0 ev. induction mid as [|tier mid IH]; intros m0 ev; cbn [app].
  - intros (m1 & ev1 & ev2 & Hrest & [[_ ->]|[? _]])%rounds_Ok_cons _; [|done].
    by injection Hrest as <- _.
  - intros (m1 & ev1 & ev2 & Hrest & Htier)%rounds_Ok_cons Hother.
    cbn [concat] in Hother.
    rewrite (IH _ _ Hrest); [|intros t Ht; apply Hother, elem_of_app; by right].
    destruct Htier as [[_ ->]|[_ Htier]]; [done|].
    apply (tier_loop_untouched _ _ _ _ _ _ _ Htier).
    intros t Ht. apply Hother, elem_of_app. by left.
Qed.

End TierFilter.

Lemma result_map_Ok_elem {A B : Type} (f : A → result B) xs ys x :
  result_map f xs = Ok ys → x ∈ xs → ∃ y, f x = Ok y ∧ y ∈ ys.
Proof.
  rewrite result_map_Ok. intros H [i Hi]%list_elem_of_lookup_1.
  destruct (Forall2_lookup_l _ _ _ _ _ H Hi) as (y & Hy & ?).
  exists y. split; [done|by eapply list_elem_of_lookup_2].
Qed.

Lemma descendants_of_reaches (fuel : nat) (graph : AGraph) (t : string)
    (D : gset string) (ev : list event) :
  list_descendants fuel t graph ∅ = Some (D, ev) →
  ∀ x, x ∈ D ↔ reaches_down graph t x.
Proof.
  intros H x. rewrite (list_descendants_reaches graph fuel t ∅ D ev H x).
  set_solver.
Qed.

(** C5, in the form that holds of the code.
    The variant index of a round holds the organoid
    variants of the acceptable set and nothing else, cell-culture variants
    being left out: every entry maps the stem of an organoid variant of the
    set to that variant; the stem of every organoid variant of the set is a
    key, mapped to that very variant when no other variant of the set has
    the same stem. For every descendant of the tier term, and for the tier
    term itself, that is a key of the index, the variant it maps to is in
    the kept list, next to the descendant itself whenever the descendant is
    in the acceptable set, and its writable form is in the emitted list. *)
Theorem organoid_splice (accept_list : list string) :
  (∀ stem v,
     key_organoids_by_ontology_term_id accept_list !! stem = Some v →
     v ∈ accept_list ∧ is_organoid v = true ∧ organoid_stem v = stem)
  ∧ (∀ stem v, is_organoid v = false →
       key_organoids_by_ontology_term_id accept_list !! stem ≠ Some v)
  ∧ (∀ v, v ∈ accept_list → is_organoid v = true →
       is_Some (key_organoids_by_ontology_term_id accept_list !! organoid_stem v))
  ∧ (∀ v, v ∈ accept_list → is_organoid v = true →
       (∀ v', v' ∈ accept_list → is_organoid v' = true →
              organoid_stem v' = organoid_stem v → v' = v) →
       key_organoids_by_ontology_term_id accept_list !! organoid_stem v = Some v)
  ∧ (∀ (D : gset string) t d v,
       d ∈ D ∨ d = t →
       key_organoids_by_ontology_term_id accept_list !! d = Some v →
       v ∈ descendant_accept_list (elements D) accept_list
             (key_organoids_by_ontology_term_id accept_list) t
       ∧ (d ∈ D → d ∈ accept_list →
          d ∈ descendant_accept_list (elements D) accept_list
                (key_organoids_by_ontology_term_id accept_list) t))
  ∧ (∀ fuel graph t m m' ev d v,
       write_descendants_entry fuel graph accept_list
         (key_organoids_by_ontology_term_id accept_list) t m = Some (Ok m', ev) →
       reaches_down graph t d ∨ d = t →
       key_organoids_by_ontology_term_id accept_list !! d = Some v →
       ∃ k l w, to_writable t = Ok k ∧ m' !! k = Some l
                ∧ to_writable v = Ok w ∧ w ∈ l).
Proof.
  split_and!.
  - apply key_organoids_sound.
  - intros stem v. apply key_organoids_no_cell_culture.
  - apply key_organoids_complete.
  - apply key_organoids_unique.
  - intros D t d v Hd Hv. split.
    + apply descendant_accept_list_elem. right. exists d.
      split; [|done]. destruct Hd as [?| ->]; [left|by right].
      by apply elem_of_elements.
    + intros HdD Hacc. apply descendant_accept_list_elem. left.
      split; [by apply elem_of_elements|done].
  - intros fuel graph t m m' ev d v Hrun Hd Hv.
    apply write_descendants_entry_Ok in Hrun as (D & HD & Hcases).
    assert (v ∈ descendant_accept_list (elements D) accept_list
                  (key_organoids_by_ontology_term_id accept_list) t) as Hin.
    { apply descendant_accept_list_elem. right. exists d. split; [|done].
      destruct Hd as [Hd| ->]; [left|by right].
      by apply elem_of_elements, (descendants_of_reaches fuel graph t D ev). }
    destruct Hcases as [[Hnil _]|(_ & k & l & Hk & Hl & ->)].
    { rewrite Hnil in Hin. by apply elem_of_nil in Hin. }
    destruct (result_map_Ok_elem _ _ _ _ Hl Hin) as (w & Hw & Hwl).
    exists k, l, w. split_and!; [done|apply lookup_insert_eq|done..].
Qed.

Lemma organoid_splice_witness :
  ∃ k l,
    write_descendants_entry 3 tier_diamond ["T_C"; "T_C (organoid)"]
      (key_organoids_by_ontology_term_id ["T_C"; "T_C (organoid)"]) "T_A" ∅
    = Some (Ok (<["T:A" := ["T:C"; "T:C (organoid)"]]> ∅),
            [AskSuccessors "T_A"; AskSuccessors "T_B";
             AskSuccessors "T_C"; AskSuccessors "T_C"])
    ∧ (<["T:A" := ["T:C"; "T:C (organoid)"]]> ∅ : gmap string (list string)) !! k
      = Some l
    ∧ "T:C (organoid)" ∈ l.
Proof.
  assert (write_descendants_entry 3 tier_diamond ["T_C"; "T_C (organoid)"]
            (key_organoids_by_ontology_term_id ["T_C"; "T_C (organoid)"]) "T_A" ∅
          = Some (Ok (<["T:A" := ["T:C"; "T:C (organoid)"]]> ∅),
                  [AskSuccessors "T_A"; AskSuccessors "T_B";
                   AskSuccessors "T_C"; AskSuccessors "T_C"])) as Hrun
    by reflexivity.
  destruct (proj2 (proj2 (proj2 (proj2 (proj2
              (organoid_splice ["T_C"; "T_C (organoid)"])))))
              3 tier_diamond "T_A" ∅ _ _ "T_C" "T_C (organoid)" Hrun)
    as (k & l & w & Hk & Hl & Hw & Hin).
  - left. apply reaches_down_child; [reflexivity|by_evaluation..].
  - reflexivity.
  - exists k, l. split; [exact Hrun|]. split; [exact Hl|].
    injection Hw as <-. exact Hin.
Defined.

(** A cell-culture variant of the acceptable set is not filed under any
    stem. *)
Lemma cell_culture_not_indexed : ¬ variant_index_covers_variants.
Proof.
  intros Hcovers.
  destruct (Hcovers ["X_1 (cell culture)"] "X_1 (cell culture)") as [stem Hstem];
    [left|reflexivity|].
  by apply key_organoids_sound in Hstem as (_ & Horg & _).
Qed.

(** *** The round that has the last word, and the rounds that return *)

Section TierRounds.

Variables (fuel : nat) (graph : AGraph).

Implicit Types (m : gmap string (list string)) (t k : string)
  (tier accept : list string) (tiers upper mid : list (list string)).

(** The entry of a key is that of the last round in which a term converts
    to the key. *)
Lemma rounds_last upper tier mid last t D ev' m0 m ev :
  rounds fuel graph (upper ++ tier :: mid ++ [last]) m0 = Some (Ok m, ev) →
  t ∈ tier →
  list_descendants fuel t graph ∅ = Some (D, ev') →
  tier_kept D (mid ++ [last]) t ≠ [] →
  (∀ t', t' ∈ tier → to_writable t' = to_writable t → t' = t) →
  (∀ t', t' ∈ concat mid → to_writable t' ≠ to_writable t) →
  ∃ k l,
    to_writable t = Ok k
    ∧ result_map to_writable (tier_kept D (mid ++ [last]) t) = Ok l
    ∧ m !! k = Some l.
Proof.
  intros Hrun Ht HD Hkept Halone Hlater.
  apply rounds_upper in Hrun as (m1 & ev1 & Hrun).
  apply rounds_Ok_cons in Hrun as (m2 & ev2 & ev3 & Hrest & Htier).
  destruct Htier as [[Hnil _]|[_ Htier]]; [by destruct mid|].
  destruct (tier_loop_converted fuel graph _ _ _ _ _ _ t D ev' Htier Ht HD Hkept)
    as (k & l & Hk & Hl).
  exists k, l. split_and!; [done..|].
  rewrite (rounds_untouched fuel graph mid last m2 m ev3 k Hrest).
  - eapply (tier_loop_last fuel graph); [exact Htier|exact HD|done..| |by left].
    intros t' Ht' Hk'. apply Halone; [done|congruence].
  - intros t' Ht'. rewrite <- Hk. by apply Hlater.
Qed.

(** An entry is written when the traversal of the term returns and the
    names of the acceptable set and the term convert. *)
Lemma write_descendants_entry_returns accept t m r :
  list_descendants fuel t graph ∅ = Some r →
  count_char underscore t = 1 →
  (∀ x, x ∈ accept → count_char underscore x = 1) →
  ∃ m' ev,
    write_descendants_entry fuel graph accept
      (key_organoids_by_ontology_term_id accept) t m = Some (Ok m', ev).
Proof.
  intros Hr Ht Haccept. unfold write_descendants_entry. rewrite Hr.
  destruct r as [D ev]. case_bool_decide as Hkept; [by eexists _, _|].
  fold (to_writable t).
  destruct (to_writable t) as [k|e] eqn:Hk.
  - cbn [result_bind].
    destruct (result_map _ _) as [v|e] eqn:Hv; [by eexists _, _|].
    assert (raises (result_map to_writable
              (descendant_accept_list (elements D) accept
                 (key_organoids_by_ontology_term_id accept) t))) as Hbad.
    { exists e. exact Hv. }
    apply result_map_raises in Hbad as (x & Hx & Hbad).
    apply to_writable_raises in Hbad. destruct Hbad. apply Haccept.
    apply descendant_accept_list_elem in Hx as [[_ ?]|(d & _ & Hd)]; [done|].
    by apply key_organoids_sound in Hd as (? & _).
  - assert (raises (to_writable t)) as Hbad by by exists e.
    by apply to_writable_raises in Hbad.
Qed.

Lemma tier_loop_returns accept tier m0 :
  (∀ t, t ∈ tier → ∃ r, list_descendants fuel t graph ∅ = Some r) →
  (∀ t, t ∈ tier → count_char underscore t = 1) →
  (∀ x, x ∈ accept → count_char underscore x = 1) →
  ∃ m ev,
    for_each_r
      (write_descendants_entry fuel graph accept
         (key_organoids_by_ontology_term_id accept)) tier m0 = Some (Ok m, ev).
Proof.
  intros Hreturn Htier Haccept. revert m0.
  induction tier as [|t tier IH]; intros m0; [by eexists _, _|].
  rewrite for_each_r_cons.
  destruct (Hreturn t) as [r Hr]; [left|].
  destruct (write_descendants_entry_returns accept t m0 r Hr) as (m1 & ev1 & ->);
    [apply Htier; left|done|].
  destruct (IH) with (m0 := m1) as (m2 & ev2 & ->).
  - intros t' ?. apply Hreturn. by right.
  - intros t' ?. apply Htier. by right.
  - by eexists _, _.
Qed.

Lemma rounds_return tiers m0 :
  (∀ t, t ∈ concat tiers → ∃ r, list_descendants fuel t graph ∅ = Some r) →
  (∀ t, t ∈ concat tiers → count_char underscore t = 1) →
  ∃ m ev, rounds fuel graph tiers m0 = Some (Ok m, ev).
Proof.
  revert m0. induction tiers as [|tier lower IH]; intros m0 Hreturn Hnames.
  { by eexists _, _. }
  cbn [concat] in Hreturn, Hnames. rewrite rounds_cons.
  assert (∀ m1, ∃ m ev, rounds fuel graph lower m1 = Some (Ok m, ev)) as Hlower.
  { intros m1. apply IH; intros t ?; [apply Hreturn|apply Hnames];
      apply elem_of_app; by right. }
  case_bool_decide.
  - destruct (Hlower m0) as (m & ev & ->). by eexists _, _.
  - destruct (tier_loop_returns (concat lower) tier m0) as (m1 & ev1 & ->).
    + intros t ?. apply Hreturn, elem_of_app. by left.
    + intros t ?. apply Hnames, elem_of_app. by left.
    + intros t ?. apply Hnames, elem_of_app. by right.
    + destruct (Hlower m1) as (m & ev & ->). by eexists _, _.
Qed.

End TierRounds.

(** On an acyclic graph the traversals of finitely many terms return
    within a common depth. *)
Lemma list_descendants_return (graph : AGraph) (ts : list string) :
  acyclic graph →
  ∃ fuel0, ∀ fuel t, (fuel0 ≤ fuel)%nat → t ∈ ts →
    ∃ r, list_descendants fuel t graph ∅ = Some r.
Proof.
  intros Hacyclic. induction ts as [|t ts (fuel1 & IH)].
  { exists 0. by intros fuel t _ ?%elem_of_nil. }
  destruct (list_descendants_Acc graph t (acyclic_Acc_down graph t Hacyclic) ∅)
    as (fuel2 & r & Hr).
  exists (fuel1 `max` fuel2). intros fuel t' Hfuel [->|Ht']%elem_of_cons.
  - exists r. apply (list_descendants_mono graph fuel2 fuel); [lia|done].
  - apply IH; [lia|done].
Qed.

(** C1, in the form that holds of the code.
    The mapping that [write_descendants_by_entity] returns is made of
    entries of terms of tiers that have lower tiers: every entry is that of
    a term [t] of such a tier, its key being the writable form of [t] and
    its list the writable form of the kept list of [t] in the round of that
    tier, which is not empty; so a term that is only in the last tier has
    no entry. Every term of a tier that has lower tiers and whose kept list
    is not empty has an entry, and the entry is the kept list of the round
    of that tier when no other term of the tier and no term of the tiers
    between that tier and the last converts to the same key: of the rounds
    that hold a term, the last one decides. The kept list holds exactly
    the descendants of [t] that are in the union of the lower tiers, plus
    the registered variants of the descendants of [t] and of [t]; the
    descendants are the terms reached from [t] along the edges. On an
    acyclic graph, and with names that hold exactly one underscore, the
    mapping is returned for every recursion depth from some depth on.
    With tiers [[A], [B], [C]] and the edges A → B, B → C, A → C, the
    mapping is A ↦ {B, C}, B ↦ {C}, nothing for C. *)
Theorem tier_restriction (fuel : nat) (entity_hierarchy : list (list string))
    (graph : AGraph) :
  (∀ m ev,
     write_descendants_by_entity fuel entity_hierarchy graph = Some (Ok m, ev) →
     (∀ k l, m !! k = Some l →
        ∃ upper tier lower t D ev',
          entity_hierarchy = upper ++ tier :: lower ∧ lower ≠ [] ∧ t ∈ tier
          ∧ descendants_of fuel t graph = Some (D, ev')
          ∧ tier_kept D lower t ≠ []
          ∧ to_writable t = Ok k
          ∧ result_map to_writable (tier_kept D lower t) = Ok l)
     ∧ (∀ upper tier lower t D ev',
          entity_hierarchy = upper ++ tier :: lower → lower ≠ [] → t ∈ tier →
          descendants_of fuel t graph = Some (D, ev') →
          tier_kept D lower t ≠ [] →
          ∃ k, to_writable t = Ok k ∧ is_Some (m !! k))
     ∧ (∀ upper tier mid last t D ev',
          entity_hierarchy = upper ++ tier :: mid ++ [last] → t ∈ tier →
          descendants_of fuel t graph = Some (D, ev') →
          tier_kept D (mid ++ [last]) t ≠ [] →
          (∀ t', t' ∈ tier → to_writable t' = to_writable t → t' = t) →
          (∀ t', t' ∈ concat mid → to_writable t' ≠ to_writable t) →
          ∃ k l,
            to_writable t = Ok k
            ∧ result_map to_writable (tier_kept D (mid ++ [last]) t) = Ok l
            ∧ m !! k = Some l))
  ∧ (∀ (D : gset string) lower t x,
       x ∈ tier_kept D lower t ↔
       (x ∈ D ∧ x ∈ concat lower)
       ∨ ∃ d, (d ∈ D ∨ d = t)
              ∧ key_organoids_by_ontology_term_id (concat lower) !! d = Some x)
  ∧ (∀ t D ev', descendants_of fuel t graph = Some (D, ev') →
       ∀ x, x ∈ D ↔ reaches_down graph t x)
  ∧ (acyclic graph →
     (∀ t, t ∈ concat entity_hierarchy → PyStr.count "_" t = 1) →
     ∃ fuel0, ∀ fuel', (fuel0 ≤ fuel')%nat →
       ∃ m ev,
         write_descendants_by_entity fuel' entity_hierarchy graph = Some (Ok m, ev))
  ∧ (∃ m' ev' la,
       write_descendants_by_entity 3 [["T_A"]; ["T_B"]; ["T_C"]] tier_diamond
       = Some (Ok m', ev')
       ∧ m' !! "T:A" = Some la ∧ la ≡ₚ ["T:B"; "T:C"]
       ∧ m' !! "T:B" = Some ["T:C"]
       ∧ m' !! "T:C" = None).
Proof.
  split_and!.
  - rewrite write_descendants_rounds. intros m ev Hrun. split_and!.
    + intros k l Hk.
      destruct (rounds_sound fuel graph _ _ _ _ k l Hrun Hk) as [?|Hemitted]; [done|].
      exact Hemitted.
    + intros upper tier lower t D ev' Hsplit Hlower Ht HD Hkept.
      by eapply (rounds_complete fuel graph).
    + intros upper tier mid last t D ev' Hsplit Ht HD Hkept Halone Hlater.
      rewrite Hsplit in Hrun.
      by eapply (rounds_last fuel graph).
  - intros D lower t x. unfold tier_kept.
    rewrite descendant_accept_list_elem.
    by setoid_rewrite elem_of_elements.
  - intros t D ev'. apply descendants_of_reaches.
  - intros Hacyclic Hnames.
    destruct (list_descendants_return graph (concat entity_hierarchy) Hacyclic)
      as (fuel0 & Hreturn).
    exists fuel0. intros fuel' Hfuel. rewrite write_descendants_rounds.
    apply rounds_return.
    + intros t Ht. by apply Hreturn.
    + intros t Ht. rewrite <- count_one. by apply Hnames.
  - eexists _, _, _. split; [reflexivity|]. split_and!; [reflexivity| |reflexivity..].
    apply perm_swap.
Qed.

Lemma tier_restriction_witness :
  ∃ m ev,
    write_descendants_by_entity 3 [["T_A"]; ["T_B"]; ["T_C"]] tier_diamond
    = Some (Ok m, ev)
    ∧ ∀ k l, m !! k = Some l →
        ∃ upper tier lower t D ev',
          [["T_A"]; ["T_B"]; ["T_C"]] = upper ++ tier :: lower ∧ lower ≠ [] ∧ t ∈ tier
          ∧ descendants_of 3 t tier_diamond = Some (D, ev')
          ∧ tier_kept D lower t ≠ []
          ∧ to_writable t = Ok k
          ∧ result_map to_writable (tier_kept D lower t) = Ok l.
Proof.
  eexists _, _. split; [reflexivity|].
  exact (proj1 (proj1 (tier_restriction 3 [["T_A"]; ["T_B"]; ["T_C"]] tier_diamond)
                  _ _ eq_refl)).
Defined.


(** The run of the witness: A is in the first and in the second of three
    tiers. *)
Lemma overwrite_run :
  write_descendants_by_entity 3 ([["T_A"]] ++ ["T_A"; "T_B"] :: [] ++ [["T_C"]])
    tier_diamond
  = Some (Ok (<["T:A" := ["T:C"]]> (<["T:B" := ["T:C"]]> ∅)),
          [AskSuccessors "T_A"; AskSuccessors "T_B";
           AskSuccessors "T_C"; AskSuccessors "T_C";
           AskSuccessors "T_A"; AskSuccessors "T_B";
           AskSuccessors "T_C"; AskSuccessors "T_C";
           AskSuccessors "T_B"; AskSuccessors "T_C"]).
Proof. vm_compute. reflexivity. Qed.

Lemma overwrite_descendants :
  descendants_of 3 "T_A" tier_diamond
  = Some ({["T_B"; "T_C"]},
          [AskSuccessors "T_A"; AskSuccessors "T_B";
           AskSuccessors "T_C"; AskSuccessors "T_C"]).
Proof. vm_compute. reflexivity. Qed.



(** The entry of a term is not always the kept list of the round of its
    tier: with A in the first and in the second of three tiers, the first
    round's B and C are replaced by the second round's C. *)
Lemma tier_entry_overwritten : ¬ tier_entry_as_claimed.
Proof.
  intros Hclaimed.
  pose proof (Hclaimed 3 [["T_A"]; ["T_A"; "T_B"]; ["T_C"]] tier_diamond _ _
                [] ["T_A"] [["T_A"; "T_B"]; ["T_C"]] "T_A" _ _ "T:A" ["T:C"]
                overwrite_run eq_refl ltac:(done) ltac:(left)
                overwrite_descendants eq_refl eq_refl "T:B") as [_ Hback].
  assert ("T:B" ∈ ["T:C"]) as Hin; [|by apply list_elem_of_singleton in Hin].
  apply Hback. exists "T_B". split; [|reflexivity].
  unfold tier_kept. apply descendant_accept_list_elem. left.
  split; [apply elem_of_elements|]; by_evaluation.
Qed.

(** ** The subgraph builder *)

Section GraphUpdates.

Implicit Types (graph : AGraph) (n u v : string).

Lemma nodes_add_node graph n n' :
  n' ∈ nodes (add_node n graph) ↔ n' = n ∨ n' ∈ nodes graph.
Proof.
  unfold add_node. destruct (has_node graph n) eqn:Hn; simpl.
  - apply has_node_true in Hn. split; [by right|]. by intros [->|?].
  - rewrite elem_of_app, list_elem_of_singleton. tauto.
Qed.

Lemma edges_add_node graph n : edges (add_node n graph) = edges graph.
Proof. unfold add_node. by destruct (has_node graph n). Qed.

Lemma nodes_add_edge graph u v n' :
  n' ∈ nodes (add_edge u v graph) ↔ n' = u ∨ n' = v ∨ n' ∈ nodes graph.
Proof.
  unfold add_edge. case_bool_decide; simpl; rewrite !nodes_add_node; tauto.
Qed.

Lemma joined_add_node graph n u v :
  joined (add_node n graph) u v ↔ joined graph u v.
Proof. unfold joined, edge. by rewrite edges_add_node. Qed.

(** The graph is strict and undirected: an edge is added only between
    nodes that no edge joins yet. *)
Lemma edge_add_edge graph u v p c :
  edge (add_edge u v graph) p c ↔
  edge graph p c ∨ (p = u ∧ c = v ∧ ¬ joined graph u v).
Proof.
  unfold add_edge, joined, edge. case_bool_decide as He; simpl;
    rewrite ?edges_add_node in *.
  - split; [by left|]. intros [?|(_ & _ & ?)]; done.
  - rewrite elem_of_app, list_elem_of_singleton. split.
    + intros [?|[= -> ->]]; auto.
    + intros [?|(-> & -> & _)]; auto.
Qed.

Lemma edge_add_edge_mono graph u v p c :
  edge graph p c → edge (add_edge u v graph) p c.
Proof. intros ?. apply edge_add_edge. by left. Qed.

Lemma joined_add_edge graph u v p c :
  joined (add_edge u v graph) p c ↔
  joined graph p c ∨ (p = u ∧ c = v) ∨ (p = v ∧ c = u).
Proof.
  unfold joined at 1. rewrite !edge_add_edge. split.
  - intros [[?|(-> & -> & _)]|[?|(-> & -> & _)]]; unfold joined; auto.
  - destruct (decide (joined graph u v)) as [Hj|Hj]; unfold joined in *;
      naive_solver.
Qed.

Lemma one_way_add_node graph n : one_way graph → one_way (add_node n graph).
Proof. unfold one_way, edge. by rewrite edges_add_node. Qed.

Lemma one_way_add_edge graph u v : one_way graph → one_way (add_edge u v graph).
Proof.
  intros Hone p c. rewrite !edge_add_edge. unfold joined.
  intros [Hpc|(-> & -> & Hj)] [Hcp|(Hu & Hv & Hj')].
  - by apply Hone.
  - subst. destruct Hj'. by right.
  - destruct Hj. by right.
  - by subst.
Qed.

Lemma one_way_empty : one_way empty_graph.
Proof. by intros p c ?%elem_of_nil. Qed.

End GraphUpdates.

Section Counting.

Implicit Types (n : string) (l : list string).

Lemma times_nil n : times n [] = 0.
Proof. done. Qed.

Lemma times_cons n x l :
  times n (x :: l) = (if decide (x = n) then 1 else 0) + times n l.
Proof. unfold times. rewrite filter_cons. by destruct (decide (x = n)). Qed.

Lemma times_app n l1 l2 : times n (l1 ++ l2) = times n l1 + times n l2.
Proof. unfold times. by rewrite filter_app, length_app. Qed.

Lemma times_absent n l : n ∉ l → times n l = 0.
Proof.
  induction l as [|x l IH]; [done|]. rewrite not_elem_of_cons, times_cons.
  intros [Hne Hl]. rewrite IH by done. by destruct (decide (x = n)).
Qed.

Lemma times_present n l : n ∈ l → (1 ≤ times n l)%nat.
Proof.
  induction l as [|x l IH]; [by intros ?%elem_of_nil|].
  rewrite times_cons. intros [Hx|Hl]%elem_of_cons.
  - destruct (decide (x = n)); [lia|done].
  - apply IH in Hl. lia.
Qed.

Lemma times_NoDup n l : NoDup l → (times n l ≤ 1)%nat.
Proof.
  induction 1 as [|x l Hx _ IH]; [rewrite times_nil; lia|]. rewrite times_cons.
  destruct (decide (x = n)) as [->|]; [|lia].
  rewrite times_absent by done. lia.
Qed.

Lemma asked_children_app ev1 ev2 :
  asked_children (ev1 ++ ev2) = asked_children ev1 ++ asked_children ev2.
Proof. apply omap_app. Qed.

End Counting.

Section BuilderProps.

Variable cl_world : string → option (list string).

Implicit Types (graph : AGraph) (e n p c : string) (ev : list event).

Lemma asked_children_direct e :
  asked_children (list_direct_descendants cl_world e).2 = [e].
Proof. unfold list_direct_descendants. by destruct (cl_world e). Qed.

Lemma build_descendants_graph_S fuel e graph :
  build_descendants_graph cl_world (S fuel) e graph =
  match
    for_each (λ c graph,
      if has_node graph c then Some (add_edge e c graph, [])
      else build_descendants_graph cl_world fuel c (add_edge e c graph))
      (children_of cl_world e) (add_node e graph)
  with
  | None => None
  | Some (graph', ev) => Some (graph', (list_direct_descendants cl_world e).2 ++ ev)
  end.
Proof.
  unfold children_of. simpl.
  by destruct (list_direct_descendants cl_world e) as [subtypes asked].
Qed.

Lemma children_loop_post fuel e :
  (∀ c graph graph' ev, build_descendants_graph cl_world fuel c graph = Some (graph', ev) →
                        build_post cl_world c graph graph' ev) →
  ∀ cs graph1 graph2 ev,
    for_each (λ c graph,
      if has_node graph c then Some (add_edge e c graph, [])
      else build_descendants_graph cl_world fuel c (add_edge e c graph)) cs graph1 = Some (graph2, ev) →
    e ∈ nodes graph1 →
    NoDup (asked_children ev)
    ∧ (∀ n, n ∈ asked_children ev → n ∉ nodes graph1)
    ∧ (∀ n, n ∈ nodes graph2 ↔ n ∈ nodes graph1 ∨ n ∈ asked_children ev)
    ∧ (∀ p c, joined graph2 p c ↔
              joined graph1 p c ∨ (p = e ∧ c ∈ cs) ∨ (c = e ∧ p ∈ cs)
              ∨ (p ∈ asked_children ev ∧ c ∈ children_of cl_world p)
              ∨ (c ∈ asked_children ev ∧ p ∈ children_of cl_world c)).
Proof.
  intros Hbuild. induction cs as [|c cs IH]; intros graph1 graph2 ev.
  { intros [= <- <-] He. split_and!.
    - constructor.
    - by intros n ?%elem_of_nil.
    - intros n. split; [by left|]. by intros [?|?%elem_of_nil].
    - intros p c. split; [by left|].
      intros [?|[[_ ?%elem_of_nil]|[[_ ?%elem_of_nil]
              |[[?%elem_of_nil _]|[?%elem_of_nil _]]]]]; done. }
  rewrite for_each_cons.
  destruct (has_node graph1 c) eqn:Hvisited.
  - apply has_node_true in Hvisited.
    destruct (for_each _ cs (add_edge e c graph1)) as [[g2 ev2]|] eqn:Hrest; [|done].
    intros [= <- <-] He. simpl.
    destruct (IH _ _ _ Hrest) as (Hnodup & Hfresh & Hnodes & Hedges).
    { apply nodes_add_edge. by left. }
    assert (∀ n, n ∈ nodes (add_edge e c graph1) ↔ n ∈ nodes graph1) as Hsame.
    { intros n. rewrite nodes_add_edge. split; [by intros [->|[->|?]]|by auto]. }
    split_and!.
    + done.
    + intros n Hn. rewrite <- Hsame. by apply Hfresh.
    + intros n. by rewrite Hnodes, Hsame.
    + intros p c'. rewrite Hedges, joined_add_edge, !elem_of_cons. naive_solver.
  - apply has_node_false in Hvisited.
    destruct (build_descendants_graph cl_world fuel c (add_edge e c graph1)) as [[gb ev1]|] eqn:Hc; [|done].
    destruct (for_each _ cs gb) as [[g2 ev2]|] eqn:Hrest; [|done].
    intros [= <- <-] He.
    apply Hbuild in Hc as (extra1 & Hasked1 & Hnodup1 & Hfresh1 & Hnodes1 & Hedges1).
    destruct (IH _ _ _ Hrest) as (Hnodup2 & Hfresh2 & Hnodes2 & Hedges2).
    { apply Hnodes1. left. apply nodes_add_edge. by left. }
    rewrite asked_children_app, Hasked1.
    assert (∀ n, n ∈ nodes gb ↔ n ∈ nodes graph1 ∨ n = c ∨ n ∈ extra1) as Hgb.
    { intros n. rewrite Hnodes1, nodes_add_edge. split.
      - intros [[->|[->|?]]|[->|?]]; auto.
      - intros [?|[->|?]]; auto. }
    split_and!.
    + simpl. apply NoDup_cons. split.
      * rewrite elem_of_app. intros [Hc1|Hc2].
        -- by destruct (Hfresh1 c Hc1).
        -- apply (Hfresh2 c Hc2), Hgb. auto.
      * apply NoDup_app. split_and!; [done| |done].
        intros n Hn1 Hn2. apply (Hfresh2 n Hn2), Hgb. auto.
    + intros n. simpl. rewrite elem_of_cons, elem_of_app.
      intros [->|[Hn1|Hn2]]; [done| |].
      * destruct (Hfresh1 n Hn1) as [Hn _]. intros ?. apply Hn, nodes_add_edge. auto.
      * intros ?. apply (Hfresh2 n Hn2), Hgb. auto.
    + intros n. simpl. rewrite Hnodes2, Hgb, elem_of_cons, elem_of_app. tauto.
    + intros p c'. rewrite Hedges2, Hedges1, joined_add_edge. simpl.
      rewrite !elem_of_cons, !elem_of_app. naive_solver.
Qed.

Lemma build_descendants_graph_post fuel e graph graph' ev :
  build_descendants_graph cl_world fuel e graph = Some (graph', ev) →
  build_post cl_world e graph graph' ev.
Proof.
  revert e graph graph' ev.
  induction fuel as [|fuel IH]; intros e graph graph' ev; [done|].
  rewrite build_descendants_graph_S.
  destruct (for_each _ (children_of cl_world e) (add_node e graph))
    as [[g1 ev1]|] eqn:Hloop; [|done].
  intros [= <- <-].
  destruct (children_loop_post fuel e IH _ _ _ _ Hloop)
    as (Hnodup & Hfresh & Hnodes & Hedges).
  { apply nodes_add_node. by left. }
  exists (asked_children ev1). split_and!.
  - by rewrite asked_children_app, asked_children_direct.
  - done.
  - intros n Hn. apply Hfresh in Hn. rewrite nodes_add_node in Hn. tauto.
  - intros n. rewrite Hnodes, nodes_add_node. tauto.
  - intros p c. rewrite Hedges, joined_add_node. naive_solver.
Qed.

Lemma anchors_loop_post fuel (anchors : list string) graph0 graph ev :
  for_each (λ e graph, build_descendants_graph cl_world fuel e graph)
    anchors graph0 = Some (graph, ev) →
  (∀ n, (times n anchors ≤ times n (asked_children ev))%nat
        ∧ (times n (asked_children ev)
           ≤ times n anchors + (if decide (n ∈ nodes graph0) then 0 else 1))%nat)
  ∧ (∀ n, n ∈ nodes graph ↔ n ∈ nodes graph0 ∨ n ∈ asked_children ev)
  ∧ (∀ p c, joined graph p c ↔
            joined graph0 p c
            ∨ (p ∈ asked_children ev ∧ c ∈ children_of cl_world p)
            ∨ (c ∈ asked_children ev ∧ p ∈ children_of cl_world c)).
Proof.
  revert graph0 ev. induction anchors as [|e anchors IH]; intros graph0 ev.
  { intros [= <- <-]. split_and!.
    - intros n. rewrite !times_nil. split; lia.
    - intros n. split; [by left|]. by intros [?|?%elem_of_nil].
    - intros p c. split; [by left|].
      by intros [?|[[?%elem_of_nil _]|[?%elem_of_nil _]]]. }
  rewrite for_each_cons.
  destruct (build_descendants_graph cl_world fuel e graph0)
    as [[g1 ev1]|] eqn:He; [|done].
  destruct (for_each _ anchors g1) as [[g2 ev2]|] eqn:Hrest; [|done].
  intros [= <- <-].
  apply build_descendants_graph_post in He
    as (extra & Hasked & Hnodup & Hfresh & Hnodes & Hedges).
  destruct (IH _ _ Hrest) as (Hcount & Hnodes2 & Hedges2).
  rewrite asked_children_app, Hasked. split_and!.
  - intros n. destruct (Hcount n) as [Hlow Hhigh].
    rewrite times_app, !times_cons.
    pose proof (times_NoDup n extra Hnodup) as Hextra.
    split; [destruct (decide (e = n)); lia|].
    destruct (decide (n ∈ extra)) as [Hin|Hout].
    + destruct (Hfresh n Hin) as [Hn0 Hne].
      destruct (decide (n ∈ nodes g1)) as [_|Hn1]; [|exfalso; apply Hn1, Hnodes; auto].
      destruct (decide (n ∈ nodes graph0)); [done|].
      destruct (decide (e = n)); lia.
    + rewrite (times_absent n extra Hout).
      destruct (decide (n ∈ nodes graph0)) as [Hn0|Hn0].
      * destruct (decide (n ∈ nodes g1)) as [_|Hn1];
          [destruct (decide (e = n)); lia|].
        exfalso. apply Hn1, Hnodes. auto.
      * destruct (decide (n ∈ nodes g1)); destruct (decide (e = n)); lia.
  - intros n. simpl. rewrite Hnodes2, Hnodes, elem_of_cons, elem_of_app. tauto.
  - intros p c. simpl. rewrite Hedges2, Hedges, !elem_of_cons, !elem_of_app. tauto.
Qed.

End BuilderProps.

Section BuilderGraph.

Variable cl_world : string → option (list string).

Implicit Types (graph : AGraph) (e n p c : string) (ev : list event).

(** A property of graphs that adding an expanded node and adding an edge
    to a reported child keep is kept by a call, [R] saying which nodes may
    be expanded. *)
Lemma build_descendants_graph_invariant (P : AGraph → Prop) (R : string → Prop) :
  (∀ p c, R p → c ∈ children_of cl_world p → R c) →
  (∀ n graph, R n → P graph → P (add_node n graph)) →
  (∀ p c graph, R p → c ∈ children_of cl_world p → P graph → P (add_edge p c graph)) →
  ∀ fuel e graph graph' ev,
    R e → P graph →
    build_descendants_graph cl_world fuel e graph = Some (graph', ev) →
    P graph'.
Proof.
  intros HR Hnode Hedge.
  induction fuel as [|fuel IH]; intros e graph graph' ev He HP; [done|].
  rewrite build_descendants_graph_S.
  destruct (for_each _ (children_of cl_world e) (add_node e graph))
    as [[g1 ev1]|] eqn:Hloop; [|done].
  intros [= <- _].
  assert (∀ cs g0 g2 ev2,
    (∀ c, c ∈ cs → c ∈ children_of cl_world e) → P g0 →
    for_each (λ c graph,
      if has_node graph c then Some (add_edge e c graph, [])
      else build_descendants_graph cl_world fuel c (add_edge e c graph))
      cs g0 = Some (g2, ev2) → P g2) as Hcs.
  { induction cs as [|c cs IHcs]; intros g0 g2 ev2 Hsub HP0.
    { by intros [= <- _]. }
    rewrite for_each_cons.
    assert (c ∈ children_of cl_world e) as Hc by (apply Hsub; left).
    assert (P (add_edge e c g0)) as HPe by by apply Hedge.
    destruct (has_node g0 c).
    - destruct (for_each _ cs (add_edge e c g0)) as [[g3 ev3]|] eqn:Hrest; [|done].
      intros [= <- _]. eapply IHcs; [|exact HPe|exact Hrest].
      intros c' ?. apply Hsub. by right.
    - destruct (build_descendants_graph cl_world fuel c (add_edge e c g0))
        as [[gb evb]|] eqn:Hb; [|done].
      destruct (for_each _ cs gb) as [[g3 ev3]|] eqn:Hrest; [|done].
      intros [= <- _]. eapply IHcs; [| |exact Hrest].
      + intros c' ?. apply Hsub. by right.
      + eapply IH; [|exact HPe|exact Hb]. by eapply HR. }
  eapply Hcs; [|by apply Hnode|exact Hloop]. done.
Qed.

Lemma anchors_loop_invariant (P : AGraph → Prop) (R : string → Prop)
    fuel (anchors : list string) graph graph' ev :
  (∀ p c, R p → c ∈ children_of cl_world p → R c) →
  (∀ n graph, R n → P graph → P (add_node n graph)) →
  (∀ p c graph, R p → c ∈ children_of cl_world p → P graph → P (add_edge p c graph)) →
  (∀ a, a ∈ anchors → R a) → P graph →
  for_each (λ e graph, build_descendants_graph cl_world fuel e graph)
    anchors graph = Some (graph', ev) →
  P graph'.
Proof.
  intros HR Hnode Hedge. revert graph ev.
  induction anchors as [|a anchors IH]; intros graph ev Hanchors HP.
  { by intros [= <- _]. }
  rewrite for_each_cons.
  destruct (build_descendants_graph cl_world fuel a graph) as [[g1 ev1]|] eqn:Ha; [|done].
  destruct (for_each _ anchors g1) as [[g2 ev2]|] eqn:Hrest; [|done].
  intros [= <- _]. eapply IH; [| |exact Hrest].
  - intros a' ?. apply Hanchors. by right.
  - eapply (build_descendants_graph_invariant P R); [done..| |exact HP|exact Ha].
    apply Hanchors. left.
Qed.

Lemma closed_graph_add_node n graph :
  closed_graph graph → closed_graph (add_node n graph).
Proof.
  intros Hclosed u v. unfold edge. rewrite edges_add_node, !nodes_add_node.
  intros [? ?]%Hclosed. auto.
Qed.

Lemma closed_graph_add_edge u v graph :
  closed_graph graph → closed_graph (add_edge u v graph).
Proof.
  intros Hclosed u' v'. rewrite edge_add_edge, !nodes_add_edge.
  intros [[? ?]%Hclosed|(-> & -> & _)]; auto.
Qed.

Lemma closed_graph_empty : closed_graph empty_graph.
Proof. intros u v ?%elem_of_nil. done. Qed.

Lemma times_positive n (l : list string) : (1 ≤ times n l)%nat → n ∈ l.
Proof.
  intros H. destruct (decide (n ∈ l)) as [|Hout]; [done|].
  rewrite (times_absent n l Hout) in H. lia.
Qed.

End BuilderGraph.

(** What one build from the empty graph leaves: the nodes are the nodes
    asked about; an edge goes from a node asked about to a child reported
    for it; a node asked about is joined to every child reported for it;
    and no two nodes are joined in both directions. *)
Lemma build_graph_shape (cl_world : string → option (list string)) (fuel : nat)
    (entity_names : list string) (graph : AGraph) (ev : list event) :
  build_graph_for_cell_types cl_world fuel entity_names = Some (graph, ev) →
  (∀ n, n ∈ nodes graph ↔ n ∈ asked_children ev)
  ∧ (∀ p c, edge graph p c → p ∈ asked_children ev ∧ c ∈ children_of cl_world p)
  ∧ (∀ p c, p ∈ asked_children ev → c ∈ children_of cl_world p → joined graph p c)
  ∧ one_way graph
  ∧ closed_graph graph.
Proof.
  unfold build_graph_for_cell_types. intros Hrun.
  pose proof (anchors_loop_post cl_world _ _ _ _ _ Hrun) as (Hcount & Hnodes & Hjoined).
  assert (∀ n, n ∈ nodes graph ↔ n ∈ asked_children ev) as Hasked.
  { intros n. rewrite Hnodes. split; [by intros [?%elem_of_nil|?]|by right]. }
  assert (closed_graph graph) as Hclosed.
  { eapply (anchors_loop_invariant cl_world closed_graph (λ _, True));
      [done|intros; by apply closed_graph_add_node
      |intros; by apply closed_graph_add_edge|done|apply closed_graph_empty|exact Hrun]. }
  assert (one_way graph) as Hone.
  { eapply (anchors_loop_invariant cl_world one_way (λ _, True));
      [done|intros; by apply one_way_add_node
      |intros; by apply one_way_add_edge|done|apply one_way_empty|exact Hrun]. }
  assert (∀ p c, p ∈ asked_children ev → c ∈ children_of cl_world p →
                 joined graph p c) as Hall.
  { intros p c Hp Hc. apply Hjoined. right. left. done. }
  assert (∀ p c, edge graph p c →
                 p ∈ asked_children ev ∧ c ∈ children_of cl_world p) as Honly.
  { eapply (anchors_loop_invariant cl_world
              (λ g, ∀ p c, edge g p c →
                           p ∈ asked_children ev ∧ c ∈ children_of cl_world p)
              (λ n, n ∈ asked_children ev)); [| | | | |exact Hrun].
    - intros p c Hp Hc. apply Hasked.
      destruct (Hall p c Hp Hc) as [He|He]; by apply Hclosed in He as [? ?].
    - intros n g _ Hg p c. unfold edge. rewrite edges_add_node. apply Hg.
    - intros p c g Hp Hc Hg p' c'. rewrite edge_add_edge.
      intros [?|(-> & -> & _)]; auto.
    - intros a Ha. apply times_positive. destruct (Hcount a) as [Hlow _].
      apply times_present in Ha. lia.
    - by intros p c ?%elem_of_nil. }
  done.
Qed.

(** C4, in the form that holds of the code.
    Within one build over a static ontology, the children
    of a node are asked for once for every occurrence of the node in the
    anchor list, and at most once more: when the node is first met as a
    child, before the graph has it. A node that is not an anchor is thus
    expanded exactly once if the graph has it, however many anchors or
    parents reach it, and never otherwise; the nodes of the graph are the
    nodes expanded; and a child that is already in the graph is not
    expanded again but is still joined to the parent: every edge goes from
    an expanded node to a child reported for it, and an expanded node and
    a child reported for it are joined by an edge, which goes from the
    node to the child unless the child was expanded first and reports the
    node, the graph being strict and undirected and keeping one edge
    between two nodes. Over an ontology in which no two expanded nodes
    report each other, the edges are exactly those from an expanded node
    to a child reported for it. *)
Theorem builder_expansions (cl_world : string → option (list string))
    (fuel : nat) (entity_names : list string) (graph : AGraph) (ev : list event) :
  build_graph_for_cell_types cl_world fuel entity_names = Some (graph, ev) →
  (∀ n, (times n entity_names ≤ times n (asked_children ev))%nat
        ∧ (times n (asked_children ev) ≤ times n entity_names + 1)%nat)
  ∧ (∀ n, n ∉ entity_names →
       times n (asked_children ev) = if decide (n ∈ nodes graph) then 1 else 0)
  ∧ (∀ n, n ∈ nodes graph ↔ n ∈ asked_children ev)
  ∧ (∀ p c, edge graph p c →
            p ∈ asked_children ev ∧ c ∈ children_of cl_world p)
  ∧ (∀ p c, p ∈ asked_children ev → c ∈ children_of cl_world p →
            edge graph p c ∨ edge graph c p)
  ∧ (∀ p c, edge graph p c → edge graph c p → p = c)
  ∧ ((∀ p c, p ∈ asked_children ev → c ∈ children_of cl_world p →
             p ∈ children_of cl_world c → p = c) →
     ∀ p c, edge graph p c ↔
            p ∈ asked_children ev ∧ c ∈ children_of cl_world p).
Proof.
  intros Hrun.
  destruct (build_graph_shape cl_world fuel entity_names graph ev Hrun)
    as (Hnodes' & Honly & Hall & Hone & _).
  unfold build_graph_for_cell_types in Hrun.
  apply anchors_loop_post in Hrun as (Hcount & Hnodes & Hedges).
  split_and!.
  - intros n. destruct (Hcount n) as [Hlow Hhigh]. split; [done|].
    by rewrite decide_False in Hhigh by apply not_elem_of_nil.
  - intros n Hn. destruct (Hcount n) as [_ Hhigh].
    rewrite decide_False in Hhigh by apply not_elem_of_nil.
    rewrite (times_absent n entity_names Hn) in Hhigh.
    destruct (decide (n ∈ nodes graph)) as [Hin|Hout].
    + apply Hnodes', times_present in Hin. lia.
    + apply times_absent. by rewrite <- Hnodes'.
  - exact Hnodes'.
  - exact Honly.
  - exact Hall.
  - exact Hone.
  - intros Hapart p c. split; [apply Honly|]. intros [Hp Hc].
    destruct (Hall p c Hp Hc) as [He|He]; [done|].
    destruct (Honly c p He) as [_ Hback].
    by rewrite (Hapart p c Hp Hc Hback) in He |- *.
Qed.

(** The build from the anchors A and B over the diamond ontology: B is
    met as a child of A, expanded, and expanded again as an anchor. *)
Lemma diamond_build_run :
  build_graph_for_cell_types diamond_world 3 ["A"; "B"]
  = Some (diamond,
          [AskChildren "A"; AskChildren "B"; AskChildren "C"; AskChildren "B"]).
Proof. vm_compute. reflexivity. Qed.

Lemma builder_expansions_witness :
  build_graph_for_cell_types diamond_world 3 ["A"; "B"]
  = Some (diamond,
          [AskChildren "A"; AskChildren "B"; AskChildren "C"; AskChildren "B"])
  ∧ ∀ n, n ∈ nodes diamond ↔
         n ∈ asked_children
               [AskChildren "A"; AskChildren "B"; AskChildren "C"; AskChildren "B"].
Proof.
  split; [exact diamond_build_run|].
  exact (proj1 (proj2 (proj2
           (builder_expansions diamond_world 3 ["A"; "B"] diamond _
              diamond_build_run)))).
Defined.

(** An anchor that an earlier anchor has already reached is expanded a
    second time. *)
Lemma anchor_expanded_twice : ¬ builder_expands_once.
Proof.
  intros Honce.
  pose proof (Honce diamond_world 3 ["A"; "B"] diamond _ diamond_build_run)
    as Hnodup.
  simpl in Hnodup.
  apply NoDup_cons in Hnodup as [_ Hnodup].
  apply NoDup_cons in Hnodup as [Hnotin _].
  apply Hnotin. right. left.
Qed.

(** * Further properties of the code *)

(** ** The subgraph builder: what it builds, and that it ends *)


(** What one build from the empty graph leaves: the part of the ontology
    that the anchors reach. *)
Lemma build_graph_reached (cl_world : string → option (list string)) (fuel : nat)
    (entity_names : list string) (graph : AGraph) (ev : list event) :
  build_graph_for_cell_types cl_world fuel entity_names = Some (graph, ev) →
  (∀ n, n ∈ nodes graph ↔ reachable_from cl_world entity_names n)
  ∧ (∀ p c, edge graph p c →
            reachable_from cl_world entity_names p ∧ c ∈ children_of cl_world p)
  ∧ (∀ p c, reachable_from cl_world entity_names p → c ∈ children_of cl_world p →
            joined graph p c)
  ∧ one_way graph
  ∧ closed_graph graph.
Proof.
  intros Hrun.
  destruct (build_graph_shape cl_world fuel entity_names graph ev Hrun)
    as (Hasked & Honly & Hall & Hone & Hclosed).
  unfold build_graph_for_cell_types in Hrun.
  pose proof (anchors_loop_post cl_world _ _ _ _ _ Hrun) as (Hcount & _ & _).
  assert (∀ n, n ∈ nodes graph → reachable_from cl_world entity_names n) as Hreached.
  { eapply (anchors_loop_invariant cl_world
              (λ g, ∀ n, n ∈ nodes g → reachable_from cl_world entity_names n)
              (reachable_from cl_world entity_names)); [| | | | |exact Hrun].
    - intros p c (a & Ha & Hp) Hc. exists a. split; [done|]. by eapply rtc_r.
    - intros n g Hn Hg n'. rewrite nodes_add_node. intros [->|?]; auto.
    - intros p c g Hp Hc Hg n'. rewrite nodes_add_edge.
      intros [->|[->|?]]; auto.
      destruct Hp as (a & Ha & Hp). exists a. split; [done|]. by eapply rtc_r.
    - intros a Ha. by exists a.
    - by intros n ?%elem_of_nil. }
  assert (∀ n, reachable_from cl_world entity_names n → n ∈ nodes graph) as Hreaches.
  { intros n (a & Ha & Hreach).
    assert (a ∈ nodes graph) as Hstart.
    { apply Hasked, times_positive. destruct (Hcount a) as [Hlow _].
      apply times_present in Ha. lia. }
    clear Ha. induction Hreach as [|p c n Hpc _ IH]; [done|].
    apply IH.
    destruct (Hall p c) as [He|He]; [by apply Hasked|done| |];
      by apply Hclosed in He as [? ?]. }
  split_and!; [|
    | |done|done].
  - intros n. split; auto.
  - intros p c [Hp ?]%Honly. split; [|done]. by apply Hreached, Hasked.
  - intros p c Hp Hc. apply Hall; [|done]. by apply Hasked, Hreaches.
Qed.

(** Over an ontology in which no two nodes that the anchors reach report
    each other, the edges are those of the ontology. *)
Lemma build_graph_edges (cl_world : string → option (list string)) (fuel : nat)
    (entity_names : list string) (graph : AGraph) (ev : list event) :
  build_graph_for_cell_types cl_world fuel entity_names = Some (graph, ev) →
  (∀ p c, reachable_from cl_world entity_names p → c ∈ children_of cl_world p →
          p ∈ children_of cl_world c → p = c) →
  ∀ p c, edge graph p c ↔
         reachable_from cl_world entity_names p ∧ c ∈ children_of cl_world p.
Proof.
  intros Hrun Hapart p c.
  destruct (build_graph_reached cl_world fuel entity_names graph ev Hrun)
    as (_ & Honly & Hall & _ & _).
  split; [apply Honly|]. intros [Hp Hc].
  destruct (Hall p c Hp Hc) as [He|He]; [done|].
  destruct (Honly c p He) as [_ Hback].
  by rewrite (Hapart p c Hp Hc Hback) in He |- *.
Qed.

(** X1. The graph that [build_graph_for_cell_types] returns is the part of
    the ontology that the anchors reach: its nodes are the anchors and
    whatever is reached from them through reported children; every edge
    goes from such a node to a child reported for it; such a node and a
    child reported for it are joined by an edge, and by one only, the graph
    being strict and undirected; and every end of an edge is a node. So
    the nodes, and the pairs of nodes joined, depend neither on the order
    of the anchors nor on the depth allowed. Over an ontology in which no
    two nodes reached report each other, the edges are exactly those from
    a node reached to a child reported for it. *)
Theorem builder_subgraph (cl_world : string → option (list string)) (fuel : nat)
    (entity_names : list string) (graph : AGraph) (ev : list event) :
  build_graph_for_cell_types cl_world fuel entity_names = Some (graph, ev) →
  (∀ n, n ∈ nodes graph ↔ reachable_from cl_world entity_names n)
  ∧ (∀ p c, edge graph p c →
            reachable_from cl_world entity_names p ∧ c ∈ children_of cl_world p)
  ∧ (∀ p c, edge graph p c ∨ edge graph c p ↔
            (reachable_from cl_world entity_names p ∧ c ∈ children_of cl_world p)
            ∨ (reachable_from cl_world entity_names c ∧ p ∈ children_of cl_world c))
  ∧ (∀ p c, edge graph p c → edge graph c p → p = c)
  ∧ ((∀ p c, reachable_from cl_world entity_names p → c ∈ children_of cl_world p →
             p ∈ children_of cl_world c → p = c) →
     ∀ p c, edge graph p c ↔
            reachable_from cl_world entity_names p ∧ c ∈ children_of cl_world p)
  ∧ closed_graph graph.
Proof.
  intros Hrun.
  destruct (build_graph_reached cl_world fuel entity_names graph ev Hrun)
    as (Hnodes & Honly & Hall & Hone & Hclosed).
  split_and!.
  - exact Hnodes.
  - exact Honly.
  - intros p c. split.
    + intros [He|He]; [left|right]; by apply Honly.
    + intros [[Hp Hc]|[Hc Hp]].
      * by apply Hall.
      * destruct (Hall c p Hc Hp) as [?|?]; auto.
  - exact Hone.
  - intros Hapart. by apply (build_graph_edges cl_world fuel entity_names graph ev).
  - exact Hclosed.
Qed.

Lemma builder_subgraph_witness :
  build_graph_for_cell_types diamond_world 3 ["A"; "B"]
  = Some (diamond,
          [AskChildren "A"; AskChildren "B"; AskChildren "C"; AskChildren "B"])
  ∧ ∀ n, n ∈ nodes diamond ↔ reachable_from diamond_world ["A"; "B"] n.
Proof.
  split; [exact diamond_build_run|].
  exact (proj1 (builder_subgraph diamond_world 3 ["A"; "B"] diamond _
                  diamond_build_run)).
Defined.

Section MissingNodes.

Implicit Types (graph : AGraph) (universe : list string) (n c : string).

Lemma missing_nodes_cons x universe graph :
  missing_nodes (x :: universe) graph
  = ((if decide (x ∈ nodes graph) then 0 else 1) + missing_nodes universe graph)%nat.
Proof.
  unfold missing_nodes. rewrite filter_cons.
  destruct (decide (x ∉ nodes graph)) as [Hx|Hx];
    destruct (decide (x ∈ nodes graph)); done.
Qed.

Lemma missing_nodes_mono universe graph graph' :
  (∀ n, n ∈ nodes graph → n ∈ nodes graph') →
  (missing_nodes universe graph' ≤ missing_nodes universe graph)%nat.
Proof.
  intros Hsub. induction universe as [|x xs IH]; [unfold missing_nodes; simpl; lia|].
  rewrite !missing_nodes_cons.
  destruct (decide (x ∈ nodes graph')) as [Hx'|Hx'];
    destruct (decide (x ∈ nodes graph)) as [Hx|Hx]; try lia.
  exfalso. by apply Hx', Hsub.
Qed.

Lemma missing_nodes_less universe graph graph' c :
  (∀ n, n ∈ nodes graph → n ∈ nodes graph') →
  c ∈ universe → c ∉ nodes graph → c ∈ nodes graph' →
  (missing_nodes universe graph' < missing_nodes universe graph)%nat.
Proof.
  intros Hsub Hc Hout Hin.
  induction universe as [|x xs IH]; [by apply elem_of_nil in Hc|].
  rewrite !missing_nodes_cons.
  pose proof (missing_nodes_mono xs graph graph' Hsub) as Hle.
  apply elem_of_cons in Hc as [->|Hc].
  - rewrite decide_True by done. rewrite decide_False by done. lia.
  - apply IH in Hc.
    destruct (decide (x ∈ nodes graph')) as [Hx'|Hx'];
      destruct (decide (x ∈ nodes graph)) as [Hx|Hx]; try lia.
    exfalso. by apply Hx', Hsub.
Qed.

Lemma missing_nodes_bound universe graph :
  (missing_nodes universe graph ≤ length universe)%nat.
Proof. unfold missing_nodes. apply length_filter. Qed.

End MissingNodes.

Section BuilderTermination.

Variables (cl_world : string → option (list string)) (universe : list string).

Hypothesis universe_closed :
  ∀ n c, n ∈ universe → c ∈ children_of cl_world n → c ∈ universe.

Implicit Types (graph : AGraph) (e n p c : string).

Lemma build_descendants_graph_grows fuel e graph graph' ev :
  build_descendants_graph cl_world fuel e graph = Some (graph', ev) →
  ∀ n, n ∈ nodes graph → n ∈ nodes graph'.
Proof.
  intros (extra & _ & _ & _ & Hnodes & _)%build_descendants_graph_post n Hn.
  apply Hnodes. by left.
Qed.

(** With more depth allowed than there are names missing from the graph,
    a call returns. *)
Lemma build_descendants_graph_total fuel e graph :
  e ∈ universe → (missing_nodes universe graph < fuel)%nat →
  is_Some (build_descendants_graph cl_world fuel e graph).
Proof.
  revert e graph. induction fuel as [|fuel IH]; intros e graph He Hfuel; [lia|].
  rewrite build_descendants_graph_S.
  assert (∀ cs g0,
    (∀ c, c ∈ cs → c ∈ universe) →
    (missing_nodes universe g0 < S fuel)%nat →
    is_Some (for_each (λ c graph,
      if has_node graph c then Some (add_edge e c graph, [])
      else build_descendants_graph cl_world fuel c (add_edge e c graph)) cs g0))
    as Hcs.
  { induction cs as [|c cs IHcs]; intros g0 Hsub Hg0; [by eexists|].
    rewrite for_each_cons.
    assert (∀ n, n ∈ nodes g0 → n ∈ nodes (add_edge e c g0)) as Hgrow.
    { intros n ?. apply nodes_add_edge. auto. }
    destruct (has_node g0 c) eqn:Hvisited.
    - destruct (IHcs (add_edge e c g0)) as [[g2 ev2] ->]; [| |by eexists].
      + intros c' ?. apply Hsub. by right.
      + pose proof (missing_nodes_mono universe _ _ Hgrow). lia.
    - apply has_node_false in Hvisited.
      assert (missing_nodes universe (add_edge e c g0)
              < missing_nodes universe g0)%nat as Hless.
      { apply (missing_nodes_less universe _ _ c); [done| |done|].
        - apply Hsub. left.
        - apply nodes_add_edge. auto. }
      destruct (IH c (add_edge e c g0)) as [[gb evb] Hb]; [apply Hsub; left|lia|].
      rewrite Hb.
      destruct (IHcs gb) as [[g2 ev2] ->]; [| |by eexists].
      + intros c' ?. apply Hsub. by right.
      + pose proof (missing_nodes_mono universe _ _
                      (build_descendants_graph_grows _ _ _ _ _ Hb)). lia. }
  destruct (Hcs (children_of cl_world e) (add_node e graph)) as [[g1 ev1] ->];
    [|
    |by eexists].
  - intros c. by apply universe_closed.
  - assert (∀ n, n ∈ nodes graph → n ∈ nodes (add_node e graph)) as Hgrow.
    { intros n ?. apply nodes_add_node. auto. }
    pose proof (missing_nodes_mono universe _ _ Hgrow). lia.
Qed.

Lemma anchors_loop_total fuel (anchors : list string) graph :
  (∀ a, a ∈ anchors → a ∈ universe) →
  (length universe < fuel)%nat →
  is_Some (for_each (λ e graph, build_descendants_graph cl_world fuel e graph)
             anchors graph).
Proof.
  intros Hanchors Hfuel. revert graph Hanchors.
  induction anchors as [|a anchors IH]; intros graph Hanchors; [by eexists|].
  rewrite for_each_cons.
  destruct (build_descendants_graph_total fuel a graph) as [[g1 ev1] ->].
  - apply Hanchors. left.
  - pose proof (missing_nodes_bound universe graph). lia.
  - destruct (IH g1) as [[g2 ev2] ->]; [|by eexists].
    intros a' ?. apply Hanchors. by right.
Qed.

End BuilderTermination.

(** X2. The build ends on every finite ontology, cycles included: when the
    anchors lie in a finite collection of names that holds the reported
    children of each of its names, [build_graph_for_cell_types] returns a
    graph as soon as the depth allowed exceeds the size of the
    collection. *)
Theorem builder_terminates (cl_world : string → option (list string))
    (universe entity_names : list string) (fuel : nat) :
  (∀ n c, n ∈ universe → c ∈ children_of cl_world n → c ∈ universe) →
  (∀ a, a ∈ entity_names → a ∈ universe) →
  (length universe < fuel)%nat →
  ∃ graph ev, build_graph_for_cell_types cl_world fuel entity_names = Some (graph, ev).
Proof.
  intros Hclosed Hanchors Hfuel. unfold build_graph_for_cell_types.
  destruct (anchors_loop_total cl_world universe Hclosed fuel entity_names
              empty_graph Hanchors Hfuel) as [[graph ev] Hrun].
  by exists graph, ev.
Qed.

Lemma cyclic_world_closed (n c : string) :
  n ∈ ["A"; "B"] → c ∈ children_of cyclic_world n → c ∈ ["A"; "B"].
Proof.
  rewrite !elem_of_cons, elem_of_nil. intros [->|[->|[]]].
  - change (children_of cyclic_world "A") with ["B"].
    rewrite list_elem_of_singleton. auto.
  - change (children_of cyclic_world "B") with ["A"].
    rewrite list_elem_of_singleton. auto.
Qed.

Lemma builder_terminates_witness :
  ∃ graph ev, build_graph_for_cell_types cyclic_world 3 ["A"] = Some (graph, ev).
Proof.
  refine (builder_terminates cyclic_world ["A"; "B"] ["A"] 3 cyclic_world_closed _ _).
  - intros a ->%list_elem_of_singleton. left.
  - simpl. lia.
Defined.

(** ** The tissue builder *)

Section TissueBuilderProps.

Variables (uberon_world : string → list (list entity))
  (invalid_child_line : nat → list entity → string).

Implicit Types (graph : AGraph) (e n c : string) (ev : list event)
  (row : list entity) (rows : list (list entity)).

Lemma built_bind (a1 a2 : option (AGraph * list event))
    (k1 k2 : AGraph → option (AGraph * list event)) :
  built a1 = built a2 →
  (∀ graph, built (k1 graph) = built (k2 graph)) →
  built (match a1 with
         | None => None
         | Some (g1, ev1) =>
             match k1 g1 with
             | None => None
             | Some (g2, ev2) => Some (g2, ev1 ++ ev2)
             end
         end)
  = built (match a2 with
           | None => None
           | Some (g1, ev1) =>
               match k2 g1 with
               | None => None
               | Some (g2, ev2) => Some (g2, ev1 ++ ev2)
               end
           end).
Proof.
  intros Ha Hk.
  destruct a1 as [[g1 ev1]|], a2 as [[g1' ev1']|]; simpl in Ha; try done.
  injection Ha as <- Hev. specialize (Hk g1).
  destruct (k1 g1) as [[g2 ev2]|], (k2 g1) as [[g2' ev2']|]; simpl in *; try done.
  injection Hk as <- Hev2. by rewrite !asked_children_app, Hev, Hev2.
Qed.

(** A row that is passed over leaves the loop as if it were not there. *)
Lemma built_skip {A : Type} (body : A → AGraph → option (AGraph * list event))
    (x : A) (xs : list A) graph ev :
  body x graph = Some (graph, ev) → asked_children ev = [] →
  built (for_each body (x :: xs) graph) = built (for_each body xs graph).
Proof.
  intros Hx Hev. rewrite for_each_cons, Hx.
  destruct (for_each body xs graph) as [[g2 ev2]|]; [|done].
  simpl. by rewrite asked_children_app, Hev.
Qed.

Lemma build_descendants_and_parts_graph_S fuel e graph :
  build_descendants_and_parts_graph uberon_world invalid_child_line (S fuel) e graph =
  match
    for_each (λ row graph,
      if Nat.eqb (length row) 0 || Nat.ltb 1 (length row) then
        Some (graph, [Printed (invalid_child_line (length row) row)])
      else
        match row with
        | [] => Some (graph, [])
        | child :: _ =>
            if negb (is_axiom child) then
              match child with
              | Construct _ => Some (graph, [])
              | NamedClass c =>
                  if String.eqb c "Nothing" then Some (graph, [])
                  else if has_node graph c then Some (add_edge e c graph, [])
                  else build_descendants_and_parts_graph uberon_world
                         invalid_child_line fuel c (add_edge e c graph)
              end
            else Some (graph, [])
        end)
      (uberon_world e) (add_node e graph)
  with
  | None => None
  | Some (graph', ev) => Some (graph', [AskChildren e] ++ ev)
  end.
Proof. done. Qed.

Lemma build_descendants_and_parts_graph_built fuel e graph :
  built (build_descendants_and_parts_graph uberon_world invalid_child_line fuel e graph)
  = built (build_descendants_graph (named_world uberon_world) fuel e graph).
Proof.
  revert e graph. induction fuel as [|fuel IH]; intros e graph; [done|].
  rewrite build_descendants_and_parts_graph_S, build_descendants_graph_S.
  change (children_of (named_world uberon_world) e)
    with (named_children (uberon_world e)).
  change (list_direct_descendants (named_world uberon_world) e).2
    with [AskChildren e].
  generalize (add_node e graph) as g0. generalize (uberon_world e) as rows.
  intros rows g0.
  match goal with
  | |- built (match for_each ?tb rows g0 with _ => _ end)
       = built (match for_each ?ib (named_children rows) g0 with _ => _ end) =>
      assert (∀ g, built (for_each tb rows g)
                   = built (for_each ib (named_children rows) g)) as Hloop
  end.
  { induction rows as [|row rows IHrows]; intros g; [done|].
    destruct row as [|child [|child' row]].
    - rewrite (built_skip _ [] rows g [Printed (invalid_child_line 0 [])]);
        [apply IHrows|done..].
    - destruct child as [c|].
      + simpl named_children. destruct (String.eqb c "Nothing") eqn:Hc.
        * rewrite (built_skip _ [NamedClass c] rows g []); [apply IHrows| |done].
          simpl. by rewrite Hc.
        * rewrite !for_each_cons. simpl. rewrite Hc.
          apply built_bind; [|apply IHrows].
          destruct (has_node g c); [done|]. apply IH.
      + rewrite (built_skip _ [Construct repr] rows g []); [apply IHrows|done..].
    - rewrite (built_skip _ (child :: child' :: row) rows g
                 [Printed (invalid_child_line (S (S (length row)))
                             (child :: child' :: row))]);
        [destruct child; apply IHrows|done..]. }
  specialize (Hloop g0).
  destruct (for_each _ rows g0) as [[g1 ev1]|],
    (for_each _ (named_children rows) g0) as [[g1' ev1']|]; simpl in *; try done.
  injection Hloop as <- Hev. by rewrite Hev.
Qed.

End TissueBuilderProps.

Section TissueGraph.

Variables (uberon_world : string → list (list entity))
  (invalid_child_line : nat → list entity → string).

Lemma build_graph_for_tissues_built fuel (entity_names : list string) :
  built (build_graph_for_tissues uberon_world invalid_child_line fuel entity_names)
  = built (build_graph_for_cell_types (named_world uberon_world) fuel entity_names).
Proof.
  unfold build_graph_for_tissues, build_graph_for_cell_types.
  generalize empty_graph as g.
  induction entity_names as [|a names IH]; intros g; [done|].
  rewrite !for_each_cons. apply built_bind; [|apply IH].
  apply build_descendants_and_parts_graph_built.
Qed.

Lemma elem_of_named_children (rows : list (list entity)) (c : string) :
  c ∈ named_children rows ↔ [NamedClass c] ∈ rows ∧ c ≠ "Nothing".
Proof.
  unfold named_children. rewrite list_elem_of_omap. split.
  - intros (row & Hrow & Hc).
    destruct row as [|[c'|?] [|? ?]]; try done.
    destruct (String.eqb c' "Nothing") eqn:Hc'; [done|].
    injection Hc as ->. split; [done|]. by apply String.eqb_neq.
  - intros [Hrow Hne]. exists [NamedClass c]. split; [done|].
    apply String.eqb_neq in Hne. by rewrite Hne.
Qed.

End TissueGraph.

(** X3. The tissue builder builds what the is-a builder builds over the
    ontology that reports, for every entity, the named children of its
    part-of query: run on the same anchors with the same depth, both
    return, or neither does, and they return the same graph after asking
    about the same nodes in the same order. Rows of a wrong length, logical
    constructs and the bottom class [Nothing] only add printed lines. *)
Theorem tissue_builder_refines (uberon_world : string → list (list entity))
    (invalid_child_line : nat → list entity → string) (fuel : nat)
    (entity_names : list string) :
  built (build_graph_for_tissues uberon_world invalid_child_line fuel entity_names)
  = built (build_graph_for_cell_types (named_world uberon_world) fuel entity_names)
  ∧ ∀ e graph,
      built (build_descendants_and_parts_graph uberon_world invalid_child_line
               fuel e graph)
      = built (build_descendants_graph (named_world uberon_world) fuel e graph).
Proof.
  split.
  - apply build_graph_for_tissues_built.
  - intros e graph. apply build_descendants_and_parts_graph_built.
Qed.

(** X4. In the graph that [build_graph_for_tissues] returns every edge
    goes from [p], an anchor or a node reached from one, to [c], where the
    query for [p] has a row that holds the named class [c] alone and [c]
    is not [Nothing]; such [p] and [c] are joined by an edge, which goes
    from [p] to [c] unless [c] was expanded first and reports [p], the
    graph being strict and undirected. Its nodes are the anchors and the
    ends of the edges. No edge leads to [Nothing], and [Nothing] is a node
    only as an anchor. *)
Theorem tissue_graph_edges (uberon_world : string → list (list entity))
    (invalid_child_line : nat → list entity → string) (fuel : nat)
    (entity_names : list string) (graph : AGraph) (ev : list event) :
  build_graph_for_tissues uberon_world invalid_child_line fuel entity_names
  = Some (graph, ev) →
  (∀ p c, edge graph p c →
          reachable_from (named_world uberon_world) entity_names p
          ∧ [NamedClass c] ∈ uberon_world p ∧ c ≠ "Nothing")
  ∧ (∀ p c, reachable_from (named_world uberon_world) entity_names p →
            [NamedClass c] ∈ uberon_world p → c ≠ "Nothing" →
            edge graph p c ∨ edge graph c p)
  ∧ (∀ p c, edge graph p c → edge graph c p → p = c)
  ∧ ((∀ p c, reachable_from (named_world uberon_world) entity_names p →
             [NamedClass c] ∈ uberon_world p → [NamedClass p] ∈ uberon_world c →
             p = c) →
     ∀ p c, edge graph p c ↔
            reachable_from (named_world uberon_world) entity_names p
            ∧ [NamedClass c] ∈ uberon_world p ∧ c ≠ "Nothing")
  ∧ (∀ n, n ∈ nodes graph ↔
          n ∈ entity_names ∨ ∃ p, edge graph p n ∨ edge graph n p)
  ∧ (∀ p, ¬ edge graph p "Nothing")
  ∧ ("Nothing" ∈ nodes graph → "Nothing" ∈ entity_names).
Proof.
  intros Hrun.
  pose proof (build_graph_for_tissues_built uberon_world invalid_child_line
                fuel entity_names) as Hbuilt.
  rewrite Hrun in Hbuilt.
  destruct (build_graph_for_cell_types (named_world uberon_world) fuel entity_names)
    as [[graph' ev']|] eqn:Hisa; [|done].
  injection Hbuilt as <- _.
  destruct (build_graph_reached _ _ _ _ _ Hisa)
    as (Hnodes & Honly & Hall & Hone & Hclosed).
  assert (∀ p c, c ∈ children_of (named_world uberon_world) p ↔
                 [NamedClass c] ∈ uberon_world p ∧ c ≠ "Nothing") as Hchildren.
  { intros p c.
    change (children_of (named_world uberon_world) p)
      with (named_children (uberon_world p)).
    apply elem_of_named_children. }
  assert (∀ p c, edge graph p c →
            reachable_from (named_world uberon_world) entity_names p
            ∧ [NamedClass c] ∈ uberon_world p ∧ c ≠ "Nothing") as Honly'.
  { intros p c [Hp Hc]%Honly. split; [done|]. by apply Hchildren. }
  assert (reachable_from (named_world uberon_world) entity_names "Nothing" →
          "Nothing" ∈ entity_names) as Hbottom.
  { intros (a & Ha & Hreach).
    apply rtc_inv_r in Hreach as [->|(p & _ & Hp)]; [done|].
    by apply Hchildren in Hp as [_ ?]. }
  split_and!.
  - exact Honly'.
  - intros p c Hp Hrow Hne. apply Hall; [done|]. by apply Hchildren.
  - exact Hone.
  - intros Hapart p c. split; [apply Honly'|]. intros (Hp & Hrow & Hne).
    destruct (Hall p c Hp) as [He|He]; [by apply Hchildren|done|].
    destruct (Honly' c p He) as (_ & Hback & _).
    by rewrite (Hapart p c Hp Hrow Hback) in He |- *.
  - intros n. split.
    + intros (a & Ha & Hreach)%Hnodes.
      apply rtc_inv_r in Hreach as [->|(p & Hp & Hpn)]; [by left|right].
      exists p. apply Hall; [by exists a|done].
    + intros [Ha|[p [Hp|Hp]]]; [|by apply (Hclosed p n)|by apply (Hclosed n p)].
      apply Hnodes. by exists n.
  - intros p (_ & _ & Hne)%Honly'. done.
  - intros Hnode. by apply Hbottom, Hnodes.
Qed.

(** The tissue build from the eye: the lens is taken, the other three rows
    are passed over, the empty one with a printed line. *)
Lemma eye_build_run :
  build_graph_for_tissues eye_world invalid_length_line 2 ["UBERON_0000970"]
  = Some (graph_of_edges [("UBERON_0000970", "UBERON_0000965")],
          [AskChildren "UBERON_0000970"; AskChildren "UBERON_0000965";
           Printed "Invalid child length - please investigate:  0 []"]).
Proof. vm_compute. reflexivity. Qed.

Lemma tissue_graph_edges_witness :
  build_graph_for_tissues eye_world invalid_length_line 2 ["UBERON_0000970"]
  = Some (graph_of_edges [("UBERON_0000970", "UBERON_0000965")],
          [AskChildren "UBERON_0000970"; AskChildren "UBERON_0000965";
           Printed "Invalid child length - please investigate:  0 []"])
  ∧ ∀ p, ¬ edge (graph_of_edges [("UBERON_0000970", "UBERON_0000965")]) p "Nothing".
Proof.
  split; [exact eye_build_run|].
  exact (proj1 (proj2 (proj2 (proj2 (proj2 (proj2
           (tissue_graph_edges eye_world invalid_length_line 2 ["UBERON_0000970"]
              _ _ eye_build_run))))))).
Defined.

(** ** The codec, further *)

Section CodecMore.

Implicit Types (a b : ascii) (s : string).

Lemma subst_char_length a b s :
  String.length (subst_char a b s) = String.length s.
Proof. induction s as [|c s IH]; simpl; [done|]. by rewrite IH. Qed.

Lemma subst_char_inj a b s s' :
  count_char b s = 0 → count_char b s' = 0 →
  subst_char a b s = subst_char a b s' → s = s'.
Proof.
  revert s'. induction s as [|c s IH]; intros [|c' s']; simpl; try done.
  destruct (ascii_dec b c) as [->|Hbc]; [lia|].
  destruct (ascii_dec b c') as [->|Hbc']; [lia|].
  intros Hs Hs' [= Hhead Htail]. f_equal; [|by apply IH].
  destruct (ascii_dec a c) as [Hac|Hac], (ascii_dec a c') as [Hac'|Hac'];
    congruence.
Qed.

Lemma reformat_eq (dir : bool) (id : string) :
  reformat_ontology_term_id id dir =
  if dir then to_writable id else to_internal id.
Proof. by destruct dir. Qed.

End CodecMore.

(** X5. A conversion uses its separator up: the result of
    [reformat_ontology_term_id] has the length of the identifier and holds
    no separator of the form converted from, so that converting the result
    once more in the same direction raises; the conversion is not
    idempotent. *)
Theorem codec_uses_separator_up (dir : bool) (id id' : string) :
  reformat_ontology_term_id id dir = Ok id' →
  PyStr.count (if dir then "_" else ":") id' = 0
  ∧ String.length id' = String.length id
  ∧ raises (reformat_ontology_term_id id' dir).
Proof.
  rewrite !reformat_eq. destruct dir.
  - intros [Hcount ->]%to_writable_Ok.
    assert (count_char underscore (subst_char underscore colon id) = 0) as Hnone.
    { apply count_char_subst_same, underscore_colon. }
    split_and!.
    + change "_" with (String underscore EmptyString). by rewrite count_one.
    + apply subst_char_length.
    + apply to_writable_raises. rewrite Hnone. lia.
  - intros [Hcount ->]%to_internal_Ok.
    assert (count_char colon (subst_char colon underscore id) = 0) as Hnone.
    { by apply count_char_subst_same. }
    split_and!.
    + change ":" with (String colon EmptyString). by rewrite count_one.
    + apply subst_char_length.
    + apply to_internal_raises. rewrite Hnone. lia.
Qed.

Lemma codec_uses_separator_up_witness :
  reformat_ontology_term_id "UBERON_0002048" true = Ok "UBERON:0002048"
  ∧ raises (reformat_ontology_term_id "UBERON:0002048" true).
Proof.
  split; [reflexivity|].
  exact (proj2 (proj2 (codec_uses_separator_up true "UBERON_0002048"
                         "UBERON:0002048" eq_refl))).
Defined.

(** X6. Two identifiers that hold no separator of the other form and are
    converted to the same result are the same identifier: on colon-free
    identifiers [to_writable] gives distinct terms distinct keys, and on
    underscore-free ones [to_internal] does. With a separator of the other
    form the keys can clash, as those of [A_B:C] and [A:B_C] do. *)
Theorem codec_injective (dir : bool) (id1 id2 k : string) :
  PyStr.count (if dir then ":" else "_") id1 = 0 →
  PyStr.count (if dir then ":" else "_") id2 = 0 →
  reformat_ontology_term_id id1 dir = Ok k →
  reformat_ontology_term_id id2 dir = Ok k →
  id1 = id2
  ∧ to_writable "A_B:C" = to_writable "A:B_C".
Proof.
  rewrite !reformat_eq. intros H1 H2 Hk1 Hk2. split; [|reflexivity].
  destruct dir.
  - change ":" with (String colon EmptyString) in H1, H2.
    rewrite count_one in H1, H2.
    apply to_writable_Ok in Hk1 as [_ ->]. apply to_writable_Ok in Hk2 as [_ Heq].
    by apply (subst_char_inj underscore colon).
  - change "_" with (String underscore EmptyString) in H1, H2.
    rewrite count_one in H1, H2.
    apply to_internal_Ok in Hk1 as [_ ->]. apply to_internal_Ok in Hk2 as [_ Heq].
    by apply (subst_char_inj colon underscore).
Qed.

Lemma codec_injective_witness :
  PyStr.count ":" "CL_0000084" = 0
  ∧ reformat_ontology_term_id "CL_0000084" true = Ok "CL:0000084"
  ∧ "CL_0000084" = "CL_0000084"
  ∧ to_writable "A_B:C" = to_writable "A:B_C".
Proof.
  split; [reflexivity|]. split; [reflexivity|].
  exact (codec_injective true "CL_0000084" "CL_0000084" "CL:0000084"
           eq_refl eq_refl eq_refl eq_refl).
Defined.

(** ** The ancestor mapping, further *)

Section AncestorEntries.

Variables (fuel : nat) (graph : AGraph).

Implicit Types (m : gmap string (list string)) (n k a w : string).

Lemma result_map_elem {A B : Type} (f : A → result B) xs ys y :
  result_map f xs = Ok ys → (y ∈ ys ↔ ∃ x, x ∈ xs ∧ f x = Ok y).
Proof.
  rewrite result_map_Ok. intros H. split.
  - intros [i Hi]%list_elem_of_lookup_1.
    destruct (Forall2_lookup_r _ _ _ _ _ H Hi) as (x & Hx & ?).
    exists x. split; [by eapply list_elem_of_lookup_2|done].
  - intros (x & [i Hi]%list_elem_of_lookup_1 & Hfx).
    destruct (Forall2_lookup_l _ _ _ _ _ H Hi) as (y' & Hy' & ?).
    assert (y' = y) as -> by congruence. by eapply list_elem_of_lookup_2.
Qed.

(** Every entry after the loop was there before or is that of a name. *)
Lemma key_ancestors_loop_sound names m0 m ev k l :
  for_each_r (key_ancestors_entry fuel graph) names m0 = Some (Ok m, ev) →
  m !! k = Some l →
  m0 !! k = Some l
  ∨ ∃ n acc ev',
      n ∈ names ∧ list_ancestors fuel n graph ∅ = Some (acc, ev')
      ∧ to_writable n = Ok k
      ∧ result_map to_writable (elements acc) = Ok l.
Proof.
  revert m0 ev. induction names as [|x names IH]; intros m0 ev.
  - intros [= <- _] ?. by left.
  - intros (m1 & ev1 & ev2 & Hx & Hrest & _)%for_each_r_Ok_cons Hk.
    destruct (IH _ _ Hrest Hk) as [Hm1|(n & acc & ev' & Hn & ?)].
    + apply key_ancestors_entry_inv in Hx as (acc & Hacc & Hr).
      destruct (to_writable x) as [kx|] eqn:Hkx; [|done]. simpl in Hr.
      destruct (result_map to_writable (elements acc)) as [vx|] eqn:Hvx; [|done].
      injection Hr as ->.
      destruct (decide (kx = k)) as [->|Hne].
      * rewrite lookup_insert_eq in Hm1. injection Hm1 as ->.
        right. exists x, acc, ev1. split; [left|done].
      * rewrite lookup_insert_ne in Hm1 by done. by left.
    + right. exists n, acc, ev'. split; [by right|done].
Qed.

(** What the list of an entry holds: the writable forms of the terms
    reached upwards from the name, its own among them. *)
Lemma ancestor_list_elem n acc ev' k l :
  list_ancestors fuel n graph ∅ = Some (acc, ev') →
  to_writable n = Ok k →
  result_map to_writable (elements acc) = Ok l →
  k ∈ l ∧ ∀ w, w ∈ l ↔ ∃ a, reaches_up graph n a ∧ to_writable a = Ok w.
Proof.
  intros Hacc Hk Hl.
  assert (∀ a, a ∈ elements acc ↔ reaches_up graph n a) as Hreach.
  { intros a. rewrite elem_of_elements.
    rewrite (list_ancestors_reaches graph fuel n ∅ acc ev' Hacc a). set_solver. }
  assert (∀ w, w ∈ l ↔ ∃ a, reaches_up graph n a ∧ to_writable a = Ok w) as Hl'.
  { intros w. rewrite (result_map_elem _ _ _ w Hl).
    by setoid_rewrite Hreach. }
  split; [|done]. apply Hl'. exists n. split; [constructor|done].
Qed.

End AncestorEntries.

(** X7. Every entry of the mapping that [key_ancestors_by_entity] returns
    is that of a production term: its key is the writable form of the term
    and its list holds exactly the writable forms of the terms reached from
    it against the edges, the key itself among them. A production term
    that alone converts to its key has that entry. *)
Theorem ancestor_entries (fuel : nat) (entity_names : list string)
    (graph : AGraph) (m : gmap string (list string)) (ev : list event) :
  key_ancestors_by_entity fuel entity_names graph = Some (Ok m, ev) →
  (∀ k l, m !! k = Some l →
     ∃ n, n ∈ entity_names ∧ to_writable n = Ok k ∧ k ∈ l
          ∧ ∀ w, w ∈ l ↔ ∃ a, reaches_up graph n a ∧ to_writable a = Ok w)
  ∧ (∀ n k, n ∈ entity_names → to_writable n = Ok k →
       (∀ n', n' ∈ entity_names → to_writable n' = Ok k → n' = n) →
       ∃ l, m !! k = Some l
            ∧ ∀ w, w ∈ l ↔ ∃ a, reaches_up graph n a ∧ to_writable a = Ok w).
Proof.
  unfold key_ancestors_by_entity. intros Hrun.
  assert (∀ k l, m !! k = Some l →
     ∃ n, n ∈ entity_names ∧ to_writable n = Ok k ∧ k ∈ l
          ∧ ∀ w, w ∈ l ↔ ∃ a, reaches_up graph n a ∧ to_writable a = Ok w)
    as Hsound.
  { intros k l Hk.
    destruct (key_ancestors_loop_sound fuel graph _ _ _ _ k l Hrun Hk)
      as [?|(n & acc & ev' & Hn & Hacc & Hkn & Hl)]; [done|].
    destruct (ancestor_list_elem fuel graph n acc ev' k l Hacc Hkn Hl) as [Hself Hall].
    by exists n. }
  split; [exact Hsound|].
  intros n k Hn Hk Halone.
  destruct (key_ancestors_loop_Ok fuel graph _ _ _ _ Hrun) as [_ Hdom].
  destruct (proj2 (Hdom k)) as [l Hl]; [right; by exists n|].
  exists l. split; [done|].
  destruct (Hsound k l Hl) as (n' & Hn' & Hk' & _ & Hall).
  by rewrite (Halone n' Hn' Hk') in Hall.
Qed.

(** The ancestor mapping of C and B over the diamond. *)
Lemma diamond_ancestors_run :
  key_ancestors_by_entity 3 ["T_C"; "T_B"] tier_diamond
  = Some (Ok (<["T:C" := ["T:C"; "T:A"; "T:B"]]> (<["T:B" := ["T:A"; "T:B"]]> ∅)),
          [AskPredecessors "T_C"; AskPredecessors "T_A";
           AskPredecessors "T_B"; AskPredecessors "T_A";
           AskPredecessors "T_B"; AskPredecessors "T_A"]).
Proof. vm_compute. reflexivity. Qed.

Lemma ancestor_entries_witness :
  key_ancestors_by_entity 3 ["T_C"; "T_B"] tier_diamond
  = Some (Ok (<["T:C" := ["T:C"; "T:A"; "T:B"]]> (<["T:B" := ["T:A"; "T:B"]]> ∅)),
          [AskPredecessors "T_C"; AskPredecessors "T_A";
           AskPredecessors "T_B"; AskPredecessors "T_A";
           AskPredecessors "T_B"; AskPredecessors "T_A"])
  ∧ ∀ k l,
      (<["T:C" := ["T:C"; "T:A"; "T:B"]]> (<["T:B" := ["T:A"; "T:B"]]> ∅)
         : gmap string (list string)) !! k = Some l →
      ∃ n, n ∈ ["T_C"; "T_B"] ∧ to_writable n = Ok k ∧ k ∈ l
           ∧ ∀ w, w ∈ l ↔ ∃ a, reaches_up tier_diamond n a ∧ to_writable a = Ok w.
Proof.
  split; [exact diamond_ancestors_run|].
  exact (proj1 (ancestor_entries 3 ["T_C"; "T_B"] tier_diamond _ _
                  diamond_ancestors_run)).
Defined.

(** X8. A cell-culture or organoid production term is its own and only
    ancestor: when such a term alone converts to its key, the mapping that
    [key_ancestors_by_entity] returns lists under that key the key alone,
    whatever the graph holds above the term or above its stem. *)
Theorem variant_is_own_ancestor (fuel : nat) (entity_names : list string)
    (graph : AGraph) (m : gmap string (list string)) (ev : list event)
    (n k : string) :
  key_ancestors_by_entity fuel entity_names graph = Some (Ok m, ev) →
  n ∈ entity_names →
  is_cell_culture_or_organoid n = true →
  to_writable n = Ok k →
  (∀ n', n' ∈ entity_names → to_writable n' = Ok k → n' = n) →
  m !! k = Some [k].
Proof.
  unfold key_ancestors_by_entity. intros Hrun Hn Hvariant Hk Halone.
  destruct (key_ancestors_loop_Ok fuel graph _ _ _ _ Hrun) as [_ Hdom].
  destruct (proj2 (Hdom k)) as [l Hl]; [right; by exists n|].
  rewrite Hl. f_equal.
  destruct (key_ancestors_loop_sound fuel graph _ _ _ _ k l Hrun Hl)
    as [?|(n' & acc & ev' & Hn' & Hacc & Hk' & Hconv)]; [done|].
  rewrite (Halone n' Hn' Hk') in Hacc.
  destruct fuel as [|fuel']; [done|].
  rewrite list_ancestors_S, Hvariant in Hacc. injection Hacc as <- _.
  rewrite union_empty_l_L, elements_singleton in Hconv.
  simpl in Hconv. rewrite Hk in Hconv. simpl in Hconv. by injection Hconv as <-.
Qed.

(** The graph with an edge from the brain to its organoid. *)
Lemma organoid_ancestors_run :
  key_ancestors_by_entity 1 ["UBERON_0000955 (organoid)"]
    (graph_of_edges [("UBERON_0000955", "UBERON_0000955 (organoid)")])
  = Some (Ok {["UBERON:0000955 (organoid)" := ["UBERON:0000955 (organoid)"]]}, []).
Proof. vm_compute. reflexivity. Qed.

Lemma variant_is_own_ancestor_witness :
  key_ancestors_by_entity 1 ["UBERON_0000955 (organoid)"]
    (graph_of_edges [("UBERON_0000955", "UBERON_0000955 (organoid)")])
  = Some (Ok {["UBERON:0000955 (organoid)" := ["UBERON:0000955 (organoid)"]]}, [])
  ∧ ({["UBERON:0000955 (organoid)" := ["UBERON:0000955 (organoid)"]]}
       : gmap string (list string)) !! "UBERON:0000955 (organoid)"
    = Some ["UBERON:0000955 (organoid)"].
Proof.
  split; [exact organoid_ancestors_run|].
  refine (variant_is_own_ancestor 1 ["UBERON_0000955 (organoid)"] _ _ _
            "UBERON_0000955 (organoid)" "UBERON:0000955 (organoid)"
            organoid_ancestors_run _ eq_refl eq_refl _).
  - left.
  - by intros n' ->%list_elem_of_singleton _.
Defined.

Lemma to_writable_form (x y : string) :
  to_writable x = Ok y → PyStr.count "_" y = 0 ∧ (1 ≤ PyStr.count ":" y)%nat.
Proof.
  intros [Hcount ->]%to_writable_Ok.
  change "_" with (String underscore EmptyString).
  change ":" with (String colon EmptyString).
  rewrite !count_one. split.
  - apply count_char_subst_same, underscore_colon.
  - rewrite count_char_subst_other by apply underscore_colon. lia.
Qed.

Lemma result_map_to_writable_form (xs ys : list string) (w : string) :
  result_map to_writable xs = Ok ys → w ∈ ys →
  PyStr.count "_" w = 0 ∧ (1 ≤ PyStr.count ":" w)%nat.
Proof.
  intros Hys Hw. apply (result_map_elem _ _ _ w Hys) in Hw as (x & _ & Hx).
  by apply (to_writable_form x).
Qed.

(** X9. Both mappings are written in the colon form throughout: every
    key and every listed identifier of the mapping that
    [key_ancestors_by_entity] returns, and of the one that
    [write_descendants_by_entity] returns, holds no underscore and at least
    one colon. *)
Theorem mappings_in_writable_form :
  (∀ fuel entity_names graph m ev k l w,
     key_ancestors_by_entity fuel entity_names graph = Some (Ok m, ev) →
     m !! k = Some l → w = k ∨ w ∈ l →
     PyStr.count "_" w = 0 ∧ (1 ≤ PyStr.count ":" w)%nat)
  ∧ (∀ fuel entity_hierarchy graph m ev k l w,
       write_descendants_by_entity fuel entity_hierarchy graph = Some (Ok m, ev) →
       m !! k = Some l → w = k ∨ w ∈ l →
       PyStr.count "_" w = 0 ∧ (1 ≤ PyStr.count ":" w)%nat).
Proof.
  split.
  - intros fuel names graph m ev k l w Hrun Hk Hw.
    unfold key_ancestors_by_entity in Hrun.
    destruct (key_ancestors_loop_sound fuel graph _ _ _ _ k l Hrun Hk)
      as [?|(n & acc & ev' & _ & _ & Hkn & Hl)]; [done|].
    destruct Hw as [->|Hw].
    + by apply (to_writable_form n).
    + by apply (result_map_to_writable_form (elements acc) l).
  - intros fuel tiers graph m ev k l w Hrun Hk Hw.
    rewrite write_descendants_rounds in Hrun.
    destruct (rounds_sound fuel graph _ _ _ _ k l Hrun Hk)
      as [?|(upper & tier & lower & t & D & ev' & _ & _ & _ & _ & _ & Hkt & Hl)];
      [done|].
    destruct Hw as [->|Hw].
    + by apply (to_writable_form t).
    + by apply (result_map_to_writable_form (tier_kept D lower t) l).
Qed.

Lemma mappings_in_writable_form_witness :
  PyStr.count "_" "T:A" = 0 ∧ (1 ≤ PyStr.count ":" "T:A")%nat.
Proof.
  refine (proj1 mappings_in_writable_form 3 ["T_C"; "T_B"] tier_diamond _ _
            "T:C" ["T:C"; "T:A"; "T:B"] "T:A" diamond_ancestors_run _ _).
  - reflexivity.
  - right. by_evaluation.
Defined.

(** ** The closure traversals, further *)

Section ClosureMore.

Variable graph : AGraph.

Implicit Types (t n c : string).

Lemma reaches_down_tc_1 t n : reaches_down graph t n → tc (edge graph) t n.
Proof.
  induction 1 as [t c _ _ He|t c n _ _ He _ IH]; [by apply tc_once|].
  by eapply tc_l.
Qed.

Lemma reaches_down_tc t n :
  closed_graph graph →
  (∀ m, m ∈ nodes graph → is_cell_culture_or_organoid m = false) →
  reaches_down graph t n ↔ tc (edge graph) t n.
Proof.
  intros Hclosed Hplain. split; [apply reaches_down_tc_1|].
  induction 1 as [t n He|t c n He _ IH].
  - destruct (Hclosed t n He) as [Ht _].
    apply reaches_down_child; [by apply Hplain|done..].
  - destruct (Hclosed t c He) as [Ht _].
    eapply reaches_down_step; [by apply Hplain|done|exact He|exact IH].
Qed.

(** A walk down from [t] that comes back to [t] runs inside a trap. *)
Lemma reaches_down_trap t n :
  reaches_down graph t n →
  ∃ trap : list string, t ∈ trap
    ∧ ∀ x, x ∈ trap →
        is_cell_culture_or_organoid x = false ∧ x ∈ nodes graph
        ∧ ∃ c, (c ∈ trap ∨ c = n) ∧ edge graph x c.
Proof.
  induction 1 as [t c Hvar Hnode He|t c n Hvar Hnode He _ (trap & Hc & Htrap)].
  - exists [t]. split; [left|].
    intros x ->%list_elem_of_singleton. split_and!; [done..|]. exists c. auto.
  - exists (t :: trap). split; [left|].
    intros x [->|Hx]%elem_of_cons.
    + split_and!; [done..|]. exists c. split; [left; by right|done].
    + destruct (Htrap x Hx) as (? & ? & c' & [?| ->] & ?); split_and!; try done.
      * exists c'. split; [left; by right|done].
      * exists n. auto.
Qed.

End ClosureMore.

(** X10. [descendants_of] never lists the term it starts from: a call that
    returns has not found the term among its own descendants, since a walk
    that comes back to the term keeps the call from returning. *)
Theorem descendants_exclude_start (fuel : nat) (t : string) (graph : AGraph)
    (D : gset string) (ev : list event) :
  descendants_of fuel t graph = Some (D, ev) → t ∉ D.
Proof.
  unfold descendants_of. intros Hrun Hin.
  apply (descendants_of_reaches fuel graph t D ev Hrun) in Hin.
  destruct (reaches_down_trap graph t t Hin) as (trap & Ht & Htrap).
  assert (trapped_down graph trap) as Htrapped.
  { intros x Hx. destruct (Htrap x Hx) as (? & ? & c & Hc & ?).
    split_and!; [done..|]. exists c. split; [|done].
    by destruct Hc as [?| ->]. }
  by rewrite (list_descendants_trapped graph trap Htrapped fuel t ∅ Ht) in Hrun.
Qed.

Lemma descendants_exclude_start_witness :
  descendants_of 3 "A" diamond
  = Some ({["B"; "C"]},
          [AskSuccessors "A"; AskSuccessors "B";
           AskSuccessors "C"; AskSuccessors "C"])
  ∧ "A" ∉ ({["B"; "C"]} : gset string).
Proof.
  split; [exact (descendants_of_A_diamond 3 (le_n 3))|].
  exact (descendants_exclude_start 3 "A" diamond _ _
           (descendants_of_A_diamond 3 (le_n 3))).
Defined.

(** X11. On a graph whose edges join nodes and that has no cell-culture or
    organoid variant among its nodes the two traversals are each other's
    converse: [n] is a descendant of [t] exactly when a path of one edge or
    more leads from [t] to [n], and [t] is an ancestor of [n] exactly when
    [t] is [n] or [n] is a descendant of [t]. *)
Theorem closures_converse (graph : AGraph) (fuel fuel' : nat) (t n : string)
    (D A : gset string) (ev ev' : list event) :
  closed_graph graph →
  (∀ m, m ∈ nodes graph → is_cell_culture_or_organoid m = false) →
  descendants_of fuel t graph = Some (D, ev) →
  ancestors_of fuel' n graph = Some (A, ev') →
  (n ∈ D ↔ tc (edge graph) t n)
  ∧ (t ∈ A ↔ t = n ∨ n ∈ D).
Proof.
  unfold descendants_of, ancestors_of. intros Hclosed Hplain HD HA.
  assert (n ∈ D ↔ tc (edge graph) t n) as Hdown.
  { rewrite (descendants_of_reaches fuel graph t D ev HD n).
    by apply reaches_down_tc. }
  split; [exact Hdown|].
  rewrite Hdown, (list_ancestors_reaches graph fuel' n ∅ A ev' HA t).
  rewrite (reaches_up_rtc graph n t Hclosed Hplain), rtc_tc. set_solver.
Qed.

Lemma diamond_closed : closed_graph diamond.
Proof.
  assert (Forall (λ e, e.1 ∈ nodes diamond ∧ e.2 ∈ nodes diamond) (edges diamond))
    as H by by_evaluation.
  intros u v He. exact (proj1 (Forall_forall _ _) H (u, v) He).
Qed.

Lemma diamond_plain m :
  m ∈ nodes diamond → is_cell_culture_or_organoid m = false.
Proof.
  assert (Forall (λ m, is_cell_culture_or_organoid m = false) (nodes diamond))
    as H by by_evaluation.
  exact (proj1 (Forall_forall _ _) H m).
Qed.

Lemma closures_converse_witness :
  closed_graph diamond
  ∧ (∀ m, m ∈ nodes diamond → is_cell_culture_or_organoid m = false)
  ∧ ("C" ∈ ({["B"; "C"]} : gset string) ↔ tc (edge diamond) "A" "C")
  ∧ ("A" ∈ ({["A"; "B"; "C"]} : gset string)
     ↔ "A" = "C" ∨ "C" ∈ ({["B"; "C"]} : gset string)).
Proof.
  split; [exact diamond_closed|]. split; [exact diamond_plain|].
  exact (closures_converse diamond 3 3 "A" "C" _ _ _ _ diamond_closed diamond_plain
           (descendants_of_A_diamond 3 (le_n 3)) (ancestors_of_C_diamond 3 (le_n 3))).
Defined.

Section BuiltClosure.

Variable cl_world : string → option (list string).
Variable anchors : list string.

Lemma reachable_step p c :
  reachable_from cl_world anchors p → reports cl_world p c →
  reachable_from cl_world anchors c.
Proof. intros (a & Ha & Hp) Hc. exists a. split; [done|]. by eapply rtc_r. Qed.

Lemma reachable_tc p n :
  reachable_from cl_world anchors p → tc (reports cl_world) p n →
  tc (λ u v, reachable_from cl_world anchors u ∧ reports cl_world u v) p n.
Proof.
  intros Hp Hpn. induction Hpn as [p n Hpn|p c n Hpc _ IH].
  - by apply tc_once.
  - eapply tc_l; [done|]. apply IH. by eapply reachable_step.
Qed.

End BuiltClosure.

(** X12. The two stages composed: over an ontology that reaches no
    cell-culture or organoid name from the anchors, and in which no two
    names reached report each other, the ancestors found in the built
    graph for a term are the term itself and the terms reached from an
    anchor that have the term below them in the ontology, through one
    reported child or more. Ancestors that no anchor reaches are not
    found. *)
Theorem built_graph_ancestors (cl_world : string → option (list string))
    (fuel fuel' : nat) (anchors : list string) (graph : AGraph) (t : string)
    (A : gset string) (ev ev' : list event) :
  build_graph_for_cell_types cl_world fuel anchors = Some (graph, ev) →
  (∀ n, reachable_from cl_world anchors n → is_cell_culture_or_organoid n = false) →
  (∀ p c, reachable_from cl_world anchors p → c ∈ children_of cl_world p →
          p ∈ children_of cl_world c → p = c) →
  ancestors_of fuel' t graph = Some (A, ev') →
  ∀ a, a ∈ A ↔
       a = t ∨ (reachable_from cl_world anchors a ∧ tc (reports cl_world) a t).
Proof.
  intros Hbuild Hplain Hapart HA a.
  destruct (build_graph_reached cl_world fuel anchors graph ev Hbuild)
    as (Hnodes & _ & _ & _ & Hclosed).
  pose proof (build_graph_edges cl_world fuel anchors graph ev Hbuild Hapart)
    as Hedges.
  assert (∀ m, m ∈ nodes graph → is_cell_culture_or_organoid m = false) as Hplain'.
  { intros m Hm. by apply Hplain, Hnodes. }
  unfold ancestors_of in HA.
  rewrite (list_ancestors_reaches graph fuel' t ∅ A ev' HA a).
  rewrite (reaches_up_rtc graph t a Hclosed Hplain'), rtc_tc.
  clear HA.
  assert (tc (edge graph) a t ↔
          reachable_from cl_world anchors a ∧ tc (reports cl_world) a t) as ->.
  { split.
    - intros Htc. split.
      + destruct Htc as [a t He|a c t He _]; by apply Hedges in He as [? _].
      + induction Htc as [a t He|a c t He _ IH].
        * apply tc_once. by apply Hedges in He as [_ ?].
        * eapply tc_l; [|exact IH]. by apply Hedges in He as [_ ?].
    - intros [Ha Htc].
      pose proof (reachable_tc cl_world anchors a t Ha Htc) as Htc'.
      clear Ha Htc. induction Htc' as [a t He|a c t He _ IH].
      + apply tc_once. by apply Hedges.
      + eapply tc_l; [|exact IH]. by apply Hedges. }
  set_solver.
Qed.

Lemma diamond_world_reached (n : string) :
  reachable_from diamond_world ["A"; "B"] n → n ∈ ["A"; "B"; "C"].
Proof.
  exact (proj2 (proj1 (build_graph_reached diamond_world 3 ["A"; "B"] diamond _
                         diamond_build_run) n)).
Qed.

Lemma diamond_world_apart (p c : string) :
  reachable_from diamond_world ["A"; "B"] p →
  c ∈ children_of diamond_world p → p ∈ children_of diamond_world c → p = c.
Proof.
  intros Hp%diamond_world_reached. revert Hp.
  rewrite !elem_of_cons, elem_of_nil. intros [->|[->|[->|[]]]].
  - change (children_of diamond_world "A") with ["B"; "C"].
    rewrite !elem_of_cons, elem_of_nil. intros [->|[->|[]]].
    + change (children_of diamond_world "B") with ["C"].
      by intros ?%list_elem_of_singleton.
    + change (children_of diamond_world "C") with (@nil string).
      by intros ?%elem_of_nil.
  - change (children_of diamond_world "B") with ["C"].
    intros ->%list_elem_of_singleton.
    change (children_of diamond_world "C") with (@nil string).
    by intros ?%elem_of_nil.
  - change (children_of diamond_world "C") with (@nil string).
    by intros ?%elem_of_nil.
Qed.

Lemma built_graph_ancestors_witness :
  build_graph_for_cell_types diamond_world 3 ["A"; "B"]
  = Some (diamond,
          [AskChildren "A"; AskChildren "B"; AskChildren "C"; AskChildren "B"])
  ∧ (∀ n, reachable_from diamond_world ["A"; "B"] n →
          is_cell_culture_or_organoid n = false)
  ∧ ∀ a, a ∈ ({["A"; "B"; "C"]} : gset string) ↔
         a = "C" ∨ (reachable_from diamond_world ["A"; "B"] a
                    ∧ tc (reports diamond_world) a "C").
Proof.
  assert (∀ n, reachable_from diamond_world ["A"; "B"] n →
               is_cell_culture_or_organoid n = false) as Hplain.
  { intros n Hn. apply diamond_plain. by apply diamond_world_reached. }
  split; [exact diamond_build_run|]. split; [exact Hplain|].
  exact (built_graph_ancestors diamond_world 3 3 ["A"; "B"] diamond "C" _ _ _
           diamond_build_run Hplain diamond_world_apart
           (ancestors_of_C_diamond 3 (le_n 3))).
Defined.

(** ** The descendant mapping, when it raises *)

Lemma for_each_r_Raise {A S : Type} (body : A → S → option (result S * list event))
    (xs : list A) (st : S) (e : exn) (ev : list event) :
  for_each_r body xs st = Some (Raise e, ev) →
  ∃ x st1 ev1, x ∈ xs ∧ body x st1 = Some (Raise e, ev1).
Proof.
  revert st ev. induction xs as [|x xs IH]; intros st ev; [done|].
  rewrite for_each_r_cons.
  destruct (body x st) as [[[st1|e1] ev1]|] eqn:Hx; [| |done].
  - destruct (for_each_r body xs st1) as [[r ev2]|] eqn:Hrest; [|done].
    intros [= -> <-]. destruct (IH _ _ Hrest) as (y & st' & ev' & Hy & Hbody).
    exists y, st', ev'. split; [by right|done].
  - intros [= -> <-]. exists x, st, ev1. split; [left|done].
Qed.

Section DescendantMappingRaises.

Variables (fuel : nat) (graph : AGraph).

Implicit Types (m : gmap string (list string)) (t k : string)
  (tier : list string) (tiers lower upper : list (list string)).

(** An entry raises only for a term with a kept list that is not empty,
    when the term or a member of the list is not converted. *)
Lemma write_descendants_entry_Raise lower t m e ev :
  write_descendants_entry fuel graph (concat lower)
    (key_organoids_by_ontology_term_id (concat lower)) t m = Some (Raise e, ev) →
  ∃ D, list_descendants fuel t graph ∅ = Some (D, ev)
       ∧ tier_kept D lower t ≠ []
       ∧ (raises (to_writable t)
          ∨ ∃ x, x ∈ tier_kept D lower t ∧ raises (to_writable x)).
Proof.
  intros (D & HD & Hr)%write_descendants_entry_inv. exists D. split; [done|].
  fold (tier_kept D lower t) in Hr. case_bool_decide as Hkept; [done|].
  split; [done|].
  destruct (to_writable t) as [k|e'] eqn:Ht; [|left; by exists e'].
  right. apply result_map_raises.
  destruct (result_map to_writable (tier_kept D lower t)) as [v|e']; [done|].
  by exists e'.
Qed.

Lemma rounds_Raise tiers m0 e ev :
  rounds fuel graph tiers m0 = Some (Raise e, ev) →
  ∃ upper tier lower t D ev',
    tiers = upper ++ tier :: lower ∧ lower ≠ [] ∧ t ∈ tier
    ∧ list_descendants fuel t graph ∅ = Some (D, ev')
    ∧ tier_kept D lower t ≠ []
    ∧ (raises (to_writable t)
       ∨ ∃ x, x ∈ tier_kept D lower t ∧ raises (to_writable x)).
Proof.
  revert m0 ev. induction tiers as [|tier lower IH]; intros m0 ev; [done|].
  rewrite rounds_cons.
  assert (∀ m1 ev2, rounds fuel graph lower m1 = Some (Raise e, ev2) →
            ∃ upper tier0 lower0 t D ev',
              tier :: lower = upper ++ tier0 :: lower0 ∧ lower0 ≠ [] ∧ t ∈ tier0
              ∧ list_descendants fuel t graph ∅ = Some (D, ev')
              ∧ tier_kept D lower0 t ≠ []
              ∧ (raises (to_writable t)
                 ∨ ∃ x, x ∈ tier_kept D lower0 t ∧ raises (to_writable x)))
    as Hbelow.
  { intros m1 ev2 (upper & tier0 & lower0 & t & D & ev' & -> & Hrest)%IH.
    by exists (tier :: upper), tier0, lower0, t, D, ev'. }
  case_bool_decide as Hlower.
  - destruct (rounds fuel graph lower m0) as [[r ev2]|] eqn:Hrest; [|done].
    intros [= -> <-]. by eapply Hbelow.
  - destruct (for_each_r _ tier m0) as [[[m1|e1] ev1]|] eqn:Htier; [| |done].
    + destruct (rounds fuel graph lower m1) as [[r ev2]|] eqn:Hrest; [|done].
      intros [= -> <-]. by eapply Hbelow.
    + intros [= -> <-].
      apply for_each_r_Raise in Htier as (t & m1 & ev1' & Ht & Hentry).
      apply write_descendants_entry_Raise in Hentry as (D & HD & Hkept & Hbad).
      by exists [], tier, lower, t, D, ev1'.
Qed.

(** A round that ends normally has converted every term with a kept list
    that is not empty, and the list. *)
Lemma rounds_converted tiers m0 m ev upper tier lower t D ev' :
  rounds fuel graph tiers m0 = Some (Ok m, ev) →
  tiers = upper ++ tier :: lower → lower ≠ [] → t ∈ tier →
  list_descendants fuel t graph ∅ = Some (D, ev') →
  tier_kept D lower t ≠ [] →
  ∃ k l, to_writable t = Ok k ∧ result_map to_writable (tier_kept D lower t) = Ok l.
Proof.
  intros Hrun -> Hlower Ht HD Hkept.
  apply rounds_upper in Hrun as (m1 & ev1 & Hrun).
  apply rounds_Ok_cons in Hrun as (m2 & ev2 & ev3 & _ & [[? _]|[_ Htier]]); [done|].
  exact (tier_loop_converted fuel graph _ _ tier m1 m2 ev2 t D ev' Htier Ht HD Hkept).
Qed.

End DescendantMappingRaises.

(** X13. [write_descendants_by_entity], when it returns, raises exactly
    when some term of a tier that has lower tiers has a kept list that is
    not empty and the term, or a member of the list, does not hold exactly
    one underscore. A malformed term whose kept list is empty, and every
    term of the last tier, is passed over without an error. *)
Theorem descendant_mapping_raises (fuel : nat)
    (entity_hierarchy : list (list string)) (graph : AGraph)
    (r : result (gmap string (list string))) (ev : list event) :
  write_descendants_by_entity fuel entity_hierarchy graph = Some (r, ev) →
  raises r ↔
  ∃ upper tier lower t D ev',
    entity_hierarchy = upper ++ tier :: lower ∧ lower ≠ [] ∧ t ∈ tier
    ∧ descendants_of fuel t graph = Some (D, ev')
    ∧ tier_kept D lower t ≠ []
    ∧ (PyStr.count "_" t ≠ 1
       ∨ ∃ x, x ∈ tier_kept D lower t ∧ PyStr.count "_" x ≠ 1).
Proof.
  rewrite write_descendants_rounds. unfold descendants_of. intros Hrun.
  change "_" with (String underscore EmptyString).
  setoid_rewrite count_one. setoid_rewrite <-to_writable_raises.
  split.
  - intros [e ->]. by apply (rounds_Raise fuel graph entity_hierarchy ∅ e ev).
  - intros (upper & tier & lower & t & D & ev' & Htiers & Hlower & Ht & HD
            & Hkept & Hbad).
    destruct r as [m|e]; [|by exists e].
    destruct (rounds_converted fuel graph entity_hierarchy ∅ m ev upper tier
                lower t D ev' Hrun Htiers Hlower Ht HD Hkept) as (k & l & Hk & Hl).
    destruct Hbad as [[e He]|(x & Hx & [e He])]; [congruence|].
    destruct (result_map_Ok_elem to_writable _ _ x Hl Hx) as (y & Hy & _).
    congruence.
Qed.

Lemma malformed_run :
  write_descendants_by_entity 2 [["bad"]; ["T_C"]] malformed_graph
  = Some (Raise (ValueError
            "bad is an invalid ontology term id, it must contain exactly one '_'"),
          [AskSuccessors "bad"; AskSuccessors "T_C"]).
Proof. vm_compute. reflexivity. Qed.

Lemma malformed_passed_over_run :
  write_descendants_by_entity 2 [["bad"]; ["T_B"]] malformed_graph
  = Some (Ok ∅, [AskSuccessors "bad"; AskSuccessors "T_C"]).
Proof. vm_compute. reflexivity. Qed.

Lemma descendant_mapping_raises_witness :
  (write_descendants_by_entity 2 [["bad"]; ["T_C"]] malformed_graph
   = Some (Raise (ValueError
             "bad is an invalid ontology term id, it must contain exactly one '_'"),
           [AskSuccessors "bad"; AskSuccessors "T_C"])
   ∧ write_descendants_by_entity 2 [["bad"]; ["T_B"]] malformed_graph
     = Some (Ok ∅, [AskSuccessors "bad"; AskSuccessors "T_C"]))
  ∧ (raises (Ok ∅ : result (gmap string (list string))) ↔
     ∃ upper tier lower t D ev',
       [["bad"]; ["T_B"]] = upper ++ tier :: lower ∧ lower ≠ [] ∧ t ∈ tier
       ∧ descendants_of 2 t malformed_graph = Some (D, ev')
       ∧ tier_kept D lower t ≠ []
       ∧ (PyStr.count "_" t ≠ 1
          ∨ ∃ x, x ∈ tier_kept D lower t ∧ PyStr.count "_" x ≠ 1)).
Proof.
  split; [exact (conj malformed_run malformed_passed_over_run)|].
  exact (descendant_mapping_raises 2 [["bad"]; ["T_B"]] malformed_graph _ _
           malformed_passed_over_run).
Defined.

(** ** Production terms *)

Section ProductionTerms.

Implicit Types (terms : list term) (datasets : list dataset) (x id : string).

Lemma add_prod_terms_cons term terms prodSet :
  add_prod_terms (term :: terms) prodSet =
  result_bind (to_internal (ontology_term_id term))
    (λ id, add_prod_terms terms (prodSet ∪ {[id]})).
Proof.
  unfold add_prod_terms, to_internal. cbn [for_each_e].
  by destruct (reformat_ontology_term_id (ontology_term_id term) false).
Qed.

Lemma add_prod_terms_Ok terms (prodSet prodSet' : gset string) :
  add_prod_terms terms prodSet = Ok prodSet' →
  ∀ x, x ∈ prodSet' ↔
       x ∈ prodSet ∨ ∃ id, id ∈ map ontology_term_id terms ∧ to_internal id = Ok x.
Proof.
  revert prodSet. induction terms as [|term terms IH]; intros prodSet.
  - intros [= <-] x. split; [by left|]. by intros [?|(? & ?%elem_of_nil & _)].
  - rewrite add_prod_terms_cons.
    destruct (to_internal (ontology_term_id term)) as [id|] eqn:Hid; [|done].
    simpl. intros Hrest x. rewrite (IH _ Hrest x), elem_of_union, elem_of_singleton.
    split.
    + intros [[?| ->]|(id' & Hin & Hconv)]; [by left| |].
      * right. exists (ontology_term_id term). split; [left|done].
      * right. exists id'. split; [by right|done].
    + intros [?|(id' & [->|Hin]%elem_of_cons & Hconv)].
      * left. by left.
      * left. right. congruence.
      * right. by exists id'.
Qed.

Lemma add_prod_terms_raises terms (prodSet : gset string) :
  raises (add_prod_terms terms prodSet) ↔
  ∃ id, id ∈ map ontology_term_id terms ∧ raises (to_internal id).
Proof.
  revert prodSet. induction terms as [|term terms IH]; intros prodSet.
  - split; [by intros [? ?]|by intros (? & ?%elem_of_nil & _)].
  - rewrite add_prod_terms_cons.
    destruct (to_internal (ontology_term_id term)) as [id|e] eqn:Hid; simpl.
    + rewrite IH. split.
      * intros (id' & Hin & Hbad). exists id'. split; [by right|done].
      * intros (id' & [->|Hin]%elem_of_cons & Hbad).
        -- rewrite Hid in Hbad. by destruct Hbad.
        -- by exists id'.
    + split; [|by exists e]. intros _. exists (ontology_term_id term).
      split; [left|]. rewrite Hid. by exists e.
Qed.

Lemma to_internal_replace id x :
  to_internal id = Ok x ↔ PyStr.count ":" id = 1 ∧ x = PyStr.replace ":" "_" id.
Proof.
  unfold to_internal, reformat_ontology_term_id.
  destruct (Nat.eqb_spec (PyStr.count ":" id) 1) as [Hone|Hone]; cbn [negb].
  - split; [by intros [= <-]|by intros [_ ->]].
  - split; [done|by intros [? _]].
Qed.

Lemma datasets_loop_Ok datasets (T0 C0 T C : gset string) :
  for_each_e add_dataset datasets (T0, C0) = Ok (T, C) →
  (∀ x, x ∈ T ↔ x ∈ T0 ∨ ∃ id, id ∈ tissue_ids datasets ∧ to_internal id = Ok x)
  ∧ (∀ x, x ∈ C ↔
          x ∈ C0 ∨ ∃ id, id ∈ cell_type_ids datasets ∧ to_internal id = Ok x).
Proof.
  revert T0 C0. induction datasets as [|d datasets IH]; intros T0 C0.
  - intros [= <- <-]. split; intros x; (split; [by left|]);
      by intros [?|(? & ?%elem_of_nil & _)].
  - cbn [for_each_e]. unfold add_dataset at 1.
    destruct (add_prod_terms (tissue d) T0) as [T1|] eqn:HT; [|done].
    cbn [result_bind].
    destruct (add_prod_terms (cell_type d) C0) as [C1|] eqn:HC; [|done].
    cbn [result_bind]. intros [HT' HC']%IH.
    unfold tissue_ids, cell_type_ids. cbn [map concat].
    split; intros x.
    + rewrite HT', (add_prod_terms_Ok _ _ _ HT x).
      setoid_rewrite elem_of_app. naive_solver.
    + rewrite HC', (add_prod_terms_Ok _ _ _ HC x).
      setoid_rewrite elem_of_app. naive_solver.
Qed.

Lemma datasets_loop_raises datasets (sets : gset string * gset string) :
  raises (for_each_e add_dataset datasets sets) ↔
  ∃ id, (id ∈ tissue_ids datasets ∨ id ∈ cell_type_ids datasets)
        ∧ raises (to_internal id).
Proof.
  revert sets. induction datasets as [|d datasets IH]; intros [T0 C0].
  - split; [by intros [? ?]|by intros (? & [?%elem_of_nil|?%elem_of_nil] & _)].
  - cbn [for_each_e]. unfold add_dataset at 1.
    unfold tissue_ids, cell_type_ids. cbn [map concat].
    setoid_rewrite elem_of_app.
    pose proof (add_prod_terms_raises (tissue d) T0) as HT.
    pose proof (add_prod_terms_raises (cell_type d) C0) as HC.
    destruct (add_prod_terms (tissue d) T0) as [T1|e1]; cbn [result_bind].
    + destruct (add_prod_terms (cell_type d) C0) as [C1|e2]; cbn [result_bind].
      * rewrite IH. unfold tissue_ids, cell_type_ids. split.
        -- naive_solver.
        -- intros (id & [[Hid|Hid]|[Hid|Hid]] & Hbad).
           ++ assert (raises (Ok T1 : result (gset string))) as [? ?]; [|done].
              apply HT. by exists id.
           ++ exists id. auto.
           ++ assert (raises (Ok C1 : result (gset string))) as [? ?]; [|done].
              apply HC. by exists id.
           ++ exists id. auto.
      * split; [|by exists e2]. intros _.
        destruct (proj1 HC) as (id & Hid & Hbad); [by exists e2|].
        exists id. auto.
    + split; [|by exists e1]. intros _.
      destruct (proj1 HT) as (id & Hid & Hbad); [by exists e1|].
      exists id. auto.
Qed.

End ProductionTerms.

(** X14. The cell that loads the terms in production raises exactly when
    an identifier of a tissue or of a cell type of some dataset does not
    hold exactly one colon. Otherwise [prod_tissues] holds, without
    repetition, the identifiers of the tissues with the colon replaced by an
    underscore, [prod_cell_types] those of the cell types, and the two
    lines printed give their numbers. *)
Theorem production_terms_loaded (datasets : list dataset) :
  (raises (load_prod_terms datasets) ↔
   ∃ id, (id ∈ tissue_ids datasets ∨ id ∈ cell_type_ids datasets)
         ∧ PyStr.count ":" id ≠ 1)
  ∧ ∀ prod_tissues prod_cell_types ev,
      load_prod_terms datasets = Ok (prod_tissues, prod_cell_types, ev) →
      NoDup prod_tissues ∧ NoDup prod_cell_types
      ∧ (∀ x, x ∈ prod_tissues ↔
              ∃ id, id ∈ tissue_ids datasets ∧ PyStr.count ":" id = 1
                    ∧ x = PyStr.replace ":" "_" id)
      ∧ (∀ x, x ∈ prod_cell_types ↔
              ∃ id, id ∈ cell_type_ids datasets ∧ PyStr.count ":" id = 1
                    ∧ x = PyStr.replace ":" "_" id)
      ∧ printed ev
        = [pretty (length prod_tissues) +:+ "  prod tissues found";
           pretty (length prod_cell_types) +:+ "  prod cell types found"].
Proof.
  unfold load_prod_terms. split.
  - change ":" with (String colon EmptyString).
    setoid_rewrite count_one. setoid_rewrite <-to_internal_raises.
    rewrite <-(datasets_loop_raises datasets (∅, ∅)).
    destruct (for_each_e add_dataset datasets (∅, ∅)) as [[T C]|e]; cbn.
    + split; by intros [? ?].
    + split; intros _; by exists e.
  - intros prod_tissues prod_cell_types ev.
    destruct (for_each_e add_dataset datasets (∅, ∅)) as [[T C]|e] eqn:Hloop;
      [|done].
    cbn [result_bind]. intros [= <- <- <-].
    destruct (datasets_loop_Ok datasets ∅ ∅ T C Hloop) as [HT HC].
    split_and!; [apply NoDup_elements..| | |done].
    + intros x. rewrite elem_of_elements, HT. split.
      * intros [?%elem_of_empty|(id & Hid & Hconv)]; [done|].
        exists id. split; [done|]. by apply to_internal_replace.
      * intros (id & Hid & Hcount & ->). right. exists id. split; [done|].
        by apply to_internal_replace.
    + intros x. rewrite elem_of_elements, HC. split.
      * intros [?%elem_of_empty|(id & Hid & Hconv)]; [done|].
        exists id. split; [done|]. by apply to_internal_replace.
      * intros (id & Hid & Hcount & ->). right. exists id. split; [done|].
        by apply to_internal_replace.
Qed.

Lemma lung_datasets_run :
  load_prod_terms lung_datasets
  = Ok (["T_C"; "T_B"], ["CL_0000066"],
        [Printed "2  prod tissues found"; Printed "1  prod cell types found"]).
Proof. vm_compute. reflexivity. Qed.

Lemma production_terms_loaded_witness :
  load_prod_terms lung_datasets
  = Ok (["T_C"; "T_B"], ["CL_0000066"],
        [Printed "2  prod tissues found"; Printed "1  prod cell types found"])
  ∧ NoDup ["T_C"; "T_B"]
  ∧ ¬ raises (load_prod_terms lung_datasets).
Proof.
  split; [exact lung_datasets_run|]. split.
  - exact (proj1 (proj2 (production_terms_loaded lung_datasets) _ _ _
                    lung_datasets_run)).
  - rewrite lung_datasets_run. by intros [? ?].
Defined.

Section ProductionKeys.

Variables (fuel : nat) (graph : AGraph).

(** A name that came out of the conversion of an identifier and is
    converted back gives the identifier. *)
Lemma converted_back id n k :
  to_internal id = Ok n → to_writable n = Ok k → k = id.
Proof.
  intros [Hcolon ->]%to_internal_Ok [Hunderscore ->]%to_writable_Ok.
  rewrite count_char_subst_other in Hunderscore
    by (intros ?; by apply underscore_colon).
  apply subst_char_back. lia.
Qed.

Lemma production_keys (ids : list string) (names : list string)
    (m : gmap string (list string)) (ev : list event) :
  (∀ id, id ∈ ids → ¬ raises (to_internal id)) →
  (∀ n, n ∈ names ↔ ∃ id, id ∈ ids ∧ to_internal id = Ok n) →
  key_ancestors_by_entity fuel names graph = Some (Ok m, ev) →
  (∀ k, is_Some (m !! k) ↔ k ∈ ids)
  ∧ (∀ k l, m !! k = Some l → k ∈ l).
Proof.
  unfold key_ancestors_by_entity. intros Hloaded Hnames Hrun.
  destruct (key_ancestors_loop_Ok fuel graph _ _ _ _ Hrun) as [Hconv Hdom].
  split.
  - intros k. rewrite Hdom, lookup_empty. split.
    + intros [[? [=]]|(n & Hn & Hk)].
      apply Hnames in Hn as (id & Hid & Hn).
      by rewrite (converted_back id n k Hn Hk).
    + intros Hk. right.
      destruct (to_internal k) as [n|e] eqn:Hn.
      * exists n. assert (n ∈ names) as Hin by (apply Hnames; by exists k).
        split; [done|].
        destruct (Hconv n Hin) as (_ & _ & k' & _ & _ & Hk' & _).
        by rewrite Hk', (converted_back k n k' Hn Hk').
      * destruct (Hloaded k Hk). rewrite Hn. by exists e.
  - intros k l Hk.
    destruct (key_ancestors_loop_sound fuel graph _ _ _ _ k l Hrun Hk)
      as [Hempty|(n & acc & ev' & _ & Hacc & Hkn & Hl)]; [by rewrite lookup_empty in Hempty|].
    exact (proj1 (ancestor_list_elem fuel graph n acc ev' k l Hacc Hkn Hl)).
Qed.

End ProductionKeys.

(** X15. The identifiers of production come back as the keys: when the
    terms in production are loaded and the ancestor mappings of the tissues
    and of the cell types are returned, the keys of each mapping are exactly
    the identifiers that the datasets hold, as they were received, and the
    list of every key holds the key. *)
Theorem production_keys_round_trip (datasets : list dataset)
    (prod_tissues prod_cell_types : list string) (ev0 : list event)
    (fuel fuel' : nat) (tissue_graph cell_type_graph : AGraph)
    (tissues cell_types : gmap string (list string)) (ev ev' : list event) :
  load_prod_terms datasets = Ok (prod_tissues, prod_cell_types, ev0) →
  key_ancestors_by_entity fuel prod_tissues tissue_graph = Some (Ok tissues, ev) →
  key_ancestors_by_entity fuel' prod_cell_types cell_type_graph
  = Some (Ok cell_types, ev') →
  (∀ k, is_Some (tissues !! k) ↔ k ∈ tissue_ids datasets)
  ∧ (∀ k, is_Some (cell_types !! k) ↔ k ∈ cell_type_ids datasets)
  ∧ (∀ k l, tissues !! k = Some l ∨ cell_types !! k = Some l → k ∈ l).
Proof.
  unfold load_prod_terms. intros Hload Htissues Hcell_types.
  destruct (for_each_e add_dataset datasets (∅, ∅)) as [[T C]|e] eqn:Hloop; [|done].
  cbn [result_bind] in Hload. injection Hload as <- <- _.
  destruct (datasets_loop_Ok datasets ∅ ∅ T C Hloop) as [HT HC].
  assert (∀ id, id ∈ tissue_ids datasets ∨ id ∈ cell_type_ids datasets →
                ¬ raises (to_internal id)) as Hloaded.
  { intros id Hid Hbad.
    assert (raises (for_each_e add_dataset datasets (∅, ∅))) as [? ?].
    { apply datasets_loop_raises. by exists id. }
    congruence. }
  destruct (production_keys fuel tissue_graph (tissue_ids datasets) (elements T)
              tissues ev) as [Hkeys Hself]; [auto| |done|].
  { intros n. rewrite elem_of_elements, HT. set_solver. }
  destruct (production_keys fuel' cell_type_graph (cell_type_ids datasets)
              (elements C) cell_types ev') as [Hkeys' Hself']; [auto| |done|].
  { intros n. rewrite elem_of_elements, HC. set_solver. }
  split_and!; [done..|]. intros k l [?|?]; eauto.
Qed.

Lemma absent_cell_type_run :
  key_ancestors_by_entity 1 ["CL_0000066"] empty_graph
  = Some (Ok {["CL:0000066" := ["CL:0000066"]]},
          [AskPredecessors "CL_0000066";
           Printed "CL_0000066 not found - either add a parent to this entity or add this entity to the orphans list."]).
Proof. vm_compute. reflexivity. Qed.

Lemma production_keys_round_trip_witness :
  load_prod_terms lung_datasets
  = Ok (["T_C"; "T_B"], ["CL_0000066"],
        [Printed "2  prod tissues found"; Printed "1  prod cell types found"])
  ∧ ∀ k, is_Some ((<["T:C" := ["T:C"; "T:A"; "T:B"]]>
                     (<["T:B" := ["T:A"; "T:B"]]> ∅) : gmap string (list string)) !! k)
         ↔ k ∈ tissue_ids lung_datasets.
Proof.
  split; [exact lung_datasets_run|].
  exact (proj1 (production_keys_round_trip lung_datasets _ _ _ 3 1 tier_diamond
                  empty_graph _ _ _ _ lung_datasets_run diamond_ancestors_run
                  absent_cell_type_run)).
Defined.

(** ** The organoid index, entry by entry *)

Lemma snoc_split {A : Type} (xs pre post : list A) (x v : A) :
  xs ++ [x] = pre ++ v :: post →
  (post = [] ∧ v = x ∧ pre = xs)
  ∨ ∃ post', post = post' ++ [x] ∧ xs = pre ++ v :: post'.
Proof.
  destruct post as [|p post _] using rev_ind.
  - intros [-> ->]%(app_inj_tail xs pre x v). by left.
  - change (pre ++ v :: post ++ [p]) with (pre ++ (v :: post) ++ [p]).
    rewrite (assoc_L (++)). intros [-> ->]%app_inj_tail.
    right. by exists post.
Qed.

(** X16. The organoid index holds under a stem the last organoid variant
    with that stem in the list it is built from, later ones overwriting
    earlier ones, and nothing under a stem of no organoid variant of the
    list. *)
Theorem organoid_index_last_wins (entity_names : list string) (s v : string) :
  key_organoids_by_ontology_term_id entity_names !! s = Some v ↔
  ∃ before after,
    entity_names = before ++ v :: after
    ∧ is_organoid v = true ∧ organoid_stem v = s
    ∧ ∀ v', v' ∈ after → is_organoid v' = true → organoid_stem v' ≠ s.
Proof.
  induction entity_names as [|x names IH] using rev_ind.
  - unfold key_organoids_by_ontology_term_id. simpl. rewrite lookup_empty.
    split; [done|]. intros (before & after & Hnil & _). by destruct before.
  - rewrite key_organoids_snoc.
    destruct (is_organoid x) eqn:Horganoid;
      [destruct (decide (organoid_stem x = s)) as [Hs|Hs]|].
    + rewrite Hs, lookup_insert_eq. split.
      * intros [= <-]. exists names, []. split_and!; [done..|].
        by intros v' ?%elem_of_nil.
      * intros (before & after & Hsplit & _ & _ & Hlast).
        apply snoc_split in Hsplit as [(_ & -> & _)|(after' & -> & _)]; [done|].
        destruct (Hlast x); [apply elem_of_app; right; left|done..].
    + rewrite lookup_insert_ne by done. rewrite IH. split.
      * intros (before & after & -> & Hv & Hstem & Hlast).
        exists before, (after ++ [x]). split_and!; [by rewrite <-(assoc_L (++))|done..|].
        intros v' [?|Hx%list_elem_of_singleton]%elem_of_app; [by apply Hlast|].
        by rewrite Hx.
      * intros (before & after & Hsplit & Hv & Hstem & Hlast).
        apply snoc_split in Hsplit as [(_ & -> & _)|(after' & -> & ->)]; [done|].
        exists before, after'. split_and!; [done..|].
        intros v' Hv'. apply Hlast, elem_of_app. by left.
    + rewrite IH. split.
      * intros (before & after & -> & Hv & Hstem & Hlast).
        exists before, (after ++ [x]). split_and!; [by rewrite <-(assoc_L (++))|done..|].
        intros v' [?|Hx%list_elem_of_singleton]%elem_of_app; [by apply Hlast|].
        congruence.
      * intros (before & after & Hsplit & Hv & Hstem & Hlast).
        apply snoc_split in Hsplit as [(_ & -> & _)|(after' & -> & ->)]; [congruence|].
        exists before, after'. split_and!; [done..|].
        intros v' Hv'. apply Hlast, elem_of_app. by left.
Qed.
